(** * smtp-channel: a shallow embedding of [src/index.js]

    The class [SMTPChannel] is an event-driven object: all of its behaviour
    happens when a socket emits an event, when the application calls one of the
    public methods, or when a queued promise reaction runs.  The embedding keeps
    that shape:

    - JavaScript values that the code inspects ([null], booleans, strings) are a
      small inductive type with the language's truthiness;
    - the channel object, the sockets it created, the listeners registered on
      them, the closures of [_resolveCommand], the promises handed to callers
      and the microtask queue form one record, threaded through a state and
      exception monad;
    - every method of the class is a definition of the same name. *)

From Stdlib Require Import String Ascii List ZArith Lia Bool.
From stdpp Require Import base list strings.
Import ListNotations.

Local Open Scope string_scope.
Local Open Scope list_scope.

(** ** JavaScript values *)

Module JS.

Inductive jsval : Type :=
| JUndefined
| JNull
| JBool (b : bool)
| JNum (n : Z)
| JStr (s : string).

(** [ToBoolean]: the condition of [if (v)] and of [v ? a : b]. *)
Definition truthy (v : jsval) : bool :=
  match v with
  | JUndefined | JNull => false
  | JBool b => b
  | JNum n => negb (Z.eqb n 0)
  | JStr EmptyString => false
  | JStr (String _ _) => true
  end.

(** [v === true]. *)
Definition is_true (v : jsval) : bool :=
  match v with
  | JBool true => true
  | _ => false
  end.

(** [s.substr(start, len)] for a start inside the string or at its end:
    at most [len] characters from index [start]. *)
Definition substr (s : string) (start len : nat) : string :=
  String.substring start len s.

(** [s.charAt(i)]: the one-character string at index [i], the empty string
    when [i] is out of range. *)
Definition charAt (s : string) (i : nat) : string :=
  match String.get i s with
  | Some c => String c EmptyString
  | None => EmptyString
  end.

(** Exceptions and rejection reasons. [Error msg] is [new Error(msg)];
    [TypeError] is what dereferencing [null] raises. *)
Inductive exn : Type :=
| Error (msg : string)
| TypeError (msg : string).

Definition CR : ascii := ascii_of_nat 13.
Definition LF : ascii := ascii_of_nat 10.
Definition CRLF : string := String CR (String LF EmptyString).

End JS.
Import JS.

(** ** Reply-line helpers (public, pure) *)

(** [parseReplyCode(line)]: [line ? line.substr(0, 3) : null]. *)
Definition parseReplyCode (line : string) : jsval :=
  if truthy (JStr line) then JStr (substr line 0 3) else JNull.

(** [isLastReply(line)]: [line ? line.charAt(3) === ' ' : null]. *)
Definition isLastReply (line : string) : jsval :=
  if truthy (JStr line) then JBool (String.eqb (charAt line 3) " ") else JNull.

(** ** The objects of a session *)

(** The per-line handler a caller may pass to [connect] and [write]. It
    receives the line and [{isLast, code}]; [None] is a normal return,
    [Some e] is [throw e]. Its return value is ignored by the channel. *)
Record reply_args : Type := ReplyArgs { isLast : jsval; code : jsval }.

Definition handler : Type := string -> reply_args -> option exn.

(** [net] or [tls], the module whose [connect] created a socket. *)
Inductive lib : Type := Net | Tls.

(** The socket objects created so far; a socket is named by its index. *)
Record sockinfo : Type := SockInfo {
  s_lib : lib;                (* created by net.connect or by tls.connect *)
  s_wraps : option nat;       (* the [socket] option of tls.connect *)
  s_destroyed : bool          (* [destroy()] was called *)
}.

(** Names of the socket events the channel listens to. *)
Inductive evname : Type :=
  EvConnect | EvClose | EvData | EvEnd | EvError | EvTimeout.

(** A socket event with the arguments Node passes to its listeners. The
    connect callback given to [net.connect]/[tls.connect] is a one-shot
    listener of the socket's connect ([secureConnect]) event. *)
Inductive sevent : Type :=
| SConnect
| SClose (hadError : bool)
| SData (chunk : string)
| SEnd
| SError (e : exn)
| STimeout.

Definition name_of (ev : sevent) : evname :=
  match ev with
  | SConnect => EvConnect
  | SClose _ => EvClose
  | SData _ => EvData
  | SEnd => EvEnd
  | SError _ => EvError
  | STimeout => EvTimeout
  end.

(** The functions the code registers on sockets. [k] names one call of
    [_resolveCommand] (its closures [onClose], [onError], [onLine]); [p] names
    the promise whose [resolve]/[reject] a function is or captures. *)
Inductive listener : Type :=
| OnCloseCmd (k : nat)          (* onClose of the k-th _resolveCommand call *)
| OnErrorCmd (k : nat)          (* onError of the k-th _resolveCommand call *)
| BoundOnClose                  (* this._onClose.bind(this) *)
| BoundOnReceive                (* this._onReceive.bind(this) *)
| BoundOnEnd                    (* this._onEnd.bind(this) *)
| BoundOnError                  (* this._onError.bind(this) *)
| BoundOnTimeout                (* this._onTimeout.bind(this) *)
| ConnectCb (secure : bool)     (* the arrow of _connectAsPromised; !!options.secure *)
| UpgradeCb (p : nat)           (* the arrow of _negotiateTLSAsPromised *)
| ResolveFn (p : nat)           (* resolve, as passed to once('close', resolve) *)
| RejectFn (p : nat).           (* reject, as passed to on('error', reject) *)

(** Each of these functions is registered under one event name only. *)
Definition event_of (l : listener) : evname :=
  match l with
  | OnCloseCmd _ | BoundOnClose | ResolveFn _ => EvClose
  | OnErrorCmd _ | BoundOnError | RejectFn _ => EvError
  | BoundOnReceive => EvData
  | BoundOnEnd => EvEnd
  | BoundOnTimeout => EvTimeout
  | ConnectCb _ | UpgradeCb _ => EvConnect
  end.

#[global] Instance evname_eq_dec : EqDecision evname.
Proof. solve_decision. Defined.

#[global] Instance listener_eq_dec : EqDecision listener.
Proof. solve_decision. Defined.

(** A registration: [r_once] tells [once] from [on]. The registrations of all
    sockets are kept in one list, in the order they were made; the listeners of
    one event of one socket are the matching entries, in that order. *)
Record reg : Type := Reg { r_sock : nat; r_fn : listener; r_once : bool }.

(** The variables captured by the closures of one [_resolveCommand] call. *)
Record command : Type := Command {
  c_promise : nat;               (* whose resolve and reject were passed *)
  c_handler : option handler
}.

Inductive pstate : Type :=
| Pending
| Fulfilled (v : jsval)
| Rejected (e : exn).

(** The reactions queued by [onLine]:
    [Promise.resolve().then(A).then(B).catch(reject)] runs [A], [B] and the
    catch in three successive microtasks; [prev] is how the previous one
    ended. *)
Inductive job : Type :=
| JHandler (k : nat) (line : string) (args : reply_args)
| JSettle (k : nat) (prev : option exn) (args : reply_args)
| JCatch (k : nat) (prev : option exn).

(** A [LineBuffer] of the line-buffer package: its splitting function, the
    partial line kept between two [feed] calls and the [onLine] closures
    registered for its line event (by command). *)
Record LineBuffer : Type := MkLineBuffer {
  lb_split : string -> string -> list string * string;
  lb_tail : string;
  lb_listeners : list nat
}.

(** What the write side hands to the socket. *)
Inductive stream : Type := Readable (chunks : list string).

Inductive payload : Type :=
| PData (s : string)
| PStream (r : stream).

(** Events the channel emits to its observers. *)
Inductive chan_event : Type :=
| CConnect
| CClose
| CEnd
| CError (e : exn)
| CTimeout
| CReceive (chunk : string)
| CReply (line : string)
| CSend (chunk : string)
| CCommand (line : string).

(** What a run does that can be seen from outside, in order. *)
Inductive effect : Type :=
| Emit (e : chan_event)
| CallHandler (k : nat) (line : string) (args : reply_args)
| CallResolve (p : nat) (v : jsval)
| CallReject (p : nat) (e : exn)
| SockCreate (s : nat) (l : lib)
| SockDestroy (s : nat)
| SockSetEncoding (s : nat)
| SockSetTimeout (s : nat) (ms : Z)
| SockPipe (s : nat) (r : stream)
| Uncaught (e : exn).

Record config : Type := Config {
  host : string;
  port : Z;
  timeout : Z;
  secure : jsval
}.

(** The channel object together with everything it refers to. *)
Record channel : Type := Channel {
  _config : config;
  _socket : option nat;
  _receiveBuffer : LineBuffer;
  _sendBuffer : LineBuffer;
  _isSecure : bool;
  errorObserved : bool;        (* the application listens to the channel's error event *)
  sockets : list sockinfo;
  regs : list reg;
  commands : list command;
  promises : list pstate;
  microtasks : list job;
  trace : list effect
}.

(** Field updates. *)
Definition set_socket (v : option nat) (st : channel) : channel :=
  Channel (_config st) v (_receiveBuffer st) (_sendBuffer st) (_isSecure st)
    (errorObserved st) (sockets st) (regs st) (commands st) (promises st)
    (microtasks st) (trace st).

Definition set_receiveBuffer (v : LineBuffer) (st : channel) : channel :=
  Channel (_config st) (_socket st) v (_sendBuffer st) (_isSecure st)
    (errorObserved st) (sockets st) (regs st) (commands st) (promises st)
    (microtasks st) (trace st).

Definition set_sendBuffer (v : LineBuffer) (st : channel) : channel :=
  Channel (_config st) (_socket st) (_receiveBuffer st) v (_isSecure st)
    (errorObserved st) (sockets st) (regs st) (commands st) (promises st)
    (microtasks st) (trace st).

Definition set_isSecure (v : bool) (st : channel) : channel :=
  Channel (_config st) (_socket st) (_receiveBuffer st) (_sendBuffer st) v
    (errorObserved st) (sockets st) (regs st) (commands st) (promises st)
    (microtasks st) (trace st).

Definition set_sockets (v : list sockinfo) (st : channel) : channel :=
  Channel (_config st) (_socket st) (_receiveBuffer st) (_sendBuffer st)
    (_isSecure st) (errorObserved st) v (regs st) (commands st) (promises st)
    (microtasks st) (trace st).

Definition set_regs (v : list reg) (st : channel) : channel :=
  Channel (_config st) (_socket st) (_receiveBuffer st) (_sendBuffer st)
    (_isSecure st) (errorObserved st) (sockets st) v (commands st) (promises st)
    (microtasks st) (trace st).

Definition set_commands (v : list command) (st : channel) : channel :=
  Channel (_config st) (_socket st) (_receiveBuffer st) (_sendBuffer st)
    (_isSecure st) (errorObserved st) (sockets st) (regs st) v (promises st)
    (microtasks st) (trace st).

Definition set_promises (v : list pstate) (st : channel) : channel :=
  Channel (_config st) (_socket st) (_receiveBuffer st) (_sendBuffer st)
    (_isSecure st) (errorObserved st) (sockets st) (regs st) (commands st) v
    (microtasks st) (trace st).

Definition set_microtasks (v : list job) (st : channel) : channel :=
  Channel (_config st) (_socket st) (_receiveBuffer st) (_sendBuffer st)
    (_isSecure st) (errorObserved st) (sockets st) (regs st) (commands st)
    (promises st) v (trace st).

Definition set_trace (v : list effect) (st : channel) : channel :=
  Channel (_config st) (_socket st) (_receiveBuffer st) (_sendBuffer st)
    (_isSecure st) (errorObserved st) (sockets st) (regs st) (commands st)
    (promises st) (microtasks st) v.

(** ** A state and exception monad

    A JavaScript function reads and writes the objects above and either
    returns or throws; what it changed before throwing stays changed. *)

Definition M (A : Type) : Type := channel -> (exn + A) * channel.

Definition ret {A : Type} (a : A) : M A := fun st => (inr a, st).

Definition throw {A : Type} (e : exn) : M A := fun st => (inl e, st).

Definition bind {A B : Type} (m : M A) (f : A -> M B) : M B :=
  fun st =>
    match m st with
    | (inr a, st') => f a st'
    | (inl e, st') => (inl e, st')
    end.

Definition gets {A : Type} (f : channel -> A) : M A := fun st => (inr (f st), st).

Definition modify (f : channel -> channel) : M unit := fun st => (inr tt, f st).

Declare Scope js_scope.
Delimit Scope js_scope with js.
Notation "x <- m ;; k" := (bind m (fun x => k))
  (at level 100, m at next level, right associativity) : js_scope.
Notation "m ;; k" := (bind m (fun _ => k))
  (at level 100, right associativity) : js_scope.
Local Open Scope js_scope.

Fixpoint for_each {A : Type} (f : A -> M unit) (l : list A) : M unit :=
  match l with
  | [] => ret tt
  | x :: t => f x ;; for_each f t
  end.

(** ** Promises, event emitters and sockets (the Node side) *)

Definition log (e : effect) : M unit :=
  modify (fun st => set_trace (trace st ++ [e]) st).

(** A promise changes state once; later calls of its functions do nothing. *)
Definition settle (p : nat) (v : pstate) : M unit :=
  modify (fun st =>
    match promises st !! p with
    | Some Pending => set_promises (<[p := v]> (promises st)) st
    | _ => st
    end).

(** The [resolve] and [reject] functions of promise [p]. *)
Definition resolve (p : nat) (v : jsval) : M unit :=
  log (CallResolve p v) ;; settle p (Fulfilled v).

Definition reject (p : nat) (e : exn) : M unit :=
  log (CallReject p e) ;; settle p (Rejected e).

(** [new Promise(executor)]: the executor runs at once; if it throws, the
    promise is rejected with what it threw. *)
Definition new_promise (executor : nat -> M unit) : M nat :=
  fun st =>
    let p := length (promises st) in
    match executor p (set_promises (promises st ++ [Pending]) st) with
    | (inr _, st') => (inr p, st')
    | (inl e, st') => (inr p, snd (reject p e st'))
    end.

(** [this._socket.m(...)]: reading a member of [null] throws. *)
Definition the_socket : M nat :=
  fun st =>
    match _socket st with
    | Some s => (inr s, st)
    | None => (inl (TypeError "Cannot read properties of null"), st)
    end.

Definition on_event (s : nat) (n : evname) (r : reg) : bool :=
  Nat.eqb (r_sock r) s && bool_decide (event_of (r_fn r) = n).

Definition is_reg (s : nat) (l : listener) (r : reg) : bool :=
  Nat.eqb (r_sock r) s && bool_decide (r_fn r = l).

(** Drop the last element that satisfies [P] (Node's [removeListener] removes
    the most recently added instance). *)
Fixpoint remove_last {A : Type} (P : A -> bool) (l : list A) : list A :=
  match l with
  | [] => []
  | x :: t => if P x && negb (existsb P t) then t else x :: remove_last P t
  end.

(** [s.on(event_of l, l)] and [s.once(event_of l, l)]. *)
Definition sock_on (s : nat) (l : listener) : M unit :=
  modify (fun st => set_regs (regs st ++ [Reg s l false]) st).

Definition sock_once (s : nat) (l : listener) : M unit :=
  modify (fun st => set_regs (regs st ++ [Reg s l true]) st).

(** [s.removeListener(event_of l, l)]; a function registered with [once] is
    found through its wrapper. *)
Definition sock_removeListener (s : nat) (l : listener) : M unit :=
  modify (fun st => set_regs (remove_last (is_reg s l) (regs st)) st).

(** [s.removeAllListeners(n)]. *)
Definition sock_removeAllListeners (s : nat) (n : evname) : M unit :=
  modify (fun st => set_regs (List.filter (fun r => negb (on_event s n r)) (regs st)) st).

Definition mark_destroyed (i : sockinfo) : sockinfo :=
  SockInfo (s_lib i) (s_wraps i) true.

(** [s.destroy()]: the socket's close event comes later, as an event. *)
Definition sock_destroy (s : nat) : M unit :=
  modify (fun st => set_sockets (alter mark_destroyed s (sockets st)) st) ;;
  log (SockDestroy s).

(** [net.connect(options, onConnect)] / [tls.connect(options, onConnect)]. *)
Definition lib_connect (l : lib) (wraps : option nat) (onConnect : listener) : M nat :=
  s <- gets (fun st => length (sockets st)) ;;
  modify (fun st => set_sockets (sockets st ++ [SockInfo l wraps false]) st) ;;
  log (SockCreate s l) ;;
  sock_once s onConnect ;;
  ret s.

(** [this._receiveBuffer.on('line', onLine)] and the matching
    [removeListener], for the [onLine] of command [k]. *)
Definition lb_with_listeners (ls : list nat) (b : LineBuffer) : LineBuffer :=
  MkLineBuffer (lb_split b) (lb_tail b) ls.

Definition lb_with_tail (t : string) (b : LineBuffer) : LineBuffer :=
  MkLineBuffer (lb_split b) t (lb_listeners b).

Definition line_on (k : nat) : M unit :=
  modify (fun st =>
    set_receiveBuffer
      (lb_with_listeners (lb_listeners (_receiveBuffer st) ++ [k]) (_receiveBuffer st)) st).

Definition line_removeListener (k : nat) : M unit :=
  modify (fun st =>
    set_receiveBuffer
      (lb_with_listeners (remove_last (Nat.eqb k) (lb_listeners (_receiveBuffer st)))
         (_receiveBuffer st)) st).

Definition enqueue (j : job) : M unit :=
  modify (fun st => set_microtasks (microtasks st ++ [j]) st).

(** [this.emit(name, ...)] on the channel. An error event nobody listens to
    is thrown by [emit]. Observers only observe. *)
Definition chan_emit (e : chan_event) : M unit :=
  match e with
  | CError err =>
      o <- gets errorObserved ;;
      if (o : bool) then log (Emit e) else throw err
  | _ => log (Emit e)
  end.

(** ** The class [SMTPChannel] *)

(** The constructor: [Object.assign({host: 'localhost', port: 25, timeout: 0},
    config)], no socket, two fresh line buffers, [_isSecure = false]. An
    option the caller leaves out is [None]. *)
Record options : Type := Options {
  o_host : option string;
  o_port : option Z;
  o_timeout : option Z;
  o_secure : option jsval
}.

Definition assign_defaults (o : options) : config :=
  Config (default "localhost" (o_host o)) (default 25%Z (o_port o))
         (default 0%Z (o_timeout o)) (default JUndefined (o_secure o)).

(** Modelled from the spec: the LineSplitter of the external line-buffer
    package, which is not part of this repository: a stateful accumulator
    that takes chunks, emits the complete lines without their CR LF
    delimiter, and retains the partial tail across calls. [scan_crlf] cuts a
    text at every CR LF, [cur] being the line collected so far. *)
Fixpoint scan_crlf (cur : string) (text : string) : list string * string :=
  match text with
  | EmptyString => ([], cur)
  | String c rest =>
      match rest with
      | String c' rest' =>
          if Ascii.eqb c CR && Ascii.eqb c' LF
          then let '(ls, t) := scan_crlf EmptyString rest' in (cur :: ls, t)
          else scan_crlf (cur ++ String c EmptyString)%string rest
      | EmptyString => ([], (cur ++ String c EmptyString)%string)
      end
  end.

(** Modelled from the spec: one [feed] of the LineSplitter. The retained
    tail and the chunk are scanned as one text, so that a delimiter cut by a
    chunk boundary (the tail ends in CR, the chunk starts with LF) is
    recognised as well. *)
Definition split_crlf (tail : string) (chunk : string) : list string * string :=
  scan_crlf EmptyString (tail ++ chunk)%string.

Definition new_LineBuffer : LineBuffer := MkLineBuffer split_crlf EmptyString [].

(** [new SMTPChannel(config)]; [observed] tells whether the application
    registers a listener for the channel's error event. *)
Definition SMTPChannel (o : options) (observed : bool) : channel :=
  Channel (assign_defaults o) None new_LineBuffer new_LineBuffer false observed
          [] [] [] [] [] [].

(** [isSecure()]. *)
Definition isSecure (st : channel) : bool := _isSecure st.

(** [_createSocket(config, onConnect)]: [config.secure] and [config.socket]
    are the two options the code and this model look at. *)
Definition _createSocket (cfg_secure : jsval) (cfg_socket : option nat)
    (onConnect : listener) : M nat :=
  isSecure <- gets (fun st => secure (_config st)) ;;
  let l := if truthy isSecure || is_true cfg_secure then Tls else Net in
  lib_connect l cfg_socket onConnect.

(** The captured [resolve] and [reject] of command [k]. *)
Definition cmd_resolve (k : nat) (v : jsval) : M unit :=
  c <- gets (fun st => commands st !! k) ;;
  match c with
  | Some c => resolve (c_promise c) v
  | None => ret tt
  end.

Definition cmd_reject (k : nat) (e : exn) : M unit :=
  c <- gets (fun st => commands st !! k) ;;
  match c with
  | Some c => reject (c_promise c) e
  | None => ret tt
  end.

(** The three closures of [_resolveCommand]. *)
Definition onClose (k : nat) : M unit :=
  s <- gets _socket ;;
  match s with
  | Some s => sock_removeListener s (OnErrorCmd k)
  | None => ret tt
  end ;;
  line_removeListener k ;;
  cmd_reject k (Error "Socket has closed unexpectedly").

Definition onError (k : nat) (error : exn) : M unit :=
  s <- the_socket ;;
  sock_removeListener s (OnCloseCmd k) ;;
  line_removeListener k ;;
  cmd_reject k error.

Definition onLine (k : nat) (line : string) : M unit :=
  let isLast := isLastReply line in
  let code := parseReplyCode line in
  let args := ReplyArgs isLast code in
  enqueue (JHandler k line args) ;;
  if truthy isLast then
    s <- the_socket ;;
    sock_removeListener s (OnCloseCmd k) ;;
    s <- the_socket ;;
    sock_removeListener s (OnErrorCmd k) ;;
    line_removeListener k
  else ret tt.

(** [_resolveCommand({resolve, reject, handler})], with [p] the promise whose
    [resolve] and [reject] are passed. *)
Definition _resolveCommand (p : nat) (h : option handler) : M unit :=
  k <- gets (fun st => length (commands st)) ;;
  modify (fun st => set_commands (commands st ++ [Command p h]) st) ;;
  s <- the_socket ;;
  sock_once s (OnCloseCmd k) ;;
  s <- the_socket ;;
  sock_once s (OnErrorCmd k) ;;
  line_on k.

(** The microtasks of one [onLine] call. *)
Definition run_job (j : job) : M unit :=
  match j with
  | JHandler k line args =>
      c <- gets (fun st => commands st !! k) ;;
      match c with
      | Some (Command _ (Some h)) =>
          log (CallHandler k line args) ;;
          enqueue (JSettle k (h line args) args)
      | _ => enqueue (JSettle k None args)
      end
  | JSettle k None args =>
      (if truthy (isLast args) then cmd_resolve k (code args) else ret tt) ;;
      enqueue (JCatch k None)
  | JSettle k (Some e) _ => enqueue (JCatch k (Some e))
  | JCatch k None => ret tt
  | JCatch k (Some e) => cmd_reject k e
  end.

(** [LineBuffer.feed(chunk)]: emits a line event per complete line and
    returns the lines. [get] and [set] select the buffer. *)
Definition feed (get : channel -> LineBuffer) (set : LineBuffer -> channel -> channel)
    (chunk : string) : M (list string) :=
  b <- gets get ;;
  let '(lines, t) := lb_split b (lb_tail b) chunk in
  modify (fun st => set (lb_with_tail t (get st)) st) ;;
  for_each (fun line =>
              snapshot <- gets (fun st => lb_listeners (get st)) ;;
              for_each (fun k => onLine k line) snapshot) lines ;;
  ret lines.

(** [_convertToStream(data)]. *)
Definition _convertToStream (data : payload) : stream :=
  match data with
  | PStream r => r
  | PData s => Readable [s]
  end.

Definition _onClose : M unit :=
  modify (set_socket None) ;;
  chan_emit CClose.

Definition _onCommand (line : string) : M unit := chan_emit (CCommand line).

Definition _onConnect : M unit := chan_emit CConnect.

Definition _onEnd : M unit := chan_emit CEnd.

Definition _onError (error : exn) : M unit := chan_emit (CError error).

Definition _onReply (line : string) : M unit := chan_emit (CReply line).

Definition _onReceive (chunk : string) : M unit :=
  chan_emit (CReceive chunk) ;;
  lines <- feed _receiveBuffer set_receiveBuffer chunk ;;
  for_each _onReply lines.

Definition _onSend (chunk : string) : M unit :=
  chan_emit (CSend chunk) ;;
  lines <- feed _sendBuffer set_sendBuffer chunk ;;
  for_each _onCommand lines.

(** [_writeAsPromised(data, {handler})]. The two [pipe] calls start the
    transfer; the bytes reach [_onSend] later, chunk by chunk. *)
Definition _writeAsPromised (data : payload) (h : option handler) : M nat :=
  new_promise (fun p =>
    s <- gets _socket ;;
    match s with
    | None => reject p (Error "Socket has closed")
    | Some _ =>
        _resolveCommand p h ;;
        let channel := _convertToStream data in
        s <- the_socket ;;
        log (SockPipe s channel)
    end).

(** The public methods wrap the promise in the external deadline race; with
    the default [timeout: 0] the race is disabled and the caller gets the
    operation's own outcome. *)
Definition write (data : payload) (h : option handler) : M nat :=
  _writeAsPromised data h.

Definition _onTimeout : M unit :=
  chan_emit CTimeout ;;
  _ <- write (PData ("QUIT" ++ CRLF)%string) None ;;
  ret tt.

(** The five [on] calls, [setEncoding] and [setTimeout] that both connect
    callbacks make on [this._socket]. *)
Definition wire_socket : M unit :=
  s <- the_socket ;; sock_removeAllListeners s EvError ;;
  s <- the_socket ;; sock_on s BoundOnClose ;;
  s <- the_socket ;; sock_on s BoundOnReceive ;;
  s <- the_socket ;; sock_on s BoundOnEnd ;;
  s <- the_socket ;; sock_on s BoundOnError ;;
  s <- the_socket ;; sock_on s BoundOnTimeout ;;
  s <- the_socket ;; log (SockSetEncoding s) ;;
  s <- the_socket ;; t <- gets (fun st => timeout (_config st)) ;;
  log (SockSetTimeout s t).

(** The arrow passed to [_createSocket] by [_connectAsPromised]. *)
Definition connect_callback (options_secure : bool) : M unit :=
  modify (set_isSecure options_secure) ;;
  wire_socket ;;
  _onConnect.

(** The arrow passed to [_createSocket] by [_negotiateTLSAsPromised]. *)
Definition upgrade_callback (p : nat) : M unit :=
  modify (set_isSecure true) ;;
  wire_socket ;;
  resolve p JUndefined.

(** Calling a registered function with the arguments of the event. *)
Definition invoke (l : listener) (ev : sevent) : M unit :=
  match l, ev with
  | OnCloseCmd k, SClose _ => onClose k
  | OnErrorCmd k, SError e => onError k e
  | BoundOnClose, SClose _ => _onClose
  | BoundOnReceive, SData chunk => _onReceive chunk
  | BoundOnEnd, SEnd => _onEnd
  | BoundOnError, SError e => _onError e
  | BoundOnTimeout, STimeout => _onTimeout
  | ConnectCb b, SConnect => connect_callback b
  | UpgradeCb p, SConnect => upgrade_callback p
  | ResolveFn p, SClose hadError => resolve p (JBool hadError)
  | RejectFn p, SError e => reject p e
  | _, _ => ret tt
  end.

(** [s.emit(...)]: the listeners registered when the event is emitted are
    called in registration order; a [once] registration is removed just
    before its function is called; an exception ends the emit. An error
    event without a listener is thrown. *)
Definition fire (ev : sevent) (r : reg) : M unit :=
  (if r_once r then sock_removeListener (r_sock r) (r_fn r) else ret tt) ;;
  invoke (r_fn r) ev.

Definition sock_emit (s : nat) (ev : sevent) : M unit :=
  snapshot <- gets (fun st => List.filter (on_event s (name_of ev)) (regs st)) ;;
  match snapshot, ev with
  | [], SError e => throw e
  | _, _ => for_each (fire ev) snapshot
  end.

(** [_connectAsPromised({handler})]. *)
Definition _connectAsPromised (h : option handler) : M nat :=
  new_promise (fun p =>
    s <- gets _socket ;;
    match s with
    | Some _ => resolve p JUndefined
    | None =>
        options <- gets _config ;;
        s <- _createSocket (secure options) None (ConnectCb (truthy (secure options))) ;;
        modify (set_socket (Some s)) ;;
        _resolveCommand p h
    end).

Definition connect (h : option handler) : M nat := _connectAsPromised h.

(** [_closeAsPromised()]. *)
Definition _closeAsPromised : M nat :=
  new_promise (fun p =>
    s <- gets _socket ;;
    match s with
    | None => resolve p JUndefined
    | Some _ =>
        s <- the_socket ;; sock_once s (ResolveFn p) ;;
        s <- the_socket ;; sock_destroy s ;;
        modify (set_socket None)
    end).

Definition close : M nat := _closeAsPromised.

(** [_negotiateTLSAsPromised(config)]; the options given to [_createSocket]
    end with [{socket: this._socket, secure: true}]. *)
Definition _negotiateTLSAsPromised : M nat :=
  new_promise (fun p =>
    s <- the_socket ;; sock_removeAllListeners s EvClose ;;
    s <- the_socket ;; sock_removeAllListeners s EvData ;;
    s <- the_socket ;; sock_removeAllListeners s EvEnd ;;
    s <- the_socket ;; sock_removeAllListeners s EvError ;;
    s <- the_socket ;; sock_removeAllListeners s EvTimeout ;;
    old <- gets _socket ;;
    s <- _createSocket (JBool true) old (UpgradeCb p) ;;
    modify (set_socket (Some s)) ;;
    s <- the_socket ;; sock_on s (RejectFn p)).

Definition negotiateTLS : M nat := _negotiateTLSAsPromised.

(** ** The event loop *)

(** Draining the microtask queue. A job queues at most one job, of the next
    stage, so three rounds per queued job are enough. *)
Definition job_weight (j : job) : nat :=
  match j with
  | JHandler _ _ _ => 3
  | JSettle _ _ _ => 2
  | JCatch _ _ => 1
  end.

Fixpoint drain (fuel : nat) : M unit :=
  match fuel with
  | O => ret tt
  | S fuel' =>
      q <- gets microtasks ;;
      match q with
      | [] => ret tt
      | j :: q' => modify (set_microtasks q') ;; run_job j ;; drain fuel'
      end
  end.

Definition run_microtasks : M unit :=
  q <- gets microtasks ;;
  drain (list_sum (map job_weight q)).

(** What can happen in one turn of the loop: a socket emits an event, the
    application calls a public method, or the payload stream of a write hands
    a chunk to the send logger. *)
Inductive input : Type :=
| SockEmit (s : nat) (ev : sevent)
| CallConnect (h : option handler)
| CallClose
| CallWrite (data : payload) (h : option handler)
| CallNegotiateTLS
| LoggerData (chunk : string).

Definition perform (i : input) : M unit :=
  match i with
  | SockEmit s ev => sock_emit s ev
  | CallConnect h => _ <- connect h ;; ret tt
  | CallClose => _ <- close ;; ret tt
  | CallWrite data h => _ <- write data h ;; ret tt
  | CallNegotiateTLS => _ <- negotiateTLS ;; ret tt
  | LoggerData chunk => _onSend chunk
  end.

(** One turn: the synchronous work, then the microtasks. An exception
    nobody caught is recorded and the loop goes on. *)
Definition turn (i : input) (st : channel) : channel :=
  let st1 :=
    match perform i st with
    | (inr _, st') => st'
    | (inl e, st') => snd (log (Uncaught e) st')
    end in
  snd (run_microtasks st1).

Definition run (inputs : list input) (st : channel) : channel :=
  fold_left (fun st i => turn i st) inputs st.

(** ** Vocabulary of the properties *)

(** The command a queued reaction belongs to. *)
Definition job_cmd (j : job) : nat :=
  match j with
  | JHandler k _ _ | JSettle k _ _ | JCatch k _ => k
  end.

(** The registrations made for the closures of command [k]. *)
Definition of_cmd (k : nat) (l : listener) : bool :=
  match l with
  | OnCloseCmd k' | OnErrorCmd k' => Nat.eqb k k'
  | _ => false
  end.

(** The registered functions that are, or call, the functions of promise [p]
    without being closures of a command. *)
Definition of_promise (p : nat) (l : listener) : bool :=
  match l with
  | UpgradeCb q | ResolveFn q | RejectFn q => Nat.eqb q p
  | _ => false
  end.

(** The calls of the [resolve] and [reject] functions of promise [p] in a
    trace. *)
Definition is_call (p : nat) (e : effect) : bool :=
  match e with
  | CallResolve q _ | CallReject q _ => Nat.eqb q p
  | _ => false
  end.

Definition calls (p : nat) (tr : list effect) : list effect :=
  List.filter (is_call p) tr.

(** The functions of command [k] registered on sockets, and how often its
    [onLine] is registered on the receive buffer. *)
Definition cmd_regs (k : nat) (st : channel) : list reg :=
  List.filter (fun r => of_cmd k (r_fn r)) (regs st).

Definition cmd_lines (k : nat) (st : channel) : list nat :=
  List.filter (Nat.eqb k) (lb_listeners (_receiveBuffer st)).

(** Command [k] is detached: none of its closures is registered on a socket or
    on a line buffer and none of its reactions is queued. *)
Definition detached (k : nat) (st : channel) : Prop :=
  cmd_regs k st = [] /\
  cmd_lines k st = [] /\
  List.filter (Nat.eqb k) (lb_listeners (_sendBuffer st)) = [] /\
  Forall (fun j => job_cmd j <> k) (microtasks st).

(** Command [k] is the one user of the functions of promise [p]. *)
Definition owns (k p : nat) (st : channel) : Prop :=
  (exists h, commands st !! k = Some (Command p h)) /\
  p < length (promises st) /\
  (forall k' c, commands st !! k' = Some c -> c_promise c = p -> k' = k) /\
  List.filter (fun r => of_promise p (r_fn r)) (regs st) = [].

(** Command [k] is armed on socket [s]: its [onClose] is registered there
    (once), its [onError] is registered there (once) unless the connect
    callback's [removeAllListeners('error')] took it away, and its [onLine] is
    registered on the receive buffer, each a single time. *)
Definition armed (k s : nat) (st : channel) : Prop :=
  (cmd_regs k st = [Reg s (OnCloseCmd k) true; Reg s (OnErrorCmd k) true] \/
   cmd_regs k st = [Reg s (OnCloseCmd k) true]) /\
  cmd_lines k st = [k] /\
  List.filter (Nat.eqb k) (lb_listeners (_sendBuffer st)) = [] /\
  Forall (fun j => job_cmd j <> k) (microtasks st).

(** The state in which the part of a turn that can throw ends. *)
Definition after {A : Type} (m : M A) (st : channel) : channel := snd (m st).

(** The close event of socket [s]. *)
Definition is_close_of (s : nat) (i : input) : bool :=
  match i with
  | SockEmit s' (SClose _) => Nat.eqb s' s
  | _ => false
  end.

(** A state the constructor and the methods can produce refers only to
    sockets, commands and promises that exist. *)
Definition well_formed (st : channel) : Prop :=
  (forall s, _socket st = Some s -> s < length (sockets st)) /\
  Forall (fun r => r_sock r < length (sockets st)) (regs st) /\
  Forall (fun c => c_promise c < length (promises st)) (commands st) /\
  Forall (fun r => forall p, of_promise p (r_fn r) = true -> p < length (promises st))
         (regs st).

(** ** Invariants of methods

    [hoare I m Q]: run from a state where [I] holds, [m] ends, by returning or
    by throwing, in a state where [I] holds, and a value it returns satisfies
    [Q]. *)
Definition hoare (I : channel -> Prop) {A : Type} (m : M A) (Q : A -> Prop) : Prop :=
  forall st, I st -> I (snd (m st)) /\ (forall a, fst (m st) = inr a -> Q a).

Definition anything {A : Type} (a : A) : Prop := True.

(** Given the commands whose closures may run ([okk]) and the promises whose
    functions may be called ([okp]): the functions that may be registered and
    invoked, the effects that may be logged, the jobs that may run. *)
Definition okl (okk okp : nat -> Prop) (l : listener) : Prop :=
  match l with
  | OnCloseCmd k | OnErrorCmd k => okk k
  | UpgradeCb q | ResolveFn q | RejectFn q => okp q
  | _ => True
  end.

Definition oke (okp : nat -> Prop) (e : effect) : Prop :=
  match e with
  | CallResolve q _ | CallReject q _ => okp q
  | _ => True
  end.

(** The inputs that fire no registration in [blocked], deliver no data
    unless [recv_ok] and are no call of [connect] unless [may_set]. *)
Definition input_ok (blocked : reg -> Prop) (recv_ok may_set : Prop) (i : input) : Prop :=
  match i with
  | SockEmit s ev =>
      (forall r, blocked r -> on_event s (name_of ev) r = false) /\
      (name_of ev = EvData -> recv_ok)
  | CallConnect _ => may_set
  | _ => True
  end.

(** Isolation of a promise. [D] are the commands that captured the functions
    of promise [p]. Of the registrations that lead to those functions only
    those of [A] are left, in that order, and only the [onLine] closures [L];
    no reaction of a command of [D] is queued. While that holds and nothing
    of [A] and [L] fires, the calls [c] made so far and the promise's state
    [v] stay what they are. *)
Definition unsafe_fn (D : nat -> bool) (p : nat) (l : listener) : bool :=
  match l with
  | OnCloseCmd k | OnErrorCmd k => D k
  | UpgradeCb q | ResolveFn q | RejectFn q => Nat.eqb q p
  | _ => false
  end.

Record Iso (D : nat -> bool) (p : nat) (A : list reg) (L : list nat)
    (c : list effect) (v : option pstate) (st : channel) : Prop := MkIso {
  iso_range : p < length (promises st);
  iso_owner : forall k cmd, commands st !! k = Some cmd -> c_promise cmd = p -> D k = true;
  iso_fresh : forall k, D k = true -> k < length (commands st);
  iso_regs : sublist (List.filter (fun r => unsafe_fn D p (r_fn r)) (regs st)) A;
  iso_lines : sublist (List.filter D (lb_listeners (_receiveBuffer st))) L;
  iso_send : List.filter D (lb_listeners (_sendBuffer st)) = [];
  iso_jobs : Forall (fun j => D (job_cmd j) = false) (microtasks st);
  iso_calls : calls p (trace st) = c;
  iso_state : promises st !! p = v
}.

(** The values the specification calls empty or undefined. *)
Definition is_empty_value (v : jsval) : Prop :=
  v = JUndefined \/ v = JNull \/ v = JStr EmptyString.

(** An invariant [I] is carried by the updates of the single fields, given
    the commands ([okk]) and promises ([okp]) that may be involved, the
    registrations that are there but must not fire ([blocked]), whether lines
    may be delivered ([recv_ok]) and whether [_socket] may be set to a socket
    ([may_set]). *)
Record carried (I : channel -> Prop) (okk okp : nat -> Prop) (blocked : reg -> Prop)
    (recv_ok may_set : Prop) : Prop := MkCarried {
  c_trace : forall e st, oke okp e -> I st -> I (set_trace (trace st ++ [e]) st);
  c_settle : forall q x st,
    okp q -> promises st !! q = Some Pending -> I st ->
    I (set_promises (<[q := x]> (promises st)) st);
  c_new_promise : forall st,
    I st -> I (set_promises (promises st ++ [Pending]) st) /\ okp (length (promises st));
  c_new_command : forall q h st,
    okp q -> I st ->
    I (set_commands (commands st ++ [Command q h]) st) /\ okk (length (commands st));
  c_owner : forall st k c,
    I st -> okk k -> commands st !! k = Some c -> okp (c_promise c);
  c_reg_add : forall r st,
    okl okk okp (r_fn r) -> I st -> I (set_regs (regs st ++ [r]) st);
  c_reg_sub : forall rs st, sublist rs (regs st) -> I st -> I (set_regs rs st);
  c_regs : forall st r, I st -> In r (regs st) -> blocked r \/ okl okk okp (r_fn r);
  c_sockets : forall x st, I st -> I (set_sockets x st);
  c_socket : forall x st, (x <> None -> may_set) -> I st -> I (set_socket x st);
  c_live : forall st s, I st -> _socket st = Some s -> may_set;
  c_isSecure : forall x st, I st -> I (set_isSecure x st);
  c_recv_add : forall k st,
    okk k -> I st ->
    I (set_receiveBuffer
         (lb_with_listeners (lb_listeners (_receiveBuffer st) ++ [k]) (_receiveBuffer st))
         st);
  c_recv_sub : forall ks st,
    sublist ks (lb_listeners (_receiveBuffer st)) -> I st ->
    I (set_receiveBuffer (lb_with_listeners ks (_receiveBuffer st)) st);
  c_recv_tail : forall t st,
    I st -> I (set_receiveBuffer (lb_with_tail t (_receiveBuffer st)) st);
  c_send_tail : forall t st,
    I st -> I (set_sendBuffer (lb_with_tail t (_sendBuffer st)) st);
  c_recv : recv_ok -> forall st k,
    I st -> In k (lb_listeners (_receiveBuffer st)) -> okk k;
  c_send : forall st k, I st -> In k (lb_listeners (_sendBuffer st)) -> okk k;
  c_enqueue : forall j st,
    okk (job_cmd j) -> I st -> I (set_microtasks (microtasks st ++ [j]) st);
  c_dequeue : forall j q st,
    microtasks st = j :: q -> I st -> I (set_microtasks q st) /\ okk (job_cmd j)
}.

(** A call of [connect]. *)
Definition is_connect (i : input) : bool :=
  match i with
  | CallConnect _ => true
  | _ => false
  end.

(** ** A sample session

    A channel with the default configuration connects, the server greets it,
    and a command is written. Socket 0 is the transport; command 0 awaits the
    greeting and command 1 the reply to EHLO. *)
Definition sample_new : channel := SMTPChannel (Options None None None None) true.

Definition sample_connecting : channel := turn (CallConnect None) sample_new.

Definition sample_wired : channel := turn (SockEmit 0 SConnect) sample_connecting.

Definition sample_connected : channel :=
  turn (SockEmit 0 (SData ("220 ready" ++ CRLF)%string)) sample_wired.

Definition sample_writing : channel :=
  turn (CallWrite (PData ("EHLO client" ++ CRLF)%string) None) sample_connected.

Definition sample_closing : channel := turn CallClose sample_connected.

(** [m] never throws. *)
Definition returns {A : Type} (m : M A) : Prop :=
  forall st, exists a, fst (m st) = inr a.

(** The state of a promise after a call of one of its functions that would
    settle it with [v]. *)
Definition settled_to (v : pstate) (old : option pstate) : option pstate :=
  match old with
  | Some Pending => Some v
  | o => o
  end.

(** The error of [onClose]. *)
Definition closed_unexpectedly : exn := Error "Socket has closed unexpectedly".

(** What the handler of a command does on a line: [None] when there is no
    handler or it returns, [Some e] when it throws [e]. *)
Definition handler_result (h : option handler) (line : string) : option exn :=
  match h with
  | Some f => f line (ReplyArgs (isLastReply line) (parseReplyCode line))
  | None => None
  end.

(** The call that settles a command on its terminal line. *)
Definition terminal_call (p : nat) (h : option handler) (line : string) : effect :=
  match handler_result h line with
  | None => CallResolve p (parseReplyCode line)
  | Some e => CallReject p e
  end.

(** A handler that throws on every line that is not terminal, and the sample
    session with it: the command is written, then the server's two-line reply
    arrives in two chunks, or in one. *)
Definition failing_handler : handler :=
  fun line a => if truthy (isLast a) then None else Some (Error "handler failed").

Definition sample_handled : channel :=
  turn (CallWrite (PData ("EHLO client" ++ CRLF)%string) (Some failing_handler))
       sample_connected.

Definition sample_first_line : channel :=
  turn (SockEmit 0 (SData ("250-first" ++ CRLF)%string)) sample_handled.

Definition sample_second_line : channel :=
  turn (SockEmit 0 (SData ("250 last" ++ CRLF)%string)) sample_first_line.

Definition sample_both_lines : channel :=
  turn (SockEmit 0 (SData ("250-first" ++ CRLF ++ "250 last" ++ CRLF)%string))
       sample_handled.

(** ** The reply-line helpers of the earlier revision

    Before they became public and got their guard for the empty line, the
    helpers were [_parseReplyCode], [_isLastReply] and [_isSuccessReplyCode];
    they take a string and return a string or a boolean. *)
Module Legacy.

Definition _parseReplyCode (line : string) : string := substr line 0 3.

Definition _isLastReply (line : string) : bool := String.eqb (charAt line 3) " ".

Definition _isSuccessReplyCode (code : string) : bool := String.eqb (charAt code 0) "2".

End Legacy.

(** A channel on which [connect] has not been called: it has no transport,
    created no socket, registered nothing and armed nothing, and none of the
    promises it handed out is pending. *)
Definition idle (st : channel) : Prop :=
  _socket st = None /\ sockets st = [] /\ regs st = [] /\ commands st = [] /\
  lb_listeners (_receiveBuffer st) = [] /\ lb_listeners (_sendBuffer st) = [] /\
  microtasks st = [] /\ _isSecure st = false /\
  Forall (fun x => x <> Pending) (promises st).

(** What [onLine] passes to the handler with a line. *)
Definition reply_args_of (line : string) : reply_args :=
  ReplyArgs (isLastReply line) (parseReplyCode line).

(** The calls of the handler of command [k] on a sequence of lines. *)
Definition handler_calls (k : nat) (h : option handler) (lines : list string) : list effect :=
  match h with
  | Some _ => map (fun l => CallHandler k l (reply_args_of l)) lines
  | None => []
  end.

(** The registrations on socket [s], in the order they were made. *)
Definition socket_regs (s : nat) (st : channel) : list reg :=
  List.filter (fun r => Nat.eqb (r_sock r) s) (regs st).

(** The five listeners that both connect callbacks register. *)
Definition wired_regs (s : nat) : list reg :=
  [Reg s BoundOnClose false; Reg s BoundOnReceive false; Reg s BoundOnEnd false;
   Reg s BoundOnError false; Reg s BoundOnTimeout false].

(** The registrations that the five [removeAllListeners] calls of
    [_negotiateTLSAsPromised] on socket [s0] leave. *)
Definition stripped (s0 : nat) (rs : list reg) : list reg :=
  List.filter (fun r => negb (on_event s0 EvTimeout r))
    (List.filter (fun r => negb (on_event s0 EvError r))
       (List.filter (fun r => negb (on_event s0 EvEnd r))
          (List.filter (fun r => negb (on_event s0 EvData r))
             (List.filter (fun r => negb (on_event s0 EvClose r)) rs)))).

(** The closures that are registered belong to commands that exist. *)
Definition commands_known (st : channel) : Prop :=
  Forall (fun r => forall k, of_cmd k (r_fn r) = true -> k < length (commands st)) (regs st) /\
  Forall (fun k => k < length (commands st)) (lb_listeners (_receiveBuffer st)) /\
  lb_listeners (_sendBuffer st) = [].

(** The connect ([secureConnect]) event of a socket, the one input at
    which a connect callback can run. *)
Definition is_connect_event (i : input) : bool :=
  match i with
  | SockEmit _ SConnect => true
  | _ => false
  end.

(** * Properties *)

(** ** The reply-line helpers *)

Lemma truthy_JStr (s : string) : truthy (JStr s) = negb (String.eqb s EmptyString).
Proof. destruct s; reflexivity. Qed.

Lemma substr_prefix_length (s : string) (n : nat) :
  String.length (substr s 0 n) = Nat.min n (String.length s).
Proof.
  unfold substr. revert s. induction n as [|n IH]; intros [|c s]; simpl; auto.
Qed.

Lemma substr_is_prefix (s : string) (n : nat) :
  exists rest, s = (substr s 0 n ++ rest)%string.
Proof.
  unfold substr. revert s. induction n as [|n IH]; intros [|c s]; simpl.
  - exists EmptyString. reflexivity.
  - exists (String c s). reflexivity.
  - exists EmptyString. reflexivity.
  - destruct (IH s) as [rest Hr]. exists rest.
    change (String c s = String c (String.substring 0 n s ++ rest)%string).
    f_equal. exact Hr.
Qed.

Lemma substr_short (s : string) (n : nat) :
  String.length s <= n -> substr s 0 n = s.
Proof.
  unfold substr. revert s. induction n as [|n IH]; intros [|c s]; simpl; intros H;
    try reflexivity; try lia.
  f_equal. apply IH. lia.
Qed.

Lemma charAt_short (s : string) (i : nat) :
  String.length s <= i -> charAt s i = EmptyString.
Proof.
  unfold charAt. revert i. induction s as [|c s IH]; intros i H; simpl.
  - reflexivity.
  - destruct i as [|i]; simpl in *; [lia|]. apply IH. lia.
Qed.

Lemma charAt_space (s : string) (i : nat) :
  String.eqb (charAt s i) " " = true <-> String.get i s = Some " "%char.
Proof.
  unfold charAt. destruct (String.get i s) as [c|].
  - split; intros H.
    + apply String.eqb_eq in H. inversion H. reflexivity.
    + inversion H. reflexivity.
  - split; intros H; [apply String.eqb_eq in H|]; discriminate.
Qed.

(** C3, as the specification states it, fails on a line of one or two
    characters: ["25"] is shorter than three characters and its code is
    ["25"], not an empty or undefined value. *)
Lemma C3_counterexample :
  String.length "25" < 3 /\
  parseReplyCode "25" = JStr "25" /\
  ~ is_empty_value (parseReplyCode "25").
Proof.
  split; [simpl; lia|]. split; [reflexivity|].
  intros [H|[H|H]]; discriminate H.
Qed.

(** C3 (amended): [parseReplyCode(L)] is [null] for the empty line; for every
    other line it is the prefix of [L] of length [min 3 |L|], that is the
    first three characters of a line of three characters or more and the whole
    line when it has one or two characters. *)
Theorem C3_parseReplyCode_prefix (L : string) :
  (L = EmptyString -> parseReplyCode L = JNull) /\
  (L <> EmptyString ->
     exists c rest,
       parseReplyCode L = JStr c /\ L = (c ++ rest)%string /\
       String.length c = Nat.min 3 (String.length L)) /\
  (L <> EmptyString -> String.length L < 3 -> parseReplyCode L = JStr L).
Proof.
  split; [intros ->; reflexivity|]. split.
  - intros HL. destruct (substr_is_prefix L 3) as [rest Hrest].
    exists (substr L 0 3), rest. repeat split.
    + unfold parseReplyCode. destruct L; [congruence|reflexivity].
    + exact Hrest.
    + apply substr_prefix_length.
  - intros HL Hlen. unfold parseReplyCode. destruct L as [|a L]; [congruence|].
    cbn [truthy]. f_equal. apply substr_short. lia.
Qed.

(** C4, as the specification states it, fails on the empty line: it is
    shorter than four characters and [isLastReply] gives [null], not
    [false]. *)
Lemma C4_counterexample :
  String.length EmptyString < 4 /\
  isLastReply EmptyString = JNull /\
  isLastReply EmptyString <> JBool false.
Proof. split; [simpl; lia|]. split; [reflexivity|discriminate]. Qed.

(** C4 (amended): for a line of four characters or more [isLastReply(L)] is
    the boolean [true] exactly when the character at index 3 is a space; for a
    line of one to three characters it is [false]; for the empty line it is
    [null]. On every line shorter than four characters the result is falsy,
    and the function, being total, raises on no string. *)
Theorem C4_isLastReply_space (L : string) :
  (4 <= String.length L ->
     exists b, isLastReply L = JBool b /\
               (b = true <-> String.get 3 L = Some " "%char)) /\
  (L <> EmptyString -> String.length L < 4 -> isLastReply L = JBool false) /\
  (L = EmptyString -> isLastReply L = JNull) /\
  (String.length L < 4 -> truthy (isLastReply L) = false).
Proof.
  repeat split.
  - intros Hlen. exists (String.eqb (charAt L 3) " "). split.
    + unfold isLastReply. destruct L; [simpl in Hlen; lia|reflexivity].
    + apply charAt_space.
  - intros HL Hlen. unfold isLastReply. destruct L as [|a L]; [congruence|].
    cbn [truthy]. rewrite charAt_short by lia. reflexivity.
  - intros ->. reflexivity.
  - intros Hlen. unfold isLastReply. destruct L as [|a L]; [reflexivity|].
    cbn [truthy]. rewrite charAt_short by lia. reflexivity.
Qed.

(** ** Rules for invariants *)

Lemma hoare_ret {A : Type} (I : channel -> Prop) (a : A) (Q : A -> Prop) :
  Q a -> hoare I (ret a) Q.
Proof. intros HQ st HI. split; [exact HI|]. intros a' [= <-]. exact HQ. Qed.

Lemma hoare_throw {A : Type} (I : channel -> Prop) (e : exn) (Q : A -> Prop) :
  hoare I (throw e) Q.
Proof. intros st HI. split; [exact HI|]. intros a' [=]. Qed.

Lemma hoare_bind {A B : Type} (I : channel -> Prop) (m : M A) (f : A -> M B)
    (Q : A -> Prop) (R : B -> Prop) :
  hoare I m Q -> (forall a, Q a -> hoare I (f a) R) -> hoare I (bind m f) R.
Proof.
  intros Hm Hf st HI. unfold bind. destruct (Hm st HI) as [HI' HQ].
  destruct (m st) as [[e|a] st']; simpl in *.
  - split; [exact HI'|]. intros b [=].
  - apply (Hf a (HQ a eq_refl) st' HI').
Qed.

Lemma hoare_weaken {A : Type} (I : channel -> Prop) (m : M A) (Q Q' : A -> Prop) :
  hoare I m Q -> (forall a, Q a -> Q' a) -> hoare I m Q'.
Proof.
  intros Hm HQ st HI. destruct (Hm st HI) as [HI' H]. split; [exact HI'|].
  intros a Ha. apply HQ, H, Ha.
Qed.

Lemma hoare_gets {A : Type} (I : channel -> Prop) (f : channel -> A) (Q : A -> Prop) :
  (forall st, I st -> Q (f st)) -> hoare I (gets f) Q.
Proof. intros H st HI. split; [exact HI|]. intros a [= <-]. apply H, HI. Qed.

Lemma hoare_gets_any {A : Type} (I : channel -> Prop) (f : channel -> A) :
  hoare I (gets f) anything.
Proof. apply hoare_gets. intros; exact Logic.I. Qed.

Lemma hoare_modify (I : channel -> Prop) (f : channel -> channel) :
  (forall st, I st -> I (f st)) -> hoare I (modify f) anything.
Proof. intros H st HI. split; [apply H, HI|]. intros; exact Logic.I. Qed.

Lemma hoare_for_each {A : Type} (I : channel -> Prop) (f : A -> M unit) (l : list A) :
  (forall x, In x l -> hoare I (f x) anything) -> hoare I (for_each f l) anything.
Proof.
  induction l as [|x l IH]; intros H; simpl.
  - apply hoare_ret. exact Logic.I.
  - eapply hoare_bind.
    + apply H. left. reflexivity.
    + intros _ _. apply IH. intros y Hy. apply H. right. exact Hy.
Qed.

(** ** Lists of listeners *)

Lemma remove_last_sublist {A : Type} (P : A -> bool) (l : list A) :
  sublist (remove_last P l) l.
Proof.
  induction l as [|x l IH]; simpl.
  - constructor.
  - destruct (P x && negb (existsb P l)).
    + apply sublist_cons. reflexivity.
    + apply sublist_skip. exact IH.
Qed.

Lemma filter_sublist {A : Type} (P : A -> bool) (l : list A) :
  sublist (List.filter P l) l.
Proof.
  induction l as [|x l IH]; simpl.
  - constructor.
  - destruct (P x); [apply sublist_skip|apply sublist_cons]; exact IH.
Qed.

Lemma sublist_In {A : Type} (l1 l2 : list A) (x : A) :
  sublist l1 l2 -> In x l1 -> In x l2.
Proof.
  intros Hs Hx. apply list_elem_of_In. eapply elem_of_sublist; [|exact Hs].
  apply list_elem_of_In. exact Hx.
Qed.

(** ** The microtask queue *)

Lemma drain_step (fuel : nat) (st : channel) :
  drain (S fuel) st =
  match microtasks st with
  | [] => (inr tt, st)
  | j :: q => (run_job j ;; drain fuel) (set_microtasks q st)
  end.
Proof. simpl. unfold bind at 1, gets. destruct (microtasks st); reflexivity. Qed.

(** ** What an invariant of the primitive updates is carried through

    The section takes an invariant that the updates of the single fields
    carry and takes it through every method and through a turn. *)

Section Carried.

Variable I : channel -> Prop.
Variables okk okp : nat -> Prop.
Variable blocked : reg -> Prop.
Variables recv_ok may_set : Prop.

Hypothesis HC : carried I okk okp blocked recv_ok may_set.

Let I_trace := c_trace _ _ _ _ _ _ HC.
Let I_settle := c_settle _ _ _ _ _ _ HC.
Let I_new_promise := c_new_promise _ _ _ _ _ _ HC.
Let I_new_command := c_new_command _ _ _ _ _ _ HC.
Let I_owner := c_owner _ _ _ _ _ _ HC.
Let I_reg_add := c_reg_add _ _ _ _ _ _ HC.
Let I_reg_sub := c_reg_sub _ _ _ _ _ _ HC.
Let I_regs := c_regs _ _ _ _ _ _ HC.
Let I_sockets := c_sockets _ _ _ _ _ _ HC.
Let I_socket := c_socket _ _ _ _ _ _ HC.
Let I_live := c_live _ _ _ _ _ _ HC.
Let I_isSecure := c_isSecure _ _ _ _ _ _ HC.
Let I_recv_add := c_recv_add _ _ _ _ _ _ HC.
Let I_recv_sub := c_recv_sub _ _ _ _ _ _ HC.
Let I_recv_tail := c_recv_tail _ _ _ _ _ _ HC.
Let I_send_tail := c_send_tail _ _ _ _ _ _ HC.
Let I_recv := c_recv _ _ _ _ _ _ HC.
Let I_send := c_send _ _ _ _ _ _ HC.
Let I_enqueue := c_enqueue _ _ _ _ _ _ HC.
Let I_dequeue := c_dequeue _ _ _ _ _ _ HC.

Local Abbreviation inv m := (hoare I m anything).

Ltac hstep :=
  cbv zeta;
  lazymatch goal with
  | |- hoare _ (bind _ _) _ => eapply hoare_bind; [ | intros ? ? ]
  | |- hoare _ (ret _) _ => apply hoare_ret; exact Logic.I
  | |- hoare _ (throw _) _ => apply hoare_throw
  end.

Lemma inv_log (e : effect) : oke okp e -> inv (log e).
Proof. intros He. apply hoare_modify. intros st. apply I_trace, He. Qed.

Lemma inv_settle (q : nat) (x : pstate) : okp q -> inv (settle q x).
Proof.
  intros Hq. apply hoare_modify. intros st HI.
  destruct (promises st !! q) as [[| |]|] eqn:E; auto.
Qed.

Lemma inv_resolve (q : nat) (x : jsval) : okp q -> inv (resolve q x).
Proof. intros Hq. unfold resolve. hstep; [apply inv_log, Hq|apply inv_settle, Hq]. Qed.

Lemma inv_reject (q : nat) (e : exn) : okp q -> inv (reject q e).
Proof. intros Hq. unfold reject. hstep; [apply inv_log, Hq|apply inv_settle, Hq]. Qed.

Lemma inv_new_promise (executor : nat -> M unit) :
  (forall q, okp q -> inv (executor q)) -> hoare I (new_promise executor) okp.
Proof.
  intros Hex st HI. unfold new_promise.
  destruct (I_new_promise st HI) as [HI1 Hq].
  destruct (Hex _ Hq _ HI1) as [HI2 _].
  destruct (executor _ _) as [[e|u] st2]; simpl in *.
  - split; [apply (inv_reject _ e Hq st2 HI2)|]. intros a [= <-]. exact Hq.
  - split; [exact HI2|]. intros a [= <-]. exact Hq.
Qed.

Lemma inv_the_socket : hoare I the_socket (fun _ => may_set).
Proof.
  intros st HI. unfold the_socket. destruct (_socket st) as [s|] eqn:E; simpl.
  - split; [exact HI|]. intros a _. eapply I_live; eauto.
  - split; [exact HI|]. intros a [=].
Qed.

Lemma inv_sock_on (s : nat) (l : listener) : okl okk okp l -> inv (sock_on s l).
Proof. intros Hl. apply hoare_modify. intros st. apply I_reg_add. exact Hl. Qed.

Lemma inv_sock_once (s : nat) (l : listener) : okl okk okp l -> inv (sock_once s l).
Proof. intros Hl. apply hoare_modify. intros st. apply I_reg_add. exact Hl. Qed.

Lemma inv_sock_removeListener (s : nat) (l : listener) : inv (sock_removeListener s l).
Proof.
  apply hoare_modify. intros st. apply I_reg_sub, remove_last_sublist.
Qed.

Lemma inv_sock_removeAllListeners (s : nat) (n : evname) :
  inv (sock_removeAllListeners s n).
Proof. apply hoare_modify. intros st. apply I_reg_sub, filter_sublist. Qed.

Lemma inv_sock_destroy (s : nat) : inv (sock_destroy s).
Proof.
  unfold sock_destroy. hstep.
  - apply hoare_modify. intros st. apply I_sockets.
  - apply inv_log. exact Logic.I.
Qed.

Lemma inv_lib_connect (l : lib) (w : option nat) (cb : listener) :
  okl okk okp cb -> inv (lib_connect l w cb).
Proof.
  intros Hcb. unfold lib_connect. hstep; [apply hoare_gets_any|].
  hstep; [apply hoare_modify; intros st; apply I_sockets|].
  hstep; [apply inv_log; exact Logic.I|].
  hstep; [apply inv_sock_once, Hcb|]. hstep.
Qed.

Lemma inv_line_on (k : nat) : okk k -> inv (line_on k).
Proof. intros Hk. apply hoare_modify. intros st. apply I_recv_add, Hk. Qed.

Lemma inv_line_removeListener (k : nat) : inv (line_removeListener k).
Proof. apply hoare_modify. intros st. apply I_recv_sub, remove_last_sublist. Qed.

Lemma inv_enqueue (j : job) : okk (job_cmd j) -> inv (enqueue j).
Proof. intros Hj. apply hoare_modify. intros st. apply I_enqueue, Hj. Qed.

Lemma inv_chan_emit (e : chan_event) : inv (chan_emit e).
Proof.
  destruct e; try (apply inv_log; exact Logic.I).
  unfold chan_emit. hstep; [apply hoare_gets_any|].
  destruct a; [apply inv_log; exact Logic.I|hstep].
Qed.

Lemma inv__createSocket (sec : jsval) (w : option nat) (cb : listener) :
  okl okk okp cb -> inv (_createSocket sec w cb).
Proof.
  intros Hcb. unfold _createSocket. hstep; [apply hoare_gets_any|].
  apply inv_lib_connect, Hcb.
Qed.

Lemma inv_cmd_resolve (k : nat) (x : jsval) : okk k -> inv (cmd_resolve k x).
Proof.
  intros Hk. unfold cmd_resolve.
  eapply hoare_bind with (Q := fun c => forall c', c = Some c' -> okp (c_promise c')).
  - apply hoare_gets. intros st HI c' Hc. eapply I_owner; eauto.
  - intros [c|] Hc; [apply inv_resolve, Hc; reflexivity|hstep].
Qed.

Lemma inv_cmd_reject (k : nat) (e : exn) : okk k -> inv (cmd_reject k e).
Proof.
  intros Hk. unfold cmd_reject.
  eapply hoare_bind with (Q := fun c => forall c', c = Some c' -> okp (c_promise c')).
  - apply hoare_gets. intros st HI c' Hc. eapply I_owner; eauto.
  - intros [c|] Hc; [apply inv_reject, Hc; reflexivity|hstep].
Qed.

Lemma inv_onClose (k : nat) : okk k -> inv (onClose k).
Proof.
  intros Hk. unfold onClose. hstep; [apply hoare_gets_any|].
  hstep; [destruct a; [apply inv_sock_removeListener|hstep]|].
  hstep; [apply inv_line_removeListener|]. apply inv_cmd_reject, Hk.
Qed.

Lemma inv_onError (k : nat) (e : exn) : okk k -> inv (onError k e).
Proof.
  intros Hk. unfold onError. hstep; [apply inv_the_socket|].
  hstep; [apply inv_sock_removeListener|].
  hstep; [apply inv_line_removeListener|]. apply inv_cmd_reject, Hk.
Qed.

Lemma inv_onLine (k : nat) (line : string) : okk k -> inv (onLine k line).
Proof.
  intros Hk. unfold onLine. hstep; [apply inv_enqueue, Hk|].
  destruct (truthy (isLastReply line)); [|hstep].
  hstep; [apply inv_the_socket|]. hstep; [apply inv_sock_removeListener|].
  hstep; [apply inv_the_socket|]. hstep; [apply inv_sock_removeListener|].
  apply inv_line_removeListener.
Qed.

Lemma inv__resolveCommand (q : nat) (h : option handler) :
  okp q -> inv (_resolveCommand q h).
Proof.
  intros Hq st HI. unfold _resolveCommand, bind, gets, modify. simpl.
  destruct (I_new_command q h st Hq HI) as [HI1 Hk].
  set (k := length (commands st)) in *.
  set (st1 := set_commands _ st) in *.
  assert (Hrest : inv (s <- the_socket ;; sock_once s (OnCloseCmd k) ;;
                       s <- the_socket ;; sock_once s (OnErrorCmd k) ;; line_on k)).
  { hstep; [apply inv_the_socket|]. hstep; [apply inv_sock_once, Hk|].
    hstep; [apply inv_the_socket|]. hstep; [apply inv_sock_once, Hk|].
    apply inv_line_on, Hk. }
  apply (Hrest st1 HI1).
Qed.

Lemma inv_run_job (j : job) : okk (job_cmd j) -> inv (run_job j).
Proof.
  intros Hj. destruct j as [k line args|k [e|] args|k [e|]]; simpl in *.
  - hstep; [apply hoare_gets_any|].
    destruct a as [[q [h|]]|]; [|apply inv_enqueue, Hj|apply inv_enqueue, Hj].
    hstep; [apply inv_log; exact Logic.I|]. apply inv_enqueue, Hj.
  - apply inv_enqueue, Hj.
  - hstep; [|apply inv_enqueue, Hj].
    destruct (truthy (isLast args)); [apply inv_cmd_resolve, Hj|hstep].
  - apply inv_cmd_reject, Hj.
  - hstep.
Qed.

Lemma inv_emit_lines (get : channel -> LineBuffer) (lines : list string) :
  (forall st k, I st -> In k (lb_listeners (get st)) -> okk k) ->
  inv (for_each (fun line =>
                   snapshot <- gets (fun st => lb_listeners (get st)) ;;
                   for_each (fun k => onLine k line) snapshot) lines).
Proof.
  intros Hget. apply hoare_for_each. intros line _.
  eapply hoare_bind with (Q := fun ks => forall k, In k ks -> okk k).
  - apply hoare_gets. intros st HI k Hk. eapply Hget; eauto.
  - intros ks Hks. apply hoare_for_each. intros k Hk. apply inv_onLine, Hks, Hk.
Qed.

Lemma inv_feed_receive (chunk : string) :
  recv_ok -> inv (feed _receiveBuffer set_receiveBuffer chunk).
Proof.
  intros Hok. unfold feed. hstep; [apply hoare_gets_any|].
  destruct (lb_split a (lb_tail a) chunk) as [lines t].
  hstep; [apply hoare_modify; intros st; apply I_recv_tail|].
  hstep; [apply inv_emit_lines; intros st k; apply I_recv, Hok|]. hstep.
Qed.

Lemma inv_feed_send (chunk : string) : inv (feed _sendBuffer set_sendBuffer chunk).
Proof.
  unfold feed. hstep; [apply hoare_gets_any|].
  destruct (lb_split a (lb_tail a) chunk) as [lines t].
  hstep; [apply hoare_modify; intros st; apply I_send_tail|].
  hstep; [apply inv_emit_lines; intros st k; apply I_send|]. hstep.
Qed.

Lemma inv__onReceive (chunk : string) : recv_ok -> inv (_onReceive chunk).
Proof.
  intros Hok. unfold _onReceive. hstep; [apply inv_chan_emit|].
  hstep; [apply inv_feed_receive, Hok|].
  apply hoare_for_each. intros line _. apply inv_chan_emit.
Qed.

Lemma inv__onSend (chunk : string) : inv (_onSend chunk).
Proof.
  unfold _onSend. hstep; [apply inv_chan_emit|].
  hstep; [apply inv_feed_send|].
  apply hoare_for_each. intros line _. apply inv_chan_emit.
Qed.

Lemma inv__writeAsPromised (data : payload) (h : option handler) :
  hoare I (_writeAsPromised data h) okp.
Proof.
  apply inv_new_promise. intros q Hq. hstep; [apply hoare_gets_any|].
  destruct a as [s|]; [|apply inv_reject, Hq].
  hstep; [apply inv__resolveCommand, Hq|].
  hstep; [apply inv_the_socket|]. apply inv_log. exact Logic.I.
Qed.

Lemma inv__onTimeout : inv _onTimeout.
Proof.
  unfold _onTimeout, write. hstep; [apply inv_chan_emit|].
  hstep; [apply inv__writeAsPromised|]. hstep.
Qed.

Lemma inv_wire_socket : inv wire_socket.
Proof.
  unfold wire_socket.
  hstep; [apply inv_the_socket|]. hstep; [apply inv_sock_removeAllListeners|].
  hstep; [apply inv_the_socket|]. hstep; [apply inv_sock_on; exact Logic.I|].
  hstep; [apply inv_the_socket|]. hstep; [apply inv_sock_on; exact Logic.I|].
  hstep; [apply inv_the_socket|]. hstep; [apply inv_sock_on; exact Logic.I|].
  hstep; [apply inv_the_socket|]. hstep; [apply inv_sock_on; exact Logic.I|].
  hstep; [apply inv_the_socket|]. hstep; [apply inv_sock_on; exact Logic.I|].
  hstep; [apply inv_the_socket|]. hstep; [apply inv_log; exact Logic.I|].
  hstep; [apply inv_the_socket|]. hstep; [apply hoare_gets_any|].
  apply inv_log. exact Logic.I.
Qed.

Lemma inv_connect_callback (b : bool) : inv (connect_callback b).
Proof.
  unfold connect_callback, _onConnect.
  hstep; [apply hoare_modify; intros st; apply I_isSecure|].
  hstep; [apply inv_wire_socket|]. apply inv_chan_emit.
Qed.

Lemma inv_upgrade_callback (q : nat) : okp q -> inv (upgrade_callback q).
Proof.
  intros Hq. unfold upgrade_callback.
  hstep; [apply hoare_modify; intros st; apply I_isSecure|].
  hstep; [apply inv_wire_socket|]. apply inv_resolve, Hq.
Qed.

Lemma inv_invoke (l : listener) (ev : sevent) :
  okl okk okp l -> (l = BoundOnReceive -> recv_ok) -> inv (invoke l ev).
Proof.
  intros Hl Hrecv. destruct l, ev; simpl in *; try (hstep; fail).
  - apply inv_onClose, Hl.
  - apply inv_onError, Hl.
  - unfold _onClose. hstep; [|apply inv_chan_emit].
    apply hoare_modify. intros st. apply I_socket. intros H. contradiction.
  - apply inv__onReceive, Hrecv. reflexivity.
  - apply inv_chan_emit.
  - apply inv_chan_emit.
  - apply inv__onTimeout.
  - apply inv_connect_callback.
  - apply inv_upgrade_callback, Hl.
  - apply inv_resolve, Hl.
  - apply inv_reject, Hl.
Qed.

Lemma inv_fire (ev : sevent) (r : reg) :
  okl okk okp (r_fn r) -> (r_fn r = BoundOnReceive -> recv_ok) -> inv (fire ev r).
Proof.
  intros Hl Hrecv. unfold fire.
  hstep; [destruct (r_once r); [apply inv_sock_removeListener|hstep]|].
  apply inv_invoke; assumption.
Qed.

Lemma inv_sock_emit (s : nat) (ev : sevent) :
  input_ok blocked recv_ok may_set (SockEmit s ev) -> inv (sock_emit s ev).
Proof.
  intros [Hblocked Hrecv]. unfold sock_emit.
  eapply hoare_bind with
    (Q := fun rs => forall r, In r rs ->
            okl okk okp (r_fn r) /\ event_of (r_fn r) = name_of ev).
  - apply hoare_gets. intros st HI r Hr. apply filter_In in Hr as [Hr Hon].
    split.
    + destruct (I_regs st r HI Hr) as [Hb|Hok]; [|exact Hok].
      rewrite (Hblocked r Hb) in Hon. discriminate.
    + unfold on_event in Hon. apply andb_true_iff in Hon as [_ Hon].
      apply bool_decide_eq_true in Hon. exact Hon.
  - intros rs Hrs.
    assert (Hall : inv (for_each (fire ev) rs)).
    { apply hoare_for_each. intros r Hr. destruct (Hrs r Hr) as [Hok Hev].
      apply inv_fire; [exact Hok|]. intros Hfn. apply Hrecv.
      rewrite <- Hev, Hfn. reflexivity. }
    destruct rs as [|r rs]; [|exact Hall].
    destruct ev; try exact Hall. hstep.
Qed.

Lemma inv__connectAsPromised (h : option handler) :
  may_set -> hoare I (_connectAsPromised h) okp.
Proof.
  intros Hset. apply inv_new_promise. intros q Hq. hstep; [apply hoare_gets_any|].
  destruct a as [s|]; [apply inv_resolve, Hq|].
  hstep; [apply hoare_gets_any|].
  hstep; [apply inv__createSocket; exact Logic.I|].
  hstep; [apply hoare_modify; intros st; apply I_socket; intros _; exact Hset|].
  apply inv__resolveCommand, Hq.
Qed.

Lemma inv__closeAsPromised : hoare I _closeAsPromised okp.
Proof.
  apply inv_new_promise. intros q Hq. hstep; [apply hoare_gets_any|].
  destruct a as [s|]; [|apply inv_resolve, Hq].
  hstep; [apply inv_the_socket|]. hstep; [apply inv_sock_once, Hq|].
  hstep; [apply inv_the_socket|]. hstep; [apply inv_sock_destroy|].
  apply hoare_modify. intros st. apply I_socket. intros Hne. contradiction.
Qed.

Lemma inv__negotiateTLSAsPromised : hoare I _negotiateTLSAsPromised okp.
Proof.
  apply inv_new_promise. intros q Hq.
  eapply hoare_bind; [apply inv_the_socket|]. intros s0 Hset.
  hstep; [apply inv_sock_removeAllListeners|].
  hstep; [apply inv_the_socket|]. hstep; [apply inv_sock_removeAllListeners|].
  hstep; [apply inv_the_socket|]. hstep; [apply inv_sock_removeAllListeners|].
  hstep; [apply inv_the_socket|]. hstep; [apply inv_sock_removeAllListeners|].
  hstep; [apply inv_the_socket|]. hstep; [apply inv_sock_removeAllListeners|].
  hstep; [apply hoare_gets_any|].
  hstep; [apply inv__createSocket, Hq|].
  hstep; [apply hoare_modify; intros st; apply I_socket; intros _; exact Hset|].
  hstep; [apply inv_the_socket|]. apply inv_sock_on, Hq.
Qed.

Lemma inv_drain (fuel : nat) : inv (drain fuel).
Proof.
  induction fuel as [|fuel IH]; [simpl; hstep|].
  intros st HI. rewrite drain_step.
  destruct (microtasks st) as [|j q] eqn:Hq.
  - split; [exact HI|]. intros; exact Logic.I.
  - destruct (I_dequeue j q st Hq HI) as [HI1 Hj].
    assert (Hrest : inv (run_job j ;; drain fuel)).
    { hstep; [apply inv_run_job, Hj|apply IH]. }
    exact (Hrest _ HI1).
Qed.

Lemma inv_run_microtasks : inv run_microtasks.
Proof.
  unfold run_microtasks. hstep; [apply hoare_gets_any|]. apply inv_drain.
Qed.

Lemma inv_perform (i : input) : input_ok blocked recv_ok may_set i -> inv (perform i).
Proof.
  intros Hi. destruct i; simpl.
  - apply inv_sock_emit, Hi.
  - unfold connect. hstep; [apply inv__connectAsPromised, Hi|hstep].
  - unfold close. hstep; [apply inv__closeAsPromised|hstep].
  - unfold write. hstep; [apply inv__writeAsPromised|hstep].
  - unfold negotiateTLS. hstep; [apply inv__negotiateTLSAsPromised|hstep].
  - apply inv__onSend.
Qed.

(** The invariant holds after a turn that fires nothing it excludes. *)
Lemma inv_turn (i : input) (st : channel) :
  input_ok blocked recv_ok may_set i -> I st -> I (turn i st).
Proof.
  intros Hi HI. unfold turn.
  destruct (inv_perform i Hi st HI) as [HI1 _].
  destruct (perform i st) as [[e|u] st1]; simpl in *.
  - apply inv_run_microtasks. apply (inv_log (Uncaught e) Logic.I st1 HI1).
  - apply inv_run_microtasks, HI1.
Qed.

End Carried.

Lemma okl_trivial (l : listener) : okl (fun _ => True) (fun _ => True) l.
Proof. destruct l; exact Logic.I. Qed.

Lemma input_ok_trivial (i : input) : input_ok (fun _ => False) True True i.
Proof. destruct i; simpl; auto. split; [intros r []|auto]. Qed.

(** A settled promise keeps its state through every turn. *)
Lemma settled_carried (p : nat) (v : pstate) :
  v <> Pending ->
  carried (fun st => promises st !! p = Some v)
          (fun _ => True) (fun _ => True) (fun _ => False) True True.
Proof.
  intros Hv. constructor; try (intros; simpl; first [assumption|exact Logic.I]).
  - intros q x st _ Hq HI. simpl.
    destruct (decide (q = p)) as [->|Hne]; [congruence|].
    rewrite list_lookup_insert_ne by exact Hne. exact HI.
  - intros st HI. split; [|exact Logic.I]. simpl.
    apply lookup_app_l_Some. exact HI.
  - intros q h st _ HI. split; [exact HI|exact Logic.I].
  - intros st r _ _. right. apply okl_trivial.
  - intros j q st _ HI. split; [exact HI|exact Logic.I].
Qed.

Lemma settled_turn (p : nat) (v : pstate) (i : input) (st : channel) :
  v <> Pending -> promises st !! p = Some v -> promises (turn i st) !! p = Some v.
Proof.
  intros Hv H.
  exact (inv_turn _ _ _ _ _ _ (settled_carried p v Hv) i st (input_ok_trivial i) H).
Qed.

(** The closures of a command keep what they captured through every turn. *)
Lemma command_carried (k : nat) (c : command) :
  carried (fun st => commands st !! k = Some c)
          (fun _ => True) (fun _ => True) (fun _ => False) True True.
Proof.
  constructor; try (intros; simpl; first [assumption|exact Logic.I]).
  - intros st HI. split; [exact HI|exact Logic.I].
  - intros q h st _ HI. split; [|exact Logic.I]. simpl.
    apply lookup_app_l_Some. exact HI.
  - intros st r _ _. right. apply okl_trivial.
  - intros j q st _ HI. split; [exact HI|exact Logic.I].
Qed.

Lemma command_turn (k : nat) (c : command) (i : input) (st : channel) :
  commands st !! k = Some c -> commands (turn i st) !! k = Some c.
Proof.
  intros H.
  exact (inv_turn _ _ _ _ _ _ (command_carried k c) i st (input_ok_trivial i) H).
Qed.

(** ** Isolation is carried *)

Lemma sublist_filter_mono {A : Type} (f : A -> bool) (l1 l2 : list A) :
  sublist l1 l2 -> sublist (List.filter f l1) (List.filter f l2).
Proof.
  induction 1 as [|x l1 l2 _ IH|x l1 l2 _ IH]; simpl.
  - constructor.
  - destruct (f x); [apply sublist_skip|]; exact IH.
  - destruct (f x); [apply sublist_cons|]; exact IH.
Qed.

Lemma filter_nil_false {A : Type} (f : A -> bool) (l : list A) (x : A) :
  List.filter f l = [] -> In x l -> f x = false.
Proof.
  intros Hnil Hx. destruct (f x) eqn:E; [|reflexivity].
  assert (H : In x (List.filter f l)) by (apply filter_In; auto).
  rewrite Hnil in H. destruct H.
Qed.

Lemma filter_false_nil {A : Type} (f : A -> bool) (l : list A) :
  (forall x, In x l -> f x = false) -> List.filter f l = [].
Proof.
  induction l as [|x l IH]; intros H; simpl; [reflexivity|].
  rewrite (H x) by (left; reflexivity). apply IH. intros y Hy. apply H. right. exact Hy.
Qed.

Lemma filter_snoc_false {A : Type} (f : A -> bool) (l : list A) (x : A) :
  f x = false -> List.filter f (l ++ [x]) = List.filter f l.
Proof. intros H. rewrite List.filter_app. simpl. rewrite H. apply app_nil_r. Qed.

Lemma okl_safe (D : nat -> bool) (p : nat) (l : listener) :
  okl (fun k => D k = false) (fun q => q <> p) l <-> unsafe_fn D p l = false.
Proof.
  destruct l; simpl; try tauto; rewrite Nat.eqb_neq; tauto.
Qed.

Lemma oke_not_call (p : nat) (e : effect) :
  oke (fun q => q <> p) e -> is_call p e = false.
Proof. destruct e; simpl; auto; apply Nat.eqb_neq. Qed.

Lemma Iso_carried (D : nat -> bool) (p : nat) (A : list reg) (L : list nat)
    (c : list effect) (v : option pstate) :
  carried (Iso D p A L c v) (fun k => D k = false) (fun q => q <> p)
          (fun r => In r A) (L = []) True.
Proof.
  constructor.
  - intros e st He [H1 H2 H3 H4 H5 H6 H7 H8 H9]. constructor; simpl; auto.
    rewrite <- H8. unfold calls. apply filter_snoc_false, oke_not_call, He.
  - intros q x st Hq _ [H1 H2 H3 H4 H5 H6 H7 H8 H9]. constructor; simpl; auto.
    + rewrite length_insert. exact H1.
    + rewrite list_lookup_insert_ne by exact Hq. exact H9.
  - intros st [H1 H2 H3 H4 H5 H6 H7 H8 H9]. split; [|simpl; lia].
    constructor; simpl; auto.
    + rewrite length_app. simpl. lia.
    + rewrite lookup_app_l by exact H1. exact H9.
  - intros q h st Hq [H1 H2 H3 H4 H5 H6 H7 H8 H9]. split.
    + constructor; simpl; auto.
      * intros k cmd Hk Hp. destruct (decide (k < length (commands st))) as [Hlt|Hge].
        -- rewrite lookup_app_l in Hk by exact Hlt. eapply H2; eauto.
        -- rewrite lookup_app_r in Hk by lia.
           destruct (k - length (commands st)) as [|n]; simpl in Hk; [|discriminate].
           injection Hk as <-. simpl in Hp. congruence.
      * intros k Hk. rewrite length_app. specialize (H3 k Hk). lia.
    + destruct (D (length (commands st))) eqn:E; [|reflexivity].
      specialize (H3 _ E). lia.
  - intros st k cmd [H1 H2 H3 H4 H5 H6 H7 H8 H9] Hk Hcmd Hp.
    rewrite (H2 k cmd Hcmd Hp) in Hk. discriminate.
  - intros r st Hr [H1 H2 H3 H4 H5 H6 H7 H8 H9]. constructor; simpl; auto.
    rewrite filter_snoc_false; [exact H4|]. apply okl_safe, Hr.
  - intros rs st Hrs [H1 H2 H3 H4 H5 H6 H7 H8 H9]. constructor; simpl; auto.
    etransitivity; [|exact H4]. apply sublist_filter_mono, Hrs.
  - intros st r [H1 H2 H3 H4 H5 H6 H7 H8 H9] Hr.
    destruct (unsafe_fn D p (r_fn r)) eqn:E.
    + left. eapply sublist_In; [exact H4|]. apply filter_In. auto.
    + right. apply okl_safe, E.
  - intros x st [H1 H2 H3 H4 H5 H6 H7 H8 H9]. constructor; simpl; auto.
  - intros x st _ [H1 H2 H3 H4 H5 H6 H7 H8 H9]. constructor; simpl; auto.
  - intros; exact Logic.I.
  - intros x st [H1 H2 H3 H4 H5 H6 H7 H8 H9]. constructor; simpl; auto.
  - intros k st Hk [H1 H2 H3 H4 H5 H6 H7 H8 H9]. constructor; simpl; auto.
    rewrite filter_snoc_false; [exact H5|exact Hk].
  - intros ks st Hks [H1 H2 H3 H4 H5 H6 H7 H8 H9]. constructor; simpl; auto.
    etransitivity; [|exact H5]. apply sublist_filter_mono, Hks.
  - intros t st [H1 H2 H3 H4 H5 H6 H7 H8 H9]. constructor; simpl; auto.
  - intros t st [H1 H2 H3 H4 H5 H6 H7 H8 H9]. constructor; simpl; auto.
  - intros -> st k [H1 H2 H3 H4 H5 H6 H7 H8 H9] Hk.
    apply sublist_nil_r in H5. exact (filter_nil_false D _ k H5 Hk).
  - intros st k [H1 H2 H3 H4 H5 H6 H7 H8 H9] Hk. exact (filter_nil_false D _ k H6 Hk).
  - intros j st Hj [H1 H2 H3 H4 H5 H6 H7 H8 H9]. constructor; simpl; auto.
    apply Forall_app. split; [exact H7|]. constructor; [exact Hj|constructor].
  - intros j q st Hq [H1 H2 H3 H4 H5 H6 H7 H8 H9]. rewrite Hq in H7.
    apply Forall_cons in H7 as [Hj H7]. split; [|exact Hj].
    constructor; simpl; auto.
Qed.

(** Isolation holds after a turn that fires nothing of [A] and, while [L]
    is not empty, delivers no data. *)
Lemma Iso_turn (D : nat -> bool) (p : nat) (A : list reg) (L : list nat)
    (c : list effect) (v : option pstate) (i : input) (st : channel) :
  input_ok (fun r => In r A) (L = []) True i ->
  Iso D p A L c v st -> Iso D p A L c v (turn i st).
Proof. apply inv_turn with (1 := Iso_carried D p A L c v). Qed.

(** ** No transport *)

Lemma no_transport_carried :
  carried (fun st => _socket st = None)
          (fun _ => True) (fun _ => True) (fun _ => False) True False.
Proof.
  constructor; try (intros; simpl; first [assumption|exact Logic.I]).
  - intros st HI. split; [exact HI|exact Logic.I].
  - intros q h st _ HI. split; [exact HI|exact Logic.I].
  - intros st r _ _. right. apply okl_trivial.
  - intros x st Hx _. simpl. destruct x as [s|]; [|reflexivity].
    exfalso. apply Hx. discriminate.
  - intros st s HI Hs. congruence.
  - intros j q st _ HI. split; [exact HI|exact Logic.I].
Qed.

(** Once [_socket] is [null] it stays [null] until [connect] is called. *)
Lemma no_transport_turn (i : input) (st : channel) :
  is_connect i = false -> _socket st = None -> _socket (turn i st) = None.
Proof.
  intros Hi H. apply (inv_turn _ _ _ _ _ _ no_transport_carried); [|exact H].
  destruct i; simpl in *; auto; try discriminate. split; [intros r []|auto].
Qed.

Lemma no_transport_run (inputs : list input) (st : channel) :
  forallb (fun i => negb (is_connect i)) inputs = true ->
  _socket st = None -> _socket (run inputs st) = None.
Proof.
  revert st. induction inputs as [|i inputs IH]; intros st Hall H; simpl in *.
  - exact H.
  - apply andb_true_iff in Hall as [Hi Hall]. apply IH; [exact Hall|].
    apply no_transport_turn; [|exact H]. destruct (is_connect i); [discriminate|reflexivity].
Qed.

(** ** The microtask queue is drained *)

Ltac exec :=
  unfold cmd_resolve, cmd_reject, resolve, reject, log, settle, enqueue,
    the_socket, sock_on, sock_once, sock_removeListener, sock_removeAllListeners,
    line_on, line_removeListener, bind, gets, modify, ret, throw in *;
  simpl in *.

Lemma settle_next (q : nat) (x : pstate) (st : channel) :
  exists ps, settle q x st = (inr tt, set_promises ps st).
Proof.
  unfold settle, modify.
  destruct (promises st !! q) as [[| |]|]; eauto; exists (promises st);
    destruct st; reflexivity.
Qed.

Lemma run_job_queue (j : job) (st : channel) :
  fst (run_job j st) = inr tt /\
  exists js, microtasks (snd (run_job j st)) = microtasks st ++ js /\
             list_sum (map job_weight js) < job_weight j.
Proof.
  destruct j as [k line args|k [e|] args|k [e|]]; simpl.
  - exec. destruct (commands st !! k) as [[q [h|]]|]; simpl;
      (split; [reflexivity|eexists; split; [reflexivity|simpl; lia]]).
  - exec. split; [reflexivity|eexists; split; [reflexivity|simpl; lia]].
  - exec. destruct (truthy (isLast args)); simpl;
      [|split; [reflexivity|eexists; split; [reflexivity|simpl; lia]]].
    destruct (commands st !! k) as [c|]; simpl;
      [|split; [reflexivity|eexists; split; [reflexivity|simpl; lia]]].
    destruct (promises st !! c_promise c) as [[| |]|]; simpl;
      (split; [reflexivity|eexists; split; [reflexivity|simpl; lia]]).
  - exec. destruct (commands st !! k) as [c|]; simpl;
      [|split; [reflexivity|exists []; split; [symmetry; apply app_nil_r|simpl; lia]]].
    destruct (promises st !! c_promise c) as [[| |]|]; simpl;
      (split; [reflexivity|exists []; split; [symmetry; apply app_nil_r|simpl; lia]]).
  - exec. split; [reflexivity|exists []; split; [symmetry; apply app_nil_r|simpl; lia]].
Qed.

Lemma drain_empties (fuel : nat) (st : channel) :
  list_sum (map job_weight (microtasks st)) <= fuel ->
  fst (drain fuel st) = inr tt /\ microtasks (snd (drain fuel st)) = [].
Proof.
  revert st. induction fuel as [|fuel IH]; intros st Hw.
  - simpl. split; [reflexivity|].
    destruct (microtasks st) as [|j q]; [reflexivity|].
    simpl in Hw. destruct j; simpl in Hw; lia.
  - rewrite drain_step. destruct (microtasks st) as [|j q] eqn:Hq; [auto|].
    simpl in Hw. unfold bind.
    destruct (run_job_queue j (set_microtasks q st)) as [Hr [js [Hjs Hlt]]].
    destruct (run_job j (set_microtasks q st)) as [[e|u] st1]; simpl in *;
      [discriminate|].
    apply IH. rewrite Hjs, map_app, list_sum_app. lia.
Qed.

(** Every turn ends with an empty microtask queue. *)
Lemma turn_queue_empty (i : input) (st : channel) : microtasks (turn i st) = [].
Proof.
  unfold turn, run_microtasks, bind, gets.
  match goal with |- microtasks (snd (drain _ ?s)) = [] => apply (drain_empties _ s) end.
  reflexivity.
Qed.

Lemma run_microtasks_empty (st : channel) :
  microtasks st = [] -> run_microtasks st = (inr tt, st).
Proof. intros H. unfold run_microtasks, bind, gets. rewrite H. reflexivity. Qed.

(** ** What the methods compute *)

Lemma lookup_snoc_length {A : Type} (l : list A) (x : A) :
  (l ++ [x]) !! length l = Some x.
Proof. apply list_lookup_middle. reflexivity. Qed.

Lemma insert_snoc_length {A : Type} (l : list A) (x y : A) :
  <[length l := y]> (l ++ [x]) = l ++ [y].
Proof.
  rewrite insert_app_r_alt by lia. rewrite Nat.sub_diag. reflexivity.
Qed.

Ltac exec_all :=
  unfold connect, _connectAsPromised, close, _closeAsPromised, write,
    _writeAsPromised, _onTimeout, _resolveCommand, new_promise, _createSocket,
    lib_connect, sock_destroy, chan_emit, after in *;
  exec.

Lemma connect_connected (h : option handler) (s : nat) (st : channel) :
  _socket st = Some s ->
  connect h st =
    (inr (length (promises st)),
     set_trace (trace st ++ [CallResolve (length (promises st)) JUndefined])
       (set_promises (promises st ++ [Fulfilled JUndefined]) st)).
Proof.
  intros H. exec_all. rewrite H. simpl.
  rewrite lookup_snoc_length, insert_snoc_length. reflexivity.
Qed.

Lemma close_disconnected (st : channel) :
  _socket st = None ->
  close st =
    (inr (length (promises st)),
     set_trace (trace st ++ [CallResolve (length (promises st)) JUndefined])
       (set_promises (promises st ++ [Fulfilled JUndefined]) st)).
Proof.
  intros H. exec_all. rewrite H. simpl.
  rewrite lookup_snoc_length, insert_snoc_length. reflexivity.
Qed.

Lemma close_connected (s : nat) (st : channel) :
  _socket st = Some s ->
  close st =
    (inr (length (promises st)),
     set_socket None
       (set_trace (trace st ++ [SockDestroy s])
          (set_sockets (alter mark_destroyed s (sockets st))
             (set_regs (regs st ++ [Reg s (ResolveFn (length (promises st))) true])
                (set_promises (promises st ++ [Pending]) st))))).
Proof. intros H. destruct st. exec_all. subst. reflexivity. Qed.

Lemma write_disconnected (data : payload) (h : option handler) (st : channel) :
  _socket st = None ->
  write data h st =
    (inr (length (promises st)),
     set_trace (trace st ++ [CallReject (length (promises st)) (Error "Socket has closed")])
       (set_promises (promises st ++ [Rejected (Error "Socket has closed")]) st)).
Proof.
  intros H. exec_all. rewrite H. simpl.
  rewrite lookup_snoc_length, insert_snoc_length. reflexivity.
Qed.

Lemma write_connected (data : payload) (h : option handler) (s : nat) (st : channel) :
  _socket st = Some s ->
  write data h st =
    (inr (length (promises st)),
     set_trace (trace st ++ [SockPipe s (_convertToStream data)])
       (set_receiveBuffer
          (lb_with_listeners (lb_listeners (_receiveBuffer st) ++ [length (commands st)])
             (_receiveBuffer st))
          (set_regs (regs st ++ [Reg s (OnCloseCmd (length (commands st))) true;
                                 Reg s (OnErrorCmd (length (commands st))) true])
             (set_commands (commands st ++ [Command (length (promises st)) h])
                (set_promises (promises st ++ [Pending]) st))))).
Proof.
  intros H. destruct st. exec_all. subst. simpl. rewrite <- app_assoc.
  reflexivity.
Qed.

Lemma connect_disconnected (h : option handler) (st : channel) :
  _socket st = None ->
  let s := length (sockets st) in
  let k := length (commands st) in
  let p := length (promises st) in
  let b := truthy (secure (_config st)) in
  let l := if b then Tls else Net in
  connect h st =
    (inr p,
     set_receiveBuffer
       (lb_with_listeners (lb_listeners (_receiveBuffer st) ++ [k]) (_receiveBuffer st))
       (set_regs (regs st ++ [Reg s (ConnectCb b) true; Reg s (OnCloseCmd k) true;
                              Reg s (OnErrorCmd k) true])
          (set_commands (commands st ++ [Command p h])
             (set_socket (Some s)
                (set_trace (trace st ++ [SockCreate s l])
                   (set_sockets (sockets st ++ [SockInfo l None false])
                      (set_promises (promises st ++ [Pending]) st))))))).
Proof.
  intros H. destruct st as [cfg ? ? ? ? ? ? ? ? ? ? ?]. exec_all. subst. simpl.
  repeat rewrite <- app_assoc. simpl.
  replace (truthy (secure cfg) || is_true (secure cfg)) with (truthy (secure cfg)).
  - reflexivity.
  - destruct (secure cfg) as [| |[|]| |]; simpl; rewrite ?orb_false_r; reflexivity.
Qed.

Lemma negotiateTLS_connected (s0 : nat) (st : channel) :
  _socket st = Some s0 ->
  let s := length (sockets st) in
  let p := length (promises st) in
  negotiateTLS st =
    (inr p,
     set_regs
       (List.filter (fun r => negb (on_event s0 EvTimeout r))
          (List.filter (fun r => negb (on_event s0 EvError r))
             (List.filter (fun r => negb (on_event s0 EvEnd r))
                (List.filter (fun r => negb (on_event s0 EvData r))
                   (List.filter (fun r => negb (on_event s0 EvClose r)) (regs st)))))
        ++ [Reg s (UpgradeCb p) true; Reg s (RejectFn p) false])
       (set_socket (Some s)
          (set_trace (trace st ++ [SockCreate s Tls])
             (set_sockets (sockets st ++ [SockInfo Tls (Some s0) false])
                (set_promises (promises st ++ [Pending]) st))))).
Proof.
  intros H. unfold negotiateTLS, _negotiateTLSAsPromised. destruct st. exec_all.
  subst. simpl. repeat rewrite <- app_assoc. simpl.
  rewrite orb_true_r. reflexivity.
Qed.

(** [negotiateTLS] without a transport: the executor throws on
    [this._socket.removeAllListeners] and the promise is rejected. *)
Lemma negotiateTLS_disconnected (st : channel) :
  _socket st = None ->
  _socket (after negotiateTLS st) = None /\
  promises (after negotiateTLS st) !! length (promises st) =
    Some (Rejected (TypeError "Cannot read properties of null")).
Proof.
  intros H. unfold negotiateTLS, _negotiateTLSAsPromised. destruct st. exec_all.
  subst. simpl. rewrite lookup_snoc_length. simpl. split; [reflexivity|].
  rewrite insert_snoc_length. apply lookup_snoc_length.
Qed.


(** C6: while a transport exists, [connect] resolves its promise at once (with
    [undefined]), creates no socket, leaves [_socket] as it is and registers
    nothing: no listener on a socket, no [onLine] on the receive buffer, no
    new command. The only effect is the call of [resolve]. *)
Theorem C6_connect_idempotent (h : option handler) (s : nat) (st : channel) :
  _socket st = Some s ->
  let p := length (promises st) in
  let st' := after (connect h) st in
  fst (connect h st) = inr p /\
  promises st' = promises st ++ [Fulfilled JUndefined] /\
  sockets st' = sockets st /\
  _socket st' = Some s /\
  regs st' = regs st /\
  commands st' = commands st /\
  _receiveBuffer st' = _receiveBuffer st /\
  microtasks st' = microtasks st /\
  trace st' = trace st ++ [CallResolve p JUndefined].
Proof.
  intros H. unfold after. rewrite (connect_connected h s st H). simpl.
  repeat split; auto.
Qed.

Lemma C6_connect_idempotent_witness :
  _socket sample_connected = Some 0 /\
  promises (after (connect None) sample_connected) =
    promises sample_connected ++ [Fulfilled JUndefined] /\
  sockets (after (connect None) sample_connected) = sockets sample_connected.
Proof.
  split; [vm_compute; reflexivity|].
  pose proof (C6_connect_idempotent None 0 sample_connected eq_refl) as H.
  split; [exact (proj1 (proj2 H))|exact (proj1 (proj2 (proj2 H)))].
Defined.


(** ** Dispatching a close event *)

Lemma for_each_app {A : Type} (f : A -> M unit) (l1 l2 : list A) (st : channel) :
  for_each f (l1 ++ l2) st = (for_each f l1 ;; for_each f l2) st.
Proof.
  revert st. induction l1 as [|x l1 IH]; intros st; simpl.
  - reflexivity.
  - unfold bind. destruct (f x st) as [[e|u] st1]; [reflexivity|].
    rewrite IH. reflexivity.
Qed.

Lemma sock_emit_close (s : nat) (b : bool) (st : channel) :
  sock_emit s (SClose b) st =
  for_each (fire (SClose b)) (List.filter (on_event s EvClose) (regs st)) st.
Proof.
  unfold sock_emit, bind, gets. simpl.
  destruct (List.filter (on_event s EvClose) (regs st)); reflexivity.
Qed.

Lemma sock_emit_connect (s : nat) (st : channel) :
  sock_emit s SConnect st =
  for_each (fire SConnect) (List.filter (on_event s EvConnect) (regs st)) st.
Proof.
  unfold sock_emit, bind, gets. simpl.
  destruct (List.filter (on_event s EvConnect) (regs st)); reflexivity.
Qed.

Lemma on_event_spec (s : nat) (n : evname) (r : reg) :
  on_event s n r = true <-> r_sock r = s /\ event_of (r_fn r) = n.
Proof.
  unfold on_event. rewrite andb_true_iff, Nat.eqb_eq, bool_decide_eq_true. tauto.
Qed.

Lemma settle_returns (q : nat) (x : pstate) (st : channel) : fst (settle q x st) = inr tt.
Proof. reflexivity. Qed.

(** Functions that do not throw. *)
Lemma returns_ret {A : Type} (a : A) : returns (ret a).
Proof. intros st. exists a. reflexivity. Qed.

Lemma returns_gets {A : Type} (f : channel -> A) : returns (gets f).
Proof. intros st. exists (f st). reflexivity. Qed.

Lemma returns_modify (f : channel -> channel) : returns (modify f).
Proof. intros st. exists tt. reflexivity. Qed.

Lemma returns_bind {A B : Type} (m : M A) (f : A -> M B) :
  returns m -> (forall a, returns (f a)) -> returns (bind m f).
Proof.
  intros Hm Hf st. unfold bind. destruct (Hm st) as [a Ha].
  destruct (m st) as [[e|a'] st1]; simpl in Ha; [discriminate|]. apply Hf.
Qed.

Lemma returns_reject (q : nat) (e : exn) : returns (reject q e).
Proof.
  unfold reject. apply returns_bind; [apply returns_modify|intros _].
  apply returns_modify.
Qed.

Lemma returns_resolve (q : nat) (x : jsval) : returns (resolve q x).
Proof.
  unfold resolve. apply returns_bind; [apply returns_modify|intros _].
  apply returns_modify.
Qed.

Lemma returns_cmd_reject (k : nat) (e : exn) : returns (cmd_reject k e).
Proof.
  unfold cmd_reject. apply returns_bind; [apply returns_gets|intros c].
  destruct c; [apply returns_reject|apply returns_ret].
Qed.

Lemma returns_onClose (k : nat) : returns (onClose k).
Proof.
  unfold onClose. apply returns_bind; [apply returns_gets|intros s].
  apply returns_bind; [destruct s; [apply returns_modify|apply returns_ret]|intros _].
  apply returns_bind; [apply returns_modify|intros _]. apply returns_cmd_reject.
Qed.

(** The listeners of a close event do not throw. *)
Lemma fire_close_returns (b : bool) (r : reg) (st : channel) :
  event_of (r_fn r) = EvClose -> fst (fire (SClose b) r st) = inr tt.
Proof.
  intros Hl.
  assert (H : returns (fire (SClose b) r)).
  { unfold fire. apply returns_bind.
    - destruct (r_once r); [apply returns_modify|apply returns_ret].
    - intros _. destruct (r_fn r); try discriminate; simpl.
      + apply returns_onClose.
      + unfold _onClose. apply returns_bind; [apply returns_modify|intros _].
        apply returns_modify.
      + apply returns_resolve. }
  destruct (H st) as [[] Ha]. exact Ha.
Qed.

Lemma fire_BoundOnClose (b o : bool) (s : nat) (st : channel) :
  _socket (snd (fire (SClose b) (Reg s BoundOnClose o) st)) = None.
Proof. unfold fire. destruct o; reflexivity. Qed.

Lemma fire_no_transport (ev : sevent) (r : reg) (st : channel) :
  _socket st = None -> _socket (snd (fire ev r st)) = None.
Proof.
  intros H.
  apply (inv_fire _ _ _ _ _ _ no_transport_carried ev r (okl_trivial _) (fun _ => Logic.I) st H).
Qed.

Lemma close_dispatch (b : bool) (rs : list reg) (st : channel) :
  (forall r, In r rs -> event_of (r_fn r) = EvClose) ->
  fst (for_each (fire (SClose b)) rs st) = inr tt /\
  (_socket st = None \/ (exists s o, In (Reg s BoundOnClose o) rs) ->
   _socket (snd (for_each (fire (SClose b)) rs st)) = None).
Proof.
  revert st. induction rs as [|r rs IH]; intros st Hrs; simpl.
  - split; [reflexivity|]. intros [H|(s & o & [])]. exact H.
  - unfold bind.
    pose proof (fire_close_returns b r st (Hrs r (or_introl eq_refl))) as Hr.
    destruct (fire (SClose b) r st) as [[e|u] st1] eqn:E; [discriminate|].
    destruct (IH st1 (fun r' Hr' => Hrs r' (or_intror Hr'))) as [IH1 IH2].
    split; [exact IH1|]. intros H. apply IH2.
    destruct H as [H|(s & o & [->|H])].
    + left. replace st1 with (snd (fire (SClose b) r st)) by (rewrite E; reflexivity).
      apply fire_no_transport, H.
    + left. replace st1 with (snd (fire (SClose b) (Reg s BoundOnClose o) st))
        by (rewrite E; reflexivity).
      apply fire_BoundOnClose.
    + right. eauto.
Qed.






(** ** Closing *)

Lemma turn_returned {A : Type} (m : M A) (i : input) (a : unit) (st st1 : channel) :
  perform i st = (inr a, st1) -> microtasks st1 = [] -> turn i st = st1.
Proof.
  intros Hp Hq. unfold turn. rewrite Hp. rewrite run_microtasks_empty by exact Hq.
  reflexivity.
Qed.

Lemma turn_close (st : channel) :
  microtasks st = [] -> turn CallClose st = after close st.
Proof.
  intros Hq. unfold after.
  destruct (_socket st) as [s|] eqn:Hs.
  - apply (turn_returned close _ tt); simpl; unfold bind;
      rewrite (close_connected s st Hs); [reflexivity|exact Hq].
  - apply (turn_returned close _ tt); simpl; unfold bind;
      rewrite (close_disconnected st Hs); [reflexivity|exact Hq].
Qed.

Lemma Iso_run (D : nat -> bool) (p : nat) (A : list reg) (L : list nat)
    (c : list effect) (v : option pstate) (inputs : list input) (st : channel) :
  (forall i, In i inputs -> input_ok (fun r => In r A) (L = []) True i) ->
  Iso D p A L c v st -> Iso D p A L c v (run inputs st).
Proof.
  revert st. induction inputs as [|i inputs IH]; intros st Hall H; simpl.
  - exact H.
  - apply IH; [intros j Hj; apply Hall; right; exact Hj|].
    apply Iso_turn; [apply Hall; left; reflexivity|exact H].
Qed.

Lemma not_close_ok (s p : nat) (i : input) :
  is_close_of s i = false ->
  input_ok (fun r => In r [Reg s (ResolveFn p) true]) (@nil nat = []) True i.
Proof.
  intros Hi. destruct i as [s' ev| | | | |]; simpl; auto.
  split; [|auto]. intros r [<-|[]]. unfold on_event. simpl.
  destruct ev; simpl in *; rewrite ?andb_false_r; try reflexivity.
  rewrite Nat.eqb_sym, Hi. reflexivity.
Qed.

Lemma wf_no_promise_reg (st : channel) (r : reg) :
  well_formed st -> In r (regs st) ->
  unsafe_fn (fun _ => false) (length (promises st)) (r_fn r) = false.
Proof.
  intros (_ & _ & _ & H) Hr. rewrite Forall_forall in H.
  assert (Hp : forall p, of_promise p (r_fn r) = true -> p < length (promises st)).
  { apply H. apply list_elem_of_In. exact Hr. }
  destruct (r_fn r); simpl in *; try reflexivity;
    (destruct (Nat.eqb p (length (promises st))) eqn:E; [|reflexivity];
     apply Nat.eqb_eq in E; specialize (Hp p (Nat.eqb_refl p)); lia).
Qed.

(** After [close()] on a transport its promise is isolated: only the
    [resolve] registered for the socket's close event leads to it. *)
Lemma close_Iso (s : nat) (st : channel) :
  well_formed st -> _socket st = Some s ->
  Iso (fun _ => false) (length (promises st))
      [Reg s (ResolveFn (length (promises st))) true] []
      (calls (length (promises st)) (trace st)) (Some Pending) (after close st).
Proof.
  intros Hwf Hs. unfold after. rewrite (close_connected s st Hs). simpl.
  constructor; simpl.
  - rewrite length_app. simpl. lia.
  - intros k cmd Hk Hp. destruct Hwf as (_ & _ & Hc & _).
    rewrite Forall_forall in Hc.
    assert (c_promise cmd < length (promises st)).
    { apply Hc. eapply list_elem_of_lookup_2. exact Hk. }
    lia.
  - discriminate.
  - rewrite List.filter_app. simpl. rewrite Nat.eqb_refl.
    rewrite (filter_false_nil _ (regs st)); [reflexivity|].
    intros r Hr. apply wf_no_promise_reg; assumption.
  - rewrite filter_false_nil; [reflexivity|auto].
  - apply filter_false_nil. auto.
  - apply Forall_forall. auto.
  - unfold calls. rewrite List.filter_app. simpl. apply app_nil_r.
  - apply lookup_snoc_length.
Qed.

Lemma Iso_for_each_fire (D : nat -> bool) (p : nat) (A : list reg) (L : list nat)
    (c : list effect) (v : option pstate) (ev : sevent) (rs : list reg) (st : channel) :
  (forall r, In r rs ->
     unsafe_fn D p (r_fn r) = false /\ (r_fn r = BoundOnReceive -> L = [])) ->
  Iso D p A L c v st -> Iso D p A L c v (snd (for_each (fire ev) rs st)).
Proof.
  intros Hrs H.
  apply (hoare_for_each (Iso D p A L c v) (fire ev) rs); [|exact H].
  intros r Hr. destruct (Hrs r Hr) as [Hsafe Hrecv].
  apply (inv_fire _ _ _ _ _ _ (Iso_carried D p A L c v)); [|exact Hrecv].
  apply okl_safe, Hsafe.
Qed.

Lemma fire_resolve_pending (s p : nat) (b : bool) (st : channel) :
  promises st !! p = Some Pending ->
  promises (snd (fire (SClose b) (Reg s (ResolveFn p) true) st)) !! p =
    Some (Fulfilled (JBool b)).
Proof.
  intros H. unfold fire, invoke. simpl. exec. rewrite H. simpl.
  apply list_lookup_insert_eq. eapply lookup_lt_Some. exact H.
Qed.

Lemma settled_run_microtasks (p : nat) (v : pstate) (st : channel) :
  v <> Pending -> promises st !! p = Some v ->
  promises (snd (run_microtasks st)) !! p = Some v.
Proof.
  intros Hv H. apply (inv_run_microtasks _ _ _ _ _ _ (settled_carried p v Hv) st H).
Qed.

(** After [close()] the close event of the socket fulfils the promise. *)
Lemma close_event_resolves (s : nat) (b : bool) (st : channel) :
  well_formed st -> _socket st = Some s ->
  promises (turn (SockEmit s (SClose b)) (after close st)) !! length (promises st) =
    Some (Fulfilled (JBool b)).
Proof.
  intros Hwf Hs. pose proof (close_Iso s st Hwf Hs) as HIso.
  set (p := length (promises st)) in *. set (st1 := after close st) in *.
  assert (Hregs : regs st1 = regs st ++ [Reg s (ResolveFn p) true]).
  { unfold st1, after. rewrite (close_connected s st Hs). reflexivity. }
  unfold turn. simpl perform. rewrite sock_emit_close, Hregs, List.filter_app.
  replace (List.filter (on_event s EvClose) [Reg s (ResolveFn p) true])
    with [Reg s (ResolveFn p) true]
    by (simpl; unfold on_event; simpl; rewrite Nat.eqb_refl; reflexivity).
  set (l1 := List.filter (on_event s EvClose) (regs st)).
  rewrite for_each_app. unfold bind at 1.
  assert (Hl1 : forall r, In r l1 -> In r (regs st) /\ event_of (r_fn r) = EvClose).
  { intros r Hr. apply filter_In in Hr as [Hr Hon]. apply on_event_spec in Hon. tauto. }
  destruct (close_dispatch b l1 st1) as [Hret _].
  { intros r Hr. apply Hl1, Hr. }
  assert (Ha : Iso (fun _ => false) p [Reg s (ResolveFn p) true] []
                 (calls p (trace st)) (Some Pending)
                 (snd (for_each (fire (SClose b)) l1 st1))).
  { apply Iso_for_each_fire; [|exact HIso]. intros r Hr. split; [|auto].
    apply wf_no_promise_reg; [exact Hwf|]. apply Hl1, Hr. }
  destruct (for_each (fire (SClose b)) l1 st1) as [[e|u] st_a]; [discriminate|].
  simpl in Ha. simpl for_each. unfold bind at 1.
  pose proof (fire_resolve_pending s p b st_a (iso_state _ _ _ _ _ _ _ Ha)) as Hb.
  pose proof (fire_close_returns b (Reg s (ResolveFn p) true) st_a eq_refl) as Hr.
  destruct (fire (SClose b) (Reg s (ResolveFn p) true) st_a) as [[e|u'] st_b];
    [discriminate|].
  simpl in Hb. simpl. apply settled_run_microtasks; [discriminate|exact Hb].
Qed.

Lemma forallb_In {A : Type} (f : A -> bool) (l : list A) (x : A) :
  forallb f l = true -> In x l -> f x = true.
Proof. intros H Hx. rewrite forallb_forall in H. apply H, Hx. Qed.

(** C7: [close()] without a transport resolves its promise at once. With
    a transport [s] it calls [destroy()] on [s], clears [_socket] before it
    returns and leaves its promise pending: the promise stays pending through
    every turn that is not the close event of [s], and that event fulfils it.
    Because [_socket] is cleared at once, a [write] made at any moment before
    the next [connect] is rejected with "Socket has closed" and hands nothing
    to the dying socket. *)
Theorem C7_close_waits_for_close_event (st : channel) :
  well_formed st -> microtasks st = [] ->
  let p := length (promises st) in
  let st1 := turn CallClose st in
  match _socket st with
  | None =>
      promises st1 = promises st ++ [Fulfilled JUndefined] /\
      sockets st1 = sockets st /\
      regs st1 = regs st /\
      trace st1 = trace st ++ [CallResolve p JUndefined]
  | Some s =>
      _socket st1 = None /\
      sockets st1 = alter mark_destroyed s (sockets st) /\
      regs st1 = regs st ++ [Reg s (ResolveFn p) true] /\
      promises st1 = promises st ++ [Pending] /\
      trace st1 = trace st ++ [SockDestroy s] /\
      (forall inputs,
         forallb (fun i => negb (is_close_of s i)) inputs = true ->
         promises (run inputs st1) !! p = Some Pending) /\
      (forall b,
         promises (turn (SockEmit s (SClose b)) st1) !! p = Some (Fulfilled (JBool b))) /\
      (forall inputs data h,
         forallb (fun i => negb (is_connect i)) inputs = true ->
         let st2 := run inputs st1 in
         _socket st2 = None /\
         promises (after (write data h) st2) =
           promises st2 ++ [Rejected (Error "Socket has closed")] /\
         trace (after (write data h) st2) =
           trace st2 ++ [CallReject (length (promises st2)) (Error "Socket has closed")])
  end.
Proof.
  intros Hwf Hq. cbv zeta. rewrite (turn_close st Hq).
  destruct (_socket st) as [s|] eqn:Hs.
  - pose proof (close_Iso s st Hwf Hs) as HIso.
    unfold after in *. rewrite (close_connected s st Hs) in *. simpl.
    repeat split; auto.
    + intros inputs Hall.
      eapply iso_state. apply Iso_run; [|exact HIso].
      intros i Hi. apply not_close_ok.
      apply (forallb_In _ _ i Hall) in Hi. destruct (is_close_of s i); [discriminate|reflexivity].
    + intros b. pose proof (close_event_resolves s b st Hwf Hs) as H.
      unfold after in H. rewrite (close_connected s st Hs) in H. exact H.
    + apply no_transport_run; [assumption|reflexivity].
    + rewrite write_disconnected; [reflexivity|].
      apply no_transport_run; [assumption|reflexivity].
    + rewrite write_disconnected; [reflexivity|].
      apply no_transport_run; [assumption|reflexivity].
  - unfold after. rewrite (close_disconnected st Hs). simpl. repeat split; auto.
Qed.

Lemma sample_connected_wf : well_formed sample_connected.
Proof.
  repeat split.
  - intros s H. vm_compute in H. injection H as <-. vm_compute. lia.
  - vm_compute. repeat constructor.
  - vm_compute. repeat constructor.
  - apply Forall_forall. intros r Hr p Hp. apply list_elem_of_In in Hr.
    vm_compute in Hr.
    repeat (destruct Hr as [<-|Hr]; [discriminate Hp|]). destruct Hr.
Qed.

Lemma C7_close_waits_for_close_event_witness :
  _socket sample_connected = Some 0 /\
  _socket (turn CallClose sample_connected) = None /\
  promises (turn (SockEmit 0 (SClose false)) (turn CallClose sample_connected)) !! 1 =
    Some (Fulfilled (JBool false)).
Proof.
  pose proof (C7_close_waits_for_close_event sample_connected sample_connected_wf eq_refl)
    as H.
  change (_socket sample_connected) with (Some 0) in H. cbv beta iota in H.
  split; [reflexivity|]. split; [exact (proj1 H)|].
  exact (proj1 (proj2 (proj2 (proj2 (proj2 (proj2 (proj2 H)))))) false).
Defined.

(** ** Connecting and upgrading *)

Lemma fresh_sock_no_regs (st : channel) (s : nat) (n : evname) :
  well_formed st -> length (sockets st) <= s ->
  List.filter (on_event s n) (regs st) = [].
Proof.
  intros (_ & Hr & _) Hs. apply filter_false_nil. intros r Hin.
  rewrite Forall_forall in Hr. apply list_elem_of_In in Hin. specialize (Hr r Hin).
  unfold on_event. destruct (Nat.eqb (r_sock r) s) eqn:E; [|reflexivity].
  apply Nat.eqb_eq in E. simpl in Hr. lia.
Qed.

Lemma wire_socket_spec (s : nat) (st : channel) :
  _socket st = Some s ->
  exists rs tr, wire_socket st = (inr tt, set_trace tr (set_regs rs st)).
Proof.
  intros H. destruct st. simpl in H. subst. eexists _, _. lazy. reflexivity.
Qed.

Lemma connect_callback_spec (b : bool) (s : nat) (st : channel) :
  _socket st = Some s ->
  exists rs tr, connect_callback b st = (inr tt, set_trace tr (set_regs rs (set_isSecure b st))).
Proof.
  intros H. destruct st. simpl in H. subst. eexists _, _. lazy. reflexivity.
Qed.

Lemma resolve_pending (p : nat) (x : jsval) (st : channel) :
  promises st !! p = Some Pending ->
  resolve p x st =
    (inr tt, set_promises (<[p := Fulfilled x]> (promises st))
               (set_trace (trace st ++ [CallResolve p x]) st)).
Proof.
  intros H. unfold resolve, log, settle, bind, modify. simpl. rewrite H. reflexivity.
Qed.

Lemma upgrade_callback_spec (p s : nat) (st : channel) :
  _socket st = Some s -> promises st !! p = Some Pending ->
  exists rs tr,
    upgrade_callback p st =
      (inr tt, set_promises (<[p := Fulfilled JUndefined]> (promises st))
                 (set_trace tr (set_regs rs (set_isSecure true st)))).
Proof.
  intros H Hp.
  destruct (wire_socket_spec s (set_isSecure true st) H) as (rs & tr & E).
  exists rs, (tr ++ [CallResolve p JUndefined]).
  unfold upgrade_callback. unfold bind at 1. unfold modify at 1.
  unfold bind at 1. rewrite E. rewrite resolve_pending by exact Hp.
  destruct st; reflexivity.
Qed.

Lemma turn_connect (h : option handler) (st : channel) :
  microtasks st = [] -> _socket st = None ->
  turn (CallConnect h) st = after (connect h) st.
Proof.
  intros Hq Hs. unfold after.
  apply (turn_returned (connect h) _ tt); simpl; unfold bind;
    rewrite (connect_disconnected h st Hs); [reflexivity|exact Hq].
Qed.

Lemma turn_negotiateTLS (s0 : nat) (st : channel) :
  microtasks st = [] -> _socket st = Some s0 ->
  turn CallNegotiateTLS st = after negotiateTLS st.
Proof.
  intros Hq Hs. unfold after.
  apply (turn_returned negotiateTLS _ tt); simpl; unfold bind;
    rewrite (negotiateTLS_connected s0 st Hs); [reflexivity|exact Hq].
Qed.

Lemma on_event_Reg (s s' : nat) (n : evname) (l : listener) (o : bool) :
  on_event s n (Reg s' l o) = Nat.eqb s' s && bool_decide (event_of l = n).
Proof. reflexivity. Qed.

Lemma on_event_self (s : nat) (l : listener) (o : bool) :
  on_event s (event_of l) (Reg s l o) = true.
Proof. apply on_event_spec. auto. Qed.

Lemma on_event_other (s : nat) (n : evname) (l : listener) (o : bool) :
  event_of l <> n -> on_event s n (Reg s l o) = false.
Proof.
  intros H. destruct (on_event s n (Reg s l o)) eqn:E; [|reflexivity].
  apply on_event_spec in E. simpl in E. tauto.
Qed.

(** The connect event of the socket that [connect] created. *)
Lemma connect_then_connected (h : option handler) (st : channel) :
  well_formed st -> microtasks st = [] -> _socket st = None ->
  let s := length (sockets st) in
  let b := truthy (secure (_config st)) in
  let st2 := turn (SockEmit s SConnect) (turn (CallConnect h) st) in
  _socket st2 = Some s /\
  sockets st2 = sockets st ++ [SockInfo (if b then Tls else Net) None false] /\
  _isSecure st2 = b.
Proof.
  intros Hwf Hq Hs. cbv zeta. rewrite (turn_connect h st Hq Hs).
  unfold after. rewrite (connect_disconnected h st Hs). simpl snd.
  set (s := length (sockets st)). set (b := truthy (secure (_config st))).
  match goal with |- context [turn _ ?x] => set (st1 := x) end.
  assert (Hsnap : List.filter (on_event s EvConnect) (regs st1) = [Reg s (ConnectCb b) true]).
  { unfold st1. cbn [regs set_regs set_receiveBuffer]. rewrite List.filter_app.
    rewrite (fresh_sock_no_regs st s EvConnect Hwf (Nat.le_refl _)).
    cbn [List.filter app]. rewrite !on_event_Reg, Nat.eqb_refl. reflexivity. }
  assert (Hturn : exists rs tr,
            turn (SockEmit s SConnect) st1 = set_trace tr (set_regs rs (set_isSecure b st1))).
  { unfold turn. simpl perform. rewrite sock_emit_connect, Hsnap. simpl for_each.
    unfold bind at 1. unfold fire at 1. simpl r_once. simpl r_fn. simpl invoke.
    unfold bind at 1, sock_removeListener at 1, modify at 1.
    match goal with |- context [connect_callback b ?x] =>
      destruct (connect_callback_spec b s x eq_refl) as (rs & tr & E); rewrite E
    end.
    simpl. rewrite run_microtasks_empty by exact Hq. eexists _, _. reflexivity. }
  destruct Hturn as (rs & tr & ->). simpl. auto.
Qed.

(** The connect event of the socket that [negotiateTLS] created. *)
Lemma negotiate_then_connected (s0 : nat) (st : channel) :
  well_formed st -> microtasks st = [] -> _socket st = Some s0 ->
  let s := length (sockets st) in
  let p := length (promises st) in
  let st2 := turn (SockEmit s SConnect) (turn CallNegotiateTLS st) in
  _socket st2 = Some s /\
  sockets st2 = sockets st ++ [SockInfo Tls (Some s0) false] /\
  promises st2 = promises st ++ [Fulfilled JUndefined] /\
  _isSecure st2 = true.
Proof.
  intros Hwf Hq Hs. cbv zeta. rewrite (turn_negotiateTLS s0 st Hq Hs).
  unfold after. rewrite (negotiateTLS_connected s0 st Hs). simpl snd.
  set (s := length (sockets st)). set (p := length (promises st)).
  match goal with |- context [turn _ ?x] => set (st1 := x) end.
  assert (Hsnap : List.filter (on_event s EvConnect) (regs st1) = [Reg s (UpgradeCb p) true]).
  { unfold st1. cbn [regs set_regs]. rewrite List.filter_app.
    rewrite (filter_false_nil (on_event s EvConnect)).
    - cbn [List.filter app]. rewrite !on_event_Reg, Nat.eqb_refl. reflexivity.
    - intros r Hr. repeat (apply filter_In in Hr as [Hr _]).
      eapply filter_nil_false; [|exact Hr].
      apply (fresh_sock_no_regs st s EvConnect Hwf (Nat.le_refl _)). }
  assert (Hturn : exists rs tr,
            turn (SockEmit s SConnect) st1 =
              set_promises (<[p := Fulfilled JUndefined]> (promises st1))
                (set_trace tr (set_regs rs (set_isSecure true st1)))).
  { unfold turn. simpl perform. rewrite sock_emit_connect, Hsnap. simpl for_each.
    unfold bind at 1. unfold fire at 1. simpl r_once. simpl r_fn. simpl invoke.
    unfold bind at 1, sock_removeListener at 1, modify at 1.
    match goal with |- context [upgrade_callback p ?x] =>
      destruct (upgrade_callback_spec p s x eq_refl) as (rs & tr & E);
        [apply lookup_snoc_length|rewrite E]
    end.
    simpl. rewrite run_microtasks_empty by exact Hq. eexists _, _. reflexivity. }
  destruct Hturn as (rs & tr & ->). simpl.
  repeat split; auto. apply insert_snoc_length.
Qed.

(** ** What only the connect callbacks change

    [_isSecure] is assigned in the two connect callbacks and nowhere else.
    The section takes a property that every other field update keeps, and
    takes it through every method and every turn that is not the connect
    event of a socket. *)

Section Frame.

Variable I : channel -> Prop.

Hypothesis F_trace : forall v st, I st -> I (set_trace v st).
Hypothesis F_promises : forall v st, I st -> I (set_promises v st).
Hypothesis F_commands : forall v st, I st -> I (set_commands v st).
Hypothesis F_regs : forall v st, I st -> I (set_regs v st).
Hypothesis F_socket : forall v st, I st -> I (set_socket v st).
Hypothesis F_receiveBuffer : forall v st, I st -> I (set_receiveBuffer v st).
Hypothesis F_sendBuffer : forall v st, I st -> I (set_sendBuffer v st).
Hypothesis F_microtasks : forall v st, I st -> I (set_microtasks v st).
Hypothesis F_created : forall x st, I st -> I (set_sockets (sockets st ++ [x]) st).
Hypothesis F_destroyed : forall s st,
  I st -> I (set_sockets (alter mark_destroyed s (sockets st)) st).

Definition keeps {A : Type} (m : M A) : Prop := hoare I m anything.

Lemma keeps_ret {A : Type} (a : A) : keeps (ret a).
Proof. apply hoare_ret. exact Logic.I. Qed.

Lemma keeps_throw {A : Type} (e : exn) : keeps (@throw A e).
Proof. apply hoare_throw. Qed.

Lemma keeps_gets {A : Type} (f : channel -> A) : keeps (gets f).
Proof. apply hoare_gets_any. Qed.

Lemma keeps_modify (f : channel -> channel) :
  (forall st, I st -> I (f st)) -> keeps (modify f).
Proof. apply hoare_modify. Qed.

Lemma keeps_bind {A B : Type} (m : M A) (f : A -> M B) :
  keeps m -> (forall a, keeps (f a)) -> keeps (bind m f).
Proof. intros Hm Hf. eapply hoare_bind; [exact Hm|]. intros a _. apply Hf. Qed.

Lemma keeps_for_each {A : Type} (f : A -> M unit) (l : list A) :
  (forall x, keeps (f x)) -> keeps (for_each f l).
Proof. intros H. apply hoare_for_each. intros x _. apply H. Qed.

Lemma keeps_the_socket : keeps the_socket.
Proof.
  intros st HI. unfold the_socket. destruct (_socket st); simpl; split; auto;
    intros; exact Logic.I.
Qed.

Lemma keeps_settle (q : nat) (x : pstate) : keeps (settle q x).
Proof.
  apply keeps_modify. intros st HI. destruct (promises st !! q) as [[| |]|]; auto.
Qed.

(** One step of a proof that a method keeps [I]: the monad's operations by
    their rules, a case distinction by cases, a method by its definition. *)
Ltac frame_step :=
  cbv zeta;
  lazymatch goal with
  | |- keeps (bind _ _) => apply keeps_bind; [|intros ?]
  | |- keeps (ret _) => apply keeps_ret
  | |- keeps (throw _) => apply keeps_throw
  | |- keeps (gets _) => apply keeps_gets
  | |- keeps (modify _) => apply keeps_modify; intros ? ?; auto
  | |- keeps (for_each _ _) => apply keeps_for_each; intros ?
  | |- keeps the_socket => apply keeps_the_socket
  | |- keeps (settle _ _) => apply keeps_settle
  | |- keeps (match ?x with _ => _ end) => destruct x
  end.

Ltac frame := repeat frame_step.

Lemma keeps_log (e : effect) : keeps (log e).
Proof. unfold log. frame. Qed.

Lemma keeps_resolve (q : nat) (x : jsval) : keeps (resolve q x).
Proof. unfold resolve, log. frame. Qed.

Lemma keeps_reject (q : nat) (e : exn) : keeps (reject q e).
Proof. unfold reject, log. frame. Qed.

Lemma keeps_new_promise (executor : nat -> M unit) :
  (forall q, keeps (executor q)) -> keeps (new_promise executor).
Proof.
  intros Hex st HI. unfold new_promise.
  destruct (Hex (length (promises st)) _ (F_promises (promises st ++ [Pending]) st HI))
    as [HI2 _].
  destruct (executor _ _) as [[e|u] st2]; simpl in *.
  - split; [apply (keeps_reject _ e st2 HI2)|]. intros; exact Logic.I.
  - split; [exact HI2|]. intros; exact Logic.I.
Qed.

Lemma keeps_chan_emit (e : chan_event) : keeps (chan_emit e).
Proof. destruct e; unfold chan_emit, log; frame. Qed.

Lemma keeps_cmd_resolve (k : nat) (x : jsval) : keeps (cmd_resolve k x).
Proof. unfold cmd_resolve. frame. apply keeps_resolve. Qed.

Lemma keeps_cmd_reject (k : nat) (e : exn) : keeps (cmd_reject k e).
Proof. unfold cmd_reject. frame. apply keeps_reject. Qed.

Lemma keeps_onClose (k : nat) : keeps (onClose k).
Proof.
  unfold onClose, sock_removeListener, line_removeListener. frame.
  apply keeps_cmd_reject.
Qed.

Lemma keeps_onError (k : nat) (e : exn) : keeps (onError k e).
Proof.
  unfold onError, sock_removeListener, line_removeListener. frame.
  apply keeps_cmd_reject.
Qed.

Lemma keeps_onLine (k : nat) (line : string) : keeps (onLine k line).
Proof. unfold onLine, enqueue, sock_removeListener, line_removeListener. frame. Qed.

Lemma keeps__resolveCommand (q : nat) (h : option handler) : keeps (_resolveCommand q h).
Proof. unfold _resolveCommand, sock_once, line_on. frame. Qed.

Lemma keeps_run_job (j : job) : keeps (run_job j).
Proof.
  destruct j as [k line args|k [e|] args|k [e|]]; unfold run_job, enqueue, log; frame;
    first [apply keeps_cmd_resolve|apply keeps_cmd_reject].
Qed.

Lemma keeps_feed (get : channel -> LineBuffer) (set : LineBuffer -> channel -> channel)
    (chunk : string) :
  (forall v st, I st -> I (set v st)) -> keeps (feed get set chunk).
Proof. intros Hset. unfold feed. frame. apply keeps_onLine. Qed.

Lemma keeps__onReceive (chunk : string) : keeps (_onReceive chunk).
Proof.
  unfold _onReceive, _onReply. frame.
  - apply keeps_chan_emit.
  - apply keeps_feed, F_receiveBuffer.
  - apply keeps_chan_emit.
Qed.

Lemma keeps__onSend (chunk : string) : keeps (_onSend chunk).
Proof.
  unfold _onSend, _onCommand. frame.
  - apply keeps_chan_emit.
  - apply keeps_feed, F_sendBuffer.
  - apply keeps_chan_emit.
Qed.

Lemma keeps_write (data : payload) (h : option handler) : keeps (write data h).
Proof.
  unfold write, _writeAsPromised. apply keeps_new_promise. intros q. frame.
  - apply keeps__resolveCommand.
  - apply keeps_log.
  - apply keeps_reject.
Qed.

Lemma keeps__onTimeout : keeps _onTimeout.
Proof. unfold _onTimeout. frame; [apply keeps_chan_emit|apply keeps_write]. Qed.

Lemma keeps__createSocket (sec : jsval) (w : option nat) (cb : listener) :
  keeps (_createSocket sec w cb).
Proof. unfold _createSocket, lib_connect, sock_once, log. frame. Qed.

Lemma keeps_connect (h : option handler) : keeps (connect h).
Proof.
  unfold connect, _connectAsPromised. apply keeps_new_promise. intros q. frame.
  - apply keeps_resolve.
  - apply keeps__createSocket.
  - apply keeps__resolveCommand.
Qed.

Lemma keeps_close : keeps close.
Proof.
  unfold close, _closeAsPromised. apply keeps_new_promise. intros q.
  unfold sock_once, sock_destroy, log. frame. apply keeps_resolve.
Qed.

Lemma keeps_negotiateTLS : keeps negotiateTLS.
Proof.
  unfold negotiateTLS, _negotiateTLSAsPromised. apply keeps_new_promise. intros q.
  unfold sock_removeAllListeners, sock_on. frame. apply keeps__createSocket.
Qed.

(** A listener called with an event that is not the connect event. *)
Lemma keeps_invoke (l : listener) (ev : sevent) :
  name_of ev <> EvConnect -> keeps (invoke l ev).
Proof.
  intros Hev. destruct l, ev; simpl; try apply keeps_ret; try (contradiction Hev; reflexivity).
  - apply keeps_onClose.
  - apply keeps_onError.
  - unfold _onClose. frame. apply keeps_chan_emit.
  - apply keeps__onReceive.
  - apply keeps_chan_emit.
  - apply keeps_chan_emit.
  - apply keeps__onTimeout.
  - apply keeps_resolve.
  - apply keeps_reject.
Qed.

Lemma keeps_sock_emit (s : nat) (ev : sevent) :
  name_of ev <> EvConnect -> keeps (sock_emit s ev).
Proof.
  intros Hev. unfold sock_emit. apply keeps_bind; [apply keeps_gets|]. intros rs.
  assert (Hall : keeps (for_each (fire ev) rs)).
  { apply keeps_for_each. intros r. unfold fire, sock_removeListener. frame.
    apply keeps_invoke, Hev. }
  destruct rs as [|r rs]; [|exact Hall]. destruct ev; try exact Hall. apply keeps_throw.
Qed.

Lemma keeps_drain (fuel : nat) : keeps (drain fuel).
Proof.
  induction fuel as [|fuel IH]; [simpl; apply keeps_ret|].
  intros st HI. rewrite drain_step.
  destruct (microtasks st) as [|j q] eqn:Hq.
  - split; [exact HI|]. intros; exact Logic.I.
  - assert (Hrest : keeps (run_job j ;; drain fuel)).
    { apply keeps_bind; [apply keeps_run_job|intros _; apply IH]. }
    exact (Hrest _ (F_microtasks q st HI)).
Qed.

Lemma keeps_perform (i : input) : is_connect_event i = false -> keeps (perform i).
Proof.
  intros Hi. destruct i as [s ev|h| |data h| |chunk]; simpl.
  - apply keeps_sock_emit. destruct ev; simpl in *; discriminate.
  - frame. apply keeps_connect.
  - frame. apply keeps_close.
  - frame. apply keeps_write.
  - frame. apply keeps_negotiateTLS.
  - apply keeps__onSend.
Qed.

Lemma frame_turn (i : input) (st : channel) :
  is_connect_event i = false -> I st -> I (turn i st).
Proof.
  intros Hi HI. unfold turn.
  destruct (keeps_perform i Hi st HI) as [HI1 _].
  assert (Hrun : keeps run_microtasks).
  { unfold run_microtasks. apply keeps_bind; [apply keeps_gets|intros q; apply keeps_drain]. }
  destruct (perform i st) as [[e|u] st1]; simpl in *.
  - apply Hrun. apply F_trace, HI1.
  - apply Hrun, HI1.
Qed.

Lemma frame_run (inputs : list input) (st : channel) :
  forallb (fun i => negb (is_connect_event i)) inputs = true -> I st -> I (run inputs st).
Proof.
  revert st. induction inputs as [|i inputs IH]; intros st Hall HI; simpl; [exact HI|].
  simpl in Hall. apply andb_true_iff in Hall as [Hi Hall].
  apply IH; [exact Hall|]. apply frame_turn; [|exact HI].
  destruct (is_connect_event i); [discriminate|reflexivity].
Qed.

End Frame.

(** [isSecure()] changes at the connect event of a socket only. *)
Lemma isSecure_run (inputs : list input) (st : channel) :
  forallb (fun i => negb (is_connect_event i)) inputs = true ->
  isSecure (run inputs st) = isSecure st.
Proof.
  intros Hall.
  apply (frame_run (fun st' => isSecure st' = isSecure st)); auto.
Qed.

(** The library that created a socket stays what it is. *)
Lemma lib_run (s : nat) (l : lib) (inputs : list input) (st : channel) :
  forallb (fun i => negb (is_connect_event i)) inputs = true ->
  s_lib <$> sockets st !! s = Some l -> s_lib <$> sockets (run inputs st) !! s = Some l.
Proof.
  intros Hall.
  apply (frame_run (fun st' => s_lib <$> sockets st' !! s = Some l)); auto.
  - intros x st' H. simpl. destruct (sockets st' !! s) as [i|] eqn:E; [|discriminate].
    rewrite (lookup_app_l_Some _ _ _ _ E). exact H.
  - intros s' st' H. simpl. destruct (decide (s' = s)) as [->|Hne].
    + rewrite list_lookup_alter_eq. destruct (sockets st' !! s); [|discriminate].
      simpl in *. exact H.
    + rewrite list_lookup_alter_ne by exact Hne. exact H.
Qed.

(** C8: once the socket made by [connect] has connected, [isSecure()] is
    [!!config.secure], and the socket was made by [tls.connect] exactly when
    that is true (by [net.connect] otherwise): a plaintext connect gives
    [false], an encrypted one [true]. Once the socket made by [negotiateTLS]
    has connected, which resolves the upgrade, [isSecure()] is [true] and the
    transport is a TLS socket over the previous one. In both cases the flag
    and the socket's mode stay as they are in every later state, whatever
    happens (lines, writes, errors, [close], a further [negotiateTLS]), until
    a socket's next connect event. *)
Theorem C8_isSecure_follows_transport (st : channel) :
  well_formed st -> microtasks st = [] ->
  (_socket st = None ->
   forall h,
     let s := length (sockets st) in
     let st2 := turn (SockEmit s SConnect) (turn (CallConnect h) st) in
     _socket st2 = Some s /\
     isSecure st2 = truthy (secure (_config st)) /\
     (exists i, sockets st2 !! s = Some i /\
                (isSecure st2 = true <-> s_lib i = Tls) /\
                (isSecure st2 = false <-> s_lib i = Net)) /\
     (forall inputs,
        forallb (fun i => negb (is_connect_event i)) inputs = true ->
        isSecure (run inputs st2) = truthy (secure (_config st)) /\
        exists i, sockets (run inputs st2) !! s = Some i /\
                  (isSecure (run inputs st2) = true <-> s_lib i = Tls) /\
                  (isSecure (run inputs st2) = false <-> s_lib i = Net))) /\
  (forall s0, _socket st = Some s0 ->
     let s := length (sockets st) in
     let st2 := turn (SockEmit s SConnect) (turn CallNegotiateTLS st) in
     _socket st2 = Some s /\
     sockets st2 !! s = Some (SockInfo Tls (Some s0) false) /\
     promises st2 !! length (promises st) = Some (Fulfilled JUndefined) /\
     isSecure st2 = true /\
     (forall inputs,
        forallb (fun i => negb (is_connect_event i)) inputs = true ->
        isSecure (run inputs st2) = true /\
        exists i, sockets (run inputs st2) !! s = Some i /\ s_lib i = Tls)).
Proof.
  intros Hwf Hq. split.
  - intros Hs h. cbv zeta.
    destruct (connect_then_connected h st Hwf Hq Hs) as (H1 & H2 & H3).
    set (st2 := turn _ (turn (CallConnect h) st)) in *.
    assert (Hl : sockets st2 !! length (sockets st) =
                 Some (SockInfo (if truthy (secure (_config st)) then Tls else Net)
                         None false))
      by (rewrite H2; apply lookup_snoc_length).
    unfold isSecure. split; [exact H1|]. split; [exact H3|]. split.
    + eexists. split; [exact Hl|]. rewrite H3. simpl.
      destruct (truthy (secure (_config st))); split; split; congruence.
    + intros inputs Hall.
      pose proof (isSecure_run inputs st2 Hall) as Hsec. unfold isSecure in Hsec.
      pose proof (lib_run (length (sockets st)) _ inputs st2 Hall
                    (f_equal (fmap s_lib) Hl)) as Hlib.
      rewrite Hsec, H3. split; [reflexivity|].
      destruct (sockets (run inputs st2) !! length (sockets st)) as [i|];
        [|discriminate Hlib].
      exists i. split; [reflexivity|]. simpl in Hlib. injection Hlib as Hlib.
      rewrite Hlib. destruct (truthy (secure (_config st))); split; split; congruence.
  - intros s0 Hs. cbv zeta.
    destruct (negotiate_then_connected s0 st Hwf Hq Hs) as (H1 & H2 & H3 & H4).
    set (st2 := turn _ (turn CallNegotiateTLS st)) in *.
    assert (Hl : sockets st2 !! length (sockets st) = Some (SockInfo Tls (Some s0) false))
      by (rewrite H2; apply lookup_snoc_length).
    unfold isSecure. split; [exact H1|]. split; [exact Hl|].
    split; [rewrite H3; apply lookup_snoc_length|]. split; [exact H4|].
    intros inputs Hall.
    pose proof (isSecure_run inputs st2 Hall) as Hsec. unfold isSecure in Hsec.
    pose proof (lib_run (length (sockets st)) _ inputs st2 Hall
                  (f_equal (fmap s_lib) Hl)) as Hlib.
    rewrite Hsec, H4. split; [reflexivity|].
    destruct (sockets (run inputs st2) !! length (sockets st)) as [i|];
      [|discriminate Hlib].
    exists i. split; [reflexivity|]. simpl in Hlib. injection Hlib as Hlib. exact Hlib.
Qed.

Lemma sample_new_wf : well_formed sample_new.
Proof.
  repeat split; try (vm_compute; constructor). intros s H. discriminate H.
Qed.

Lemma C8_isSecure_follows_transport_witness :
  (_socket sample_new = None /\
   isSecure (turn (SockEmit 0 SConnect) (turn (CallConnect None) sample_new)) = false /\
   isSecure (run [SockEmit 0 (SData ("220 ready" ++ CRLF)%string);
                  CallWrite (PData ("EHLO client" ++ CRLF)%string) None;
                  SockEmit 0 (SClose false)]
               (turn (SockEmit 0 SConnect) (turn (CallConnect None) sample_new))) = false) /\
  (_socket sample_connected = Some 0 /\
   isSecure (turn (SockEmit 1 SConnect) (turn CallNegotiateTLS sample_connected)) = true /\
   isSecure (run [CallWrite (PData ("EHLO client" ++ CRLF)%string) None;
                  SockEmit 1 (SError (Error "reset"))]
               (turn (SockEmit 1 SConnect) (turn CallNegotiateTLS sample_connected))) = true).
Proof.
  pose proof (proj1 (C8_isSecure_follows_transport sample_new sample_new_wf eq_refl)
                eq_refl None) as H1.
  pose proof (proj2 (C8_isSecure_follows_transport sample_connected sample_connected_wf
                       eq_refl) 0 eq_refl) as H2.
  split.
  - split; [reflexivity|]. split; [exact (proj1 (proj2 H1))|].
    exact (proj1 (proj2 (proj2 (proj2 H1))
                    [SockEmit 0 (SData ("220 ready" ++ CRLF)%string);
                     CallWrite (PData ("EHLO client" ++ CRLF)%string) None;
                     SockEmit 0 (SClose false)] eq_refl)).
  - split; [reflexivity|]. split; [exact (proj1 (proj2 (proj2 (proj2 H2))))|].
    exact (proj1 (proj2 (proj2 (proj2 (proj2 H2)))
                    [CallWrite (PData ("EHLO client" ++ CRLF)%string) None;
                     SockEmit 1 (SError (Error "reset"))] eq_refl)).
Defined.

(** ** Removing listeners *)

Lemma existsb_filter_implied {A : Type} (P U : A -> bool) (l : list A) :
  (forall x, P x = true -> U x = true) ->
  existsb P (List.filter U l) = existsb P l.
Proof.
  intros HPU. induction l as [|x l IH]; simpl; [reflexivity|].
  destruct (U x) eqn:EU; simpl; rewrite IH; [reflexivity|].
  destruct (P x) eqn:EP; [|reflexivity]. rewrite (HPU x EP) in EU. discriminate.
Qed.

Lemma filter_remove_last {A : Type} (P U : A -> bool) (l : list A) :
  (forall x, P x = true -> U x = true) ->
  List.filter U (remove_last P l) = remove_last P (List.filter U l).
Proof.
  intros HPU. induction l as [|x l IH]; simpl; [reflexivity|].
  destruct (U x) eqn:EU; simpl.
  - rewrite (existsb_filter_implied P U l HPU).
    destruct (P x && negb (existsb P l)); [reflexivity|].
    simpl. rewrite EU, IH. reflexivity.
  - destruct (P x) eqn:EP; [rewrite (HPU x EP) in EU; discriminate|].
    simpl. rewrite EU. exact IH.
Qed.

Lemma filter_filter_comm {A : Type} (f g : A -> bool) (l : list A) :
  List.filter f (List.filter g l) = List.filter g (List.filter f l).
Proof.
  induction l as [|x l IH]; simpl; [reflexivity|].
  destruct (f x) eqn:Ef, (g x) eqn:Eg; simpl; rewrite ?Ef, ?Eg, IH; reflexivity.
Qed.

Lemma filter_orb_r {A : Type} (f g : A -> bool) (l : list A) :
  List.filter g l = [] ->
  List.filter (fun x => f x || g x) l = List.filter f l.
Proof.
  intros Hg. apply List.filter_ext_in. intros x Hx.
  rewrite (filter_nil_false g l x Hg Hx). apply orb_false_r.
Qed.

Lemma filter_singleton_split {A : Type} (U : A -> bool) (l : list A) (x : A) :
  List.filter U l = [x] ->
  exists l1 l2, l = l1 ++ x :: l2 /\
                (forall y, In y l1 -> U y = false) /\
                (forall y, In y l2 -> U y = false).
Proof.
  induction l as [|y l IH]; simpl; [discriminate|].
  destruct (U y) eqn:E.
  - intros [= -> Hl]. exists [], l. split; [reflexivity|]. split; [intros z []|].
    intros z Hz. eapply filter_nil_false; eauto.
  - intros Hl. destruct (IH Hl) as (l1 & l2 & -> & H1 & H2).
    exists (y :: l1), l2. split; [reflexivity|]. split; [|exact H2].
    intros z [<-|Hz]; auto.
Qed.

Lemma is_reg_self (s : nat) (l : listener) (o : bool) : is_reg s l (Reg s l o) = true.
Proof.
  unfold is_reg. simpl. rewrite Nat.eqb_refl. simpl. apply bool_decide_eq_true. reflexivity.
Qed.

Lemma is_reg_other (s s' : nat) (l l' : listener) (o : bool) :
  l' <> l -> is_reg s l (Reg s' l' o) = false.
Proof.
  intros H. unfold is_reg. simpl. apply andb_false_iff. right.
  apply bool_decide_eq_false. exact H.
Qed.

Lemma is_reg_of_cmd (k s : nat) (l : listener) (r : reg) :
  of_cmd k l = true -> is_reg s l r = true -> of_cmd k (r_fn r) = true.
Proof.
  intros Hl H. unfold is_reg in H. apply andb_true_iff in H as [_ H].
  apply bool_decide_eq_true in H. rewrite H. exact Hl.
Qed.

(** Of the registrations of a command that arming made, nothing is left once
    both [removeListener] calls were made, in either order. *)
Lemma cmd_regs_removed (k s : nat) (l1 l2 : listener) (rs : list reg) :
  (l1 = OnCloseCmd k /\ l2 = OnErrorCmd k) \/ (l1 = OnErrorCmd k /\ l2 = OnCloseCmd k) ->
  (List.filter (fun r => of_cmd k (r_fn r)) rs =
     [Reg s (OnCloseCmd k) true; Reg s (OnErrorCmd k) true] \/
   List.filter (fun r => of_cmd k (r_fn r)) rs = [Reg s (OnCloseCmd k) true]) ->
  List.filter (fun r => of_cmd k (r_fn r))
    (remove_last (is_reg s l2) (remove_last (is_reg s l1) rs)) = [].
Proof.
  intros Hl Hrs.
  assert (H1 : of_cmd k l1 = true /\ of_cmd k l2 = true).
  { destruct Hl as [[-> ->]|[-> ->]]; simpl; rewrite Nat.eqb_refl; auto. }
  destruct H1 as [H1 H2].
  rewrite filter_remove_last by (intros r; apply is_reg_of_cmd; exact H2).
  rewrite filter_remove_last by (intros r; apply is_reg_of_cmd; exact H1).
  destruct Hl as [[-> ->]|[-> ->]], Hrs as [-> | ->]; simpl;
    rewrite ?is_reg_self, ?(is_reg_other s s (OnCloseCmd k) (OnErrorCmd k)),
      ?(is_reg_other s s (OnErrorCmd k) (OnCloseCmd k)) by discriminate;
    simpl; rewrite ?is_reg_self, ?(is_reg_other s s (OnCloseCmd k) (OnErrorCmd k)),
      ?(is_reg_other s s (OnErrorCmd k) (OnCloseCmd k)) by discriminate;
    reflexivity.
Qed.

Lemma cmd_lines_removed (k : nat) (ls : list nat) :
  List.filter (Nat.eqb k) ls = [k] ->
  List.filter (Nat.eqb k) (remove_last (Nat.eqb k) ls) = [].
Proof.
  intros H. rewrite filter_remove_last by auto. rewrite H. simpl.
  rewrite Nat.eqb_refl. reflexivity.
Qed.

(** ** What the closures of a command compute *)

Lemma settle_spec (q : nat) (x : pstate) (st : channel) :
  exists ps,
    settle q x st = (inr tt, set_promises ps st) /\
    length ps = length (promises st) /\
    ps !! q = settled_to x (promises st !! q).
Proof.
  unfold settle, modify.
  destruct (promises st !! q) as [[| |]|] eqn:E.
  - eexists. split; [reflexivity|]. split; [apply length_insert|].
    apply list_lookup_insert_eq. eapply lookup_lt_Some. exact E.
  - exists (promises st). split; [destruct st; reflexivity|]. auto.
  - exists (promises st). split; [destruct st; reflexivity|]. auto.
  - exists (promises st). split; [destruct st; reflexivity|]. auto.
Qed.

Lemma reject_spec (q : nat) (e : exn) (st : channel) :
  exists ps,
    reject q e st =
      (inr tt, set_promises ps (set_trace (trace st ++ [CallReject q e]) st)) /\
    length ps = length (promises st) /\
    ps !! q = settled_to (Rejected e) (promises st !! q).
Proof.
  unfold reject, bind, log, modify.
  destruct (settle_spec q (Rejected e) (set_trace (trace st ++ [CallReject q e]) st))
    as (ps & E & H1 & H2).
  exists ps. rewrite E. auto.
Qed.

Lemma resolve_spec (q : nat) (x : jsval) (st : channel) :
  exists ps,
    resolve q x st =
      (inr tt, set_promises ps (set_trace (trace st ++ [CallResolve q x]) st)) /\
    length ps = length (promises st) /\
    ps !! q = settled_to (Fulfilled x) (promises st !! q).
Proof.
  unfold resolve, bind, log, modify.
  destruct (settle_spec q (Fulfilled x) (set_trace (trace st ++ [CallResolve q x]) st))
    as (ps & E & H1 & H2).
  exists ps. rewrite E. auto.
Qed.

Lemma cmd_reject_spec (k p : nat) (h : option handler) (e : exn) (st : channel) :
  commands st !! k = Some (Command p h) -> cmd_reject k e st = reject p e st.
Proof. intros H. unfold cmd_reject, bind, gets. rewrite H. reflexivity. Qed.

Lemma cmd_resolve_spec (k p : nat) (h : option handler) (x : jsval) (st : channel) :
  commands st !! k = Some (Command p h) -> cmd_resolve k x st = resolve p x st.
Proof. intros H. unfold cmd_resolve, bind, gets. rewrite H. reflexivity. Qed.

(** The socket's close event reaches the [onClose] of command [k]. *)
Lemma fire_close_spec (k s p : nat) (h : option handler) (b : bool) (st : channel) :
  commands st !! k = Some (Command p h) ->
  exists ps,
    fire (SClose b) (Reg s (OnCloseCmd k) true) st =
      (inr tt,
       set_promises ps
         (set_trace (trace st ++ [CallReject p closed_unexpectedly])
            (set_receiveBuffer
               (lb_with_listeners
                  (remove_last (Nat.eqb k) (lb_listeners (_receiveBuffer st)))
                  (_receiveBuffer st))
               (set_regs
                  (match _socket st with
                   | Some s' =>
                       remove_last (is_reg s' (OnErrorCmd k))
                         (remove_last (is_reg s (OnCloseCmd k)) (regs st))
                   | None => remove_last (is_reg s (OnCloseCmd k)) (regs st)
                   end) st)))) /\
    length ps = length (promises st) /\
    ps !! p = settled_to (Rejected closed_unexpectedly) (promises st !! p).
Proof.
  intros Hc.
  set (st1 := set_receiveBuffer
               (lb_with_listeners
                  (remove_last (Nat.eqb k) (lb_listeners (_receiveBuffer st)))
                  (_receiveBuffer st))
               (set_regs
                  (match _socket st with
                   | Some s' =>
                       remove_last (is_reg s' (OnErrorCmd k))
                         (remove_last (is_reg s (OnCloseCmd k)) (regs st))
                   | None => remove_last (is_reg s (OnCloseCmd k)) (regs st)
                   end) st)).
  assert (E : fire (SClose b) (Reg s (OnCloseCmd k) true) st =
              reject p closed_unexpectedly st1).
  { rewrite <- (cmd_reject_spec k p h) by (destruct st; exact Hc).
    unfold st1. destruct st as [? [s'|] ? ? ? ? ? ? ? ? ? ?]; reflexivity. }
  destruct (reject_spec p closed_unexpectedly st1) as (ps & E' & H1 & H2).
  exists ps. rewrite E, E'. split; [reflexivity|]. split; [exact H1|exact H2].
Qed.

(** The socket's error event reaches the [onError] of command [k]. *)
Lemma fire_error_spec (k s s' p : nat) (h : option handler) (e : exn) (st : channel) :
  commands st !! k = Some (Command p h) -> _socket st = Some s' ->
  exists ps,
    fire (SError e) (Reg s (OnErrorCmd k) true) st =
      (inr tt,
       set_promises ps
         (set_trace (trace st ++ [CallReject p e])
            (set_receiveBuffer
               (lb_with_listeners
                  (remove_last (Nat.eqb k) (lb_listeners (_receiveBuffer st)))
                  (_receiveBuffer st))
               (set_regs
                  (remove_last (is_reg s' (OnCloseCmd k))
                     (remove_last (is_reg s (OnErrorCmd k)) (regs st))) st)))) /\
    length ps = length (promises st) /\
    ps !! p = settled_to (Rejected e) (promises st !! p).
Proof.
  intros Hc Hs.
  set (st1 := set_receiveBuffer
               (lb_with_listeners
                  (remove_last (Nat.eqb k) (lb_listeners (_receiveBuffer st)))
                  (_receiveBuffer st))
               (set_regs
                  (remove_last (is_reg s' (OnCloseCmd k))
                     (remove_last (is_reg s (OnErrorCmd k)) (regs st))) st)).
  assert (E : fire (SError e) (Reg s (OnErrorCmd k) true) st = reject p e st1).
  { rewrite <- (cmd_reject_spec k p h) by (destruct st; exact Hc).
    unfold st1. destruct st. simpl in Hs. subst. reflexivity. }
  destruct (reject_spec p e st1) as (ps & E' & H1 & H2).
  exists ps. rewrite E, E'. split; [reflexivity|]. split; [exact H1|exact H2].
Qed.

(** A line reaches the [onLine] of command [k]. *)
Lemma onLine_terminal (k s : nat) (line : string) (st : channel) :
  truthy (isLastReply line) = true -> _socket st = Some s ->
  onLine k line st =
    (inr tt,
     set_receiveBuffer
       (lb_with_listeners
          (remove_last (Nat.eqb k) (lb_listeners (_receiveBuffer st)))
          (_receiveBuffer st))
       (set_regs
          (remove_last (is_reg s (OnErrorCmd k))
             (remove_last (is_reg s (OnCloseCmd k)) (regs st)))
          (set_microtasks
             (microtasks st ++
              [JHandler k line (ReplyArgs (isLastReply line) (parseReplyCode line))])
             st))).
Proof.
  intros Hl Hs. unfold onLine. rewrite Hl. destruct st. simpl in Hs. subst. reflexivity.
Qed.

Lemma onLine_continuation (k : nat) (line : string) (st : channel) :
  truthy (isLastReply line) = false ->
  onLine k line st =
    (inr tt,
     set_microtasks
       (microtasks st ++
        [JHandler k line (ReplyArgs (isLastReply line) (parseReplyCode line))]) st).
Proof. intros Hl. unfold onLine. rewrite Hl. destruct st. reflexivity. Qed.

(** ** The reactions of one line *)

Lemma run_job_handler (k p : nat) (h : option handler) (line : string)
    (args : reply_args) (st : channel) :
  commands st !! k = Some (Command p h) ->
  run_job (JHandler k line args) st =
    (inr tt,
     match h with
     | Some f =>
         set_microtasks (microtasks st ++ [JSettle k (f line args) args])
           (set_trace (trace st ++ [CallHandler k line args]) st)
     | None => set_microtasks (microtasks st ++ [JSettle k None args]) st
     end).
Proof.
  intros H. unfold run_job, bind, gets. rewrite H. destruct h; reflexivity.
Qed.

Lemma run_job_settle (k p : nat) (h : option handler) (args : reply_args) (st : channel) :
  commands st !! k = Some (Command p h) ->
  run_job (JSettle k None args) st =
    ((if truthy (isLast args) then resolve p (code args) else ret tt) ;;
     enqueue (JCatch k None)) st.
Proof.
  intros H. unfold run_job. unfold bind.
  destruct (truthy (isLast args)); [|reflexivity].
  rewrite (cmd_resolve_spec k p h) by exact H. reflexivity.
Qed.

Lemma run_job_catch (k p : nat) (h : option handler) (e : exn) (st : channel) :
  commands st !! k = Some (Command p h) ->
  run_job (JCatch k (Some e)) st = reject p e st.
Proof. intros H. apply (cmd_reject_spec k p h), H. Qed.

Lemma calls_snoc (p : nat) (tr : list effect) (e : effect) :
  calls p (tr ++ [e]) = calls p tr ++ (if is_call p e then [e] else []).
Proof. unfold calls. rewrite List.filter_app. simpl. destruct (is_call p e); reflexivity. Qed.

(** The three reactions queued for a terminal line call the handler, if
    there is one, and then [resolve] with the code, or [reject] with what the
    handler threw: one call. *)
Lemma terminal_chain (k p : nat) (h : option handler) (line : string) (st : channel) :
  commands st !! k = Some (Command p h) ->
  truthy (isLastReply line) = true ->
  microtasks st =
    [JHandler k line (ReplyArgs (isLastReply line) (parseReplyCode line))] ->
  exists ps tr,
    run_microtasks st = (inr tt, set_promises ps (set_trace tr (set_microtasks [] st))) /\
    length ps = length (promises st) /\
    calls p tr = calls p (trace st) ++ [terminal_call p h line].
Proof.
  intros Hc Hl Hq. unfold run_microtasks, bind, gets. rewrite Hq.
  change (list_sum (map job_weight
            [JHandler k line (ReplyArgs (isLastReply line) (parseReplyCode line))]))
    with 3.
  rewrite drain_step, Hq. unfold bind at 1.
  rewrite (run_job_handler k p h) by (destruct st; exact Hc).
  unfold terminal_call, handler_result.
  destruct h as [f|].
  - destruct (f line (ReplyArgs (isLastReply line) (parseReplyCode line))) as [e|] eqn:Ef.
    + (* the handler throws *)
      rewrite drain_step. cbn [microtasks set_microtasks set_trace app]. unfold bind at 1.
      cbn [run_job]. unfold enqueue at 1, modify at 1.
      rewrite drain_step. cbn [microtasks set_microtasks app]. unfold bind at 1.
      match goal with |- context [run_job (JCatch k (Some e)) ?x] =>
        rewrite (run_job_catch k p (Some f) e x) by (destruct st; exact Hc);
        destruct (reject_spec p e x) as (ps & E & H1 & _); rewrite E
      end.
      exists ps. eexists. split; [destruct st; reflexivity|]. split.
      * rewrite H1. destruct st; reflexivity.
      * cbn [trace set_trace set_microtasks]. rewrite !calls_snoc. simpl.
        rewrite Nat.eqb_refl, app_nil_r. reflexivity.
    + (* the handler returns *)
      rewrite drain_step. cbn [microtasks set_microtasks set_trace app]. unfold bind at 1.
      match goal with |- context [run_job (JSettle k None ?a) ?x] =>
        rewrite (run_job_settle k p (Some f) a x) by (destruct st; exact Hc);
        cbn [isLast code]; rewrite Hl; unfold bind at 1;
        destruct (resolve_spec p (parseReplyCode line) x) as (ps & E & H1 & _); rewrite E
      end.
      unfold enqueue at 1, modify at 1.
      rewrite drain_step. cbn [microtasks set_microtasks set_promises set_trace app].
      exists ps. eexists. split; [destruct st; reflexivity|]. split.
      * rewrite H1. destruct st; reflexivity.
      * cbn [trace set_trace set_microtasks]. rewrite !calls_snoc. simpl.
        rewrite Nat.eqb_refl, app_nil_r. reflexivity.
  - (* no handler *)
    rewrite drain_step. cbn [microtasks set_microtasks set_trace app]. unfold bind at 1.
    match goal with |- context [run_job (JSettle k None ?a) ?x] =>
      rewrite (run_job_settle k p None a x) by (destruct st; exact Hc);
      cbn [isLast code]; rewrite Hl; unfold bind at 1;
      destruct (resolve_spec p (parseReplyCode line) x) as (ps & E & H1 & _); rewrite E
    end.
    unfold enqueue at 1, modify at 1.
    rewrite drain_step. cbn [microtasks set_microtasks set_promises set_trace app].
    exists ps. eexists. split; [destruct st; reflexivity|]. split.
    + rewrite H1. destruct st; reflexivity.
    + cbn [trace set_trace set_microtasks]. rewrite !calls_snoc. simpl.
      rewrite Nat.eqb_refl. reflexivity.
Qed.

(** ** Armed and detached commands *)

Lemma filter_all_true {A : Type} (f : A -> bool) (l : list A) :
  (forall x, In x l -> f x = true) -> List.filter f l = l.
Proof.
  induction l as [|x l IH]; intros H; simpl; [reflexivity|].
  rewrite (H x) by (left; reflexivity). f_equal. apply IH. intros y Hy. apply H.
  right. exact Hy.
Qed.

Lemma unsafe_split (k p : nat) (l : listener) :
  unsafe_fn (Nat.eqb k) p l = of_cmd k l || of_promise p l.
Proof. destruct l; simpl; rewrite ?orb_false_r; reflexivity. Qed.

Lemma unsafe_regs_owned (k p : nat) (st : channel) :
  owns k p st ->
  List.filter (fun r => unsafe_fn (Nat.eqb k) p (r_fn r)) (regs st) = cmd_regs k st.
Proof.
  intros (_ & _ & _ & Hp). unfold cmd_regs.
  rewrite <- (filter_orb_r (fun r => of_cmd k (r_fn r)) (fun r => of_promise p (r_fn r)))
    by exact Hp.
  apply List.filter_ext. intros r. apply unsafe_split.
Qed.

Lemma jobs_not_cmd (k : nat) (q : list job) :
  Forall (fun j => job_cmd j <> k) q <-> Forall (fun j => Nat.eqb k (job_cmd j) = false) q.
Proof.
  split; intros H; (eapply Forall_impl; [exact H|]); intros j Hj; simpl in *.
  - apply Nat.eqb_neq. congruence.
  - apply Nat.eqb_neq in Hj. congruence.
Qed.

Lemma owns_Iso_base (k p : nat) (st : channel) :
  owns k p st ->
  p < length (promises st) /\
  (forall k' cmd, commands st !! k' = Some cmd -> c_promise cmd = p -> Nat.eqb k k' = true) /\
  (forall k', Nat.eqb k k' = true -> k' < length (commands st)).
Proof.
  intros ((h & Hc) & Hp & Hu & _). split; [exact Hp|]. split.
  - intros k' cmd Hk' Hcp. apply Nat.eqb_eq. symmetry. eapply Hu; eauto.
  - intros k' Hk'. apply Nat.eqb_eq in Hk'. subst k'. eapply lookup_lt_Some. exact Hc.
Qed.

(** An armed command whose promise is its own is isolated up to its own
    registrations. *)
Lemma armed_Iso (k s p : nat) (st : channel) :
  armed k s st -> owns k p st ->
  Iso (Nat.eqb k) p (cmd_regs k st) [k] (calls p (trace st)) (promises st !! p) st.
Proof.
  intros (Hr & Hl & Hs & Hj) Ho. destruct (owns_Iso_base k p st Ho) as (H1 & H2 & H3).
  constructor; auto.
  - rewrite (unsafe_regs_owned k p st Ho). reflexivity.
  - unfold cmd_lines in Hl. rewrite Hl. reflexivity.
  - apply jobs_not_cmd, Hj.
Qed.

Lemma detached_Iso (k p : nat) (st : channel) :
  detached k st -> owns k p st ->
  Iso (Nat.eqb k) p [] [] (calls p (trace st)) (promises st !! p) st.
Proof.
  intros (Hr & Hl & Hs & Hj) Ho. destruct (owns_Iso_base k p st Ho) as (H1 & H2 & H3).
  constructor; auto.
  - rewrite (unsafe_regs_owned k p st Ho), Hr. reflexivity.
  - unfold cmd_lines in Hl. rewrite Hl. reflexivity.
  - apply jobs_not_cmd, Hj.
Qed.

Lemma Iso_cmd_regs (k p : nat) (A : list reg) (L : list nat) (c : list effect)
    (v : option pstate) (st : channel) :
  Iso (Nat.eqb k) p A L c v st ->
  sublist (cmd_regs k st) (List.filter (fun r => of_cmd k (r_fn r)) A) /\
  sublist (List.filter (fun r => of_promise p (r_fn r)) (regs st))
          (List.filter (fun r => of_promise p (r_fn r)) A).
Proof.
  intros H. pose proof (iso_regs _ _ _ _ _ _ _ H) as Hr. split.
  - unfold cmd_regs.
    replace (List.filter (fun r => of_cmd k (r_fn r)) (regs st))
      with (List.filter (fun r => of_cmd k (r_fn r))
              (List.filter (fun r => unsafe_fn (Nat.eqb k) p (r_fn r)) (regs st))).
    + apply sublist_filter_mono, Hr.
    + rewrite filter_filter_comm. apply filter_all_true. intros r Hr'.
      apply filter_In in Hr' as [_ Hr']. rewrite unsafe_split, Hr'. reflexivity.
  - replace (List.filter (fun r => of_promise p (r_fn r)) (regs st))
      with (List.filter (fun r => of_promise p (r_fn r))
              (List.filter (fun r => unsafe_fn (Nat.eqb k) p (r_fn r)) (regs st))).
    + apply sublist_filter_mono, Hr.
    + rewrite filter_filter_comm. apply filter_all_true. intros r Hr'.
      apply filter_In in Hr' as [_ Hr']. rewrite unsafe_split, Hr'. apply orb_true_r.
Qed.

Lemma Iso_detached (k p : nat) (c : list effect) (v : option pstate) (h : option handler)
    (st : channel) :
  Iso (Nat.eqb k) p [] [] c v st -> commands st !! k = Some (Command p h) ->
  detached k st /\ owns k p st.
Proof.
  intros H Hc. destruct (Iso_cmd_regs k p _ _ _ _ _ H) as [Hr Hp]. simpl in Hr, Hp.
  apply sublist_nil_r in Hr, Hp. split.
  - split; [exact Hr|]. split.
    + apply sublist_nil_r. exact (iso_lines _ _ _ _ _ _ _ H).
    + split; [exact (iso_send _ _ _ _ _ _ _ H)|].
      apply jobs_not_cmd. exact (iso_jobs _ _ _ _ _ _ _ H).
  - split; [eauto|]. split; [exact (iso_range _ _ _ _ _ _ _ H)|]. split; [|exact Hp].
    intros k' cmd Hk' Hcp. symmetry. apply Nat.eqb_eq.
    exact (iso_owner _ _ _ _ _ _ _ H k' cmd Hk' Hcp).
Qed.

(** Once a command is detached, no turn calls the functions of its promise
    and no turn attaches it again. *)
Lemma detached_turn (k p : nat) (i : input) (st : channel) :
  detached k st -> owns k p st ->
  detached k (turn i st) /\ owns k p (turn i st) /\
  calls p (trace (turn i st)) = calls p (trace st) /\
  promises (turn i st) !! p = promises st !! p.
Proof.
  intros Hd Ho. pose proof (detached_Iso k p st Hd Ho) as HI.
  destruct Ho as ((h & Hc) & Ho).
  assert (HI' : Iso (Nat.eqb k) p [] [] (calls p (trace st)) (promises st !! p) (turn i st)).
  { apply Iso_turn; [|exact HI]. destruct i; simpl; auto. split; [intros r []|auto]. }
  destruct (Iso_detached k p _ _ h _ HI' (command_turn k _ i st Hc)) as [Hd' Ho'].
  split; [exact Hd'|]. split; [exact Ho'|]. split.
  - exact (iso_calls _ _ _ _ _ _ _ HI').
  - exact (iso_state _ _ _ _ _ _ _ HI').
Qed.

(** The state a command is left in when both [removeListener] calls on its
    socket and the one on the receive buffer were made. *)
Lemma detach_result (k s p : nat) (l1 l2 : listener) (st st' : channel) :
  armed k s st -> owns k p st ->
  (l1 = OnCloseCmd k /\ l2 = OnErrorCmd k) \/ (l1 = OnErrorCmd k /\ l2 = OnCloseCmd k) ->
  commands st' = commands st ->
  length (promises st') = length (promises st) ->
  regs st' = remove_last (is_reg s l2) (remove_last (is_reg s l1) (regs st)) ->
  lb_listeners (_receiveBuffer st') =
    remove_last (Nat.eqb k) (lb_listeners (_receiveBuffer st)) ->
  lb_listeners (_sendBuffer st') = lb_listeners (_sendBuffer st) ->
  Forall (fun j => job_cmd j <> k) (microtasks st') ->
  detached k st' /\ owns k p st'.
Proof.
  intros (Hr & Hl & Hs & _) (Hc & Hp & Hu & Hf) Hord Ec Ep Er El Es Hj. split.
  - split.
    + unfold cmd_regs. rewrite Er. apply (cmd_regs_removed k s l1 l2); assumption.
    + split; [unfold cmd_lines; rewrite El; apply cmd_lines_removed, Hl|].
      split; [rewrite Es; exact Hs|exact Hj].
  - split; [rewrite Ec; exact Hc|]. split; [rewrite Ep; exact Hp|].
    split; [rewrite Ec; exact Hu|].
    apply sublist_nil_r. rewrite <- Hf. apply sublist_filter_mono. rewrite Er.
    etransitivity; apply remove_last_sublist.
Qed.

(** ** C1: settlement of a command *)

(** C1, as the specification states it, fails in three ways. A handler
    that throws on a line that is not terminal settles the command (its
    promise is rejected) while the three listeners stay registered, and the
    next line calls the resolver after that settlement. When the terminal line
    comes in the same chunk as that line, the terminal-line path calls
    [resolve] and the rejection for the earlier line follows it: two calls on
    one promise. And when the socket of a command armed by [write] closes,
    [_onClose] has cleared [_socket] before the command's [onClose] runs, so
    the [onError] that arming registered is left on the socket. *)
Lemma C1_counterexample :
  (promises sample_first_line !! 1 = Some (Rejected (Error "handler failed")) /\
   cmd_regs 1 sample_first_line = [Reg 0 (OnCloseCmd 1) true; Reg 0 (OnErrorCmd 1) true] /\
   cmd_lines 1 sample_first_line = [1] /\
   calls 1 (trace sample_second_line) =
     [CallReject 1 (Error "handler failed"); CallResolve 1 (JStr "250")]) /\
  (calls 1 (trace sample_handled) = [] /\
   calls 1 (trace sample_both_lines) =
     [CallResolve 1 (JStr "250"); CallReject 1 (Error "handler failed")]) /\
  (cmd_regs 1 sample_writing = [Reg 0 (OnCloseCmd 1) true; Reg 0 (OnErrorCmd 1) true] /\
   promises (turn (SockEmit 0 (SClose false)) sample_writing) !! 1 =
     Some (Rejected closed_unexpectedly) /\
   cmd_regs 1 (turn (SockEmit 0 (SClose false)) sample_writing) =
     [Reg 0 (OnErrorCmd 1) true]).
Proof. vm_compute. repeat split; reflexivity. Qed.

Lemma sample_writing_armed : armed 1 0 sample_writing.
Proof.
  split; [left; vm_compute; reflexivity|]. split; [vm_compute; reflexivity|].
  split; [vm_compute; reflexivity|]. vm_compute. constructor.
Qed.

Lemma sample_writing_owns : owns 1 1 sample_writing.
Proof.
  split; [exists None; vm_compute; reflexivity|]. split; [vm_compute; lia|]. split.
  - intros [|[|k']] c H Hp; vm_compute in H.
    + injection H as <-. discriminate Hp.
    + reflexivity.
    + discriminate H.
  - vm_compute. reflexivity.
Qed.

(** ** C5: the socket closes while a command is armed *)

Lemma sublist_pair_cases {A : Type} (a b : A) (X : list A) :
  sublist X [a; b] -> X = [] \/ X = [a] \/ X = [b] \/ X = [a; b].
Proof.
  intros H. inversion H as [|x l1 l2 H1|x l1 l2 H1]; subst.
  - inversion H1 as [|y l3 l4 H2|y l3 l4 H2]; subst.
    + apply sublist_nil_r in H2. subst. auto.
    + apply sublist_nil_r in H2. subst. auto.
  - inversion H1 as [|y l3 l4 H2|y l3 l4 H2]; subst.
    + apply sublist_nil_r in H2. subst. auto.
    + apply sublist_nil_r in H2. subst. auto.
Qed.

Lemma remove_last_pair {A : Type} (P : A -> bool) (a b : A) (X : list A) :
  sublist X [a; b] -> P a = true -> P b = false -> sublist (remove_last P X) [b].
Proof.
  intros H Ha Hb.
  destruct (sublist_pair_cases a b X H) as [-> | [-> | [-> | ->]]]; simpl;
    rewrite ?Ha, ?Hb; simpl; rewrite ?Ha, ?Hb; simpl;
    first [reflexivity | apply sublist_nil_l].
Qed.

Lemma remove_last_single {A : Type} (P : A -> bool) (a : A) (X : list A) :
  sublist X [a] -> P a = true -> remove_last P X = [].
Proof.
  intros H Ha. inversion H as [|x l1 l2 H1|x l1 l2 H1]; subst;
    apply sublist_nil_r in H1; subst; simpl; rewrite ?Ha; reflexivity.
Qed.

Lemma is_reg_unsafe (k s p : nat) (l : listener) (r : reg) :
  of_cmd k l = true -> is_reg s l r = true -> unsafe_fn (Nat.eqb k) p (r_fn r) = true.
Proof.
  intros Hl H. rewrite unsafe_split, (is_reg_of_cmd k s l r Hl H). reflexivity.
Qed.

(** The close event reaches [onClose] of an armed command: afterwards only
    its [onError] may still be registered. *)
Lemma fire_close_Iso (k s p : nat) (h : option handler) (b : bool) (A : list reg)
    (c : list effect) (v : option pstate) (st : channel) :
  Iso (Nat.eqb k) p A [k] c v st ->
  sublist A [Reg s (OnCloseCmd k) true; Reg s (OnErrorCmd k) true] ->
  commands st !! k = Some (Command p h) ->
  Iso (Nat.eqb k) p [Reg s (OnErrorCmd k) true] []
      (c ++ [CallReject p closed_unexpectedly])
      (settled_to (Rejected closed_unexpectedly) v)
      (snd (fire (SClose b) (Reg s (OnCloseCmd k) true) st)).
Proof.
  intros [H1 H2 H3 H4 H5 H6 H7 H8 H9] HA Hc.
  destruct (fire_close_spec k s p h b st Hc) as (ps & E & Hlen & Hps).
  rewrite E. cbn [snd].
  assert (Hclose : sublist
            (List.filter (fun r => unsafe_fn (Nat.eqb k) p (r_fn r))
               (remove_last (is_reg s (OnCloseCmd k)) (regs st)))
            [Reg s (OnErrorCmd k) true]).
  { rewrite filter_remove_last.
    - apply remove_last_pair with (a := Reg s (OnCloseCmd k) true).
      + etransitivity; [exact H4|exact HA].
      + apply is_reg_self.
      + apply is_reg_other. discriminate.
    - intros r. apply is_reg_unsafe. simpl. apply Nat.eqb_refl. }
  constructor; cbn.
  - rewrite Hlen. exact H1.
  - exact H2.
  - exact H3.
  - destruct (_socket st) as [s'|]; [|exact Hclose].
    etransitivity; [|exact Hclose]. apply sublist_filter_mono, remove_last_sublist.
  - rewrite filter_remove_last by auto.
    rewrite (remove_last_single (Nat.eqb k) k _ H5 (Nat.eqb_refl k)). reflexivity.
  - exact H6.
  - exact H7.
  - change (calls p (trace st ++ [CallReject p closed_unexpectedly]) =
            c ++ [CallReject p closed_unexpectedly]).
    rewrite calls_snoc, H8. simpl. rewrite Nat.eqb_refl. reflexivity.
  - rewrite Hps, H9. reflexivity.
Qed.

Lemma command_for_each_fire (k : nat) (c : command) (ev : sevent) (rs : list reg)
    (st : channel) :
  commands st !! k = Some c -> commands (snd (for_each (fire ev) rs st)) !! k = Some c.
Proof.
  intros H.
  apply (hoare_for_each (fun st => commands st !! k = Some c) (fire ev) rs); [|exact H].
  intros r _.
  apply (inv_fire _ _ _ _ _ _ (command_carried k c)); [apply okl_trivial|auto].
Qed.

Lemma Iso_run_microtasks (D : nat -> bool) (p : nat) (A : list reg) (L : list nat)
    (c : list effect) (v : option pstate) (st : channel) :
  Iso D p A L c v st -> Iso D p A L c v (snd (run_microtasks st)).
Proof. apply (inv_run_microtasks _ _ _ _ _ _ (Iso_carried D p A L c v)). Qed.

(** The whole turn of the close event. *)
Lemma close_turn_Iso (k s p : nat) (h : option handler) (b : bool) (st : channel) :
  armed k s st -> owns k p st -> commands st !! k = Some (Command p h) ->
  Iso (Nat.eqb k) p [Reg s (OnErrorCmd k) true] []
      (calls p (trace st) ++ [CallReject p closed_unexpectedly])
      (settled_to (Rejected closed_unexpectedly) (promises st !! p))
      (turn (SockEmit s (SClose b)) st).
Proof.
  intros Ha Ho Hc. pose proof (armed_Iso k s p st Ha Ho) as HI.
  set (rc := Reg s (OnCloseCmd k) true). set (re := Reg s (OnErrorCmd k) true).
  set (U := fun r => unsafe_fn (Nat.eqb k) p (r_fn r)).
  assert (HA : sublist (cmd_regs k st) [rc; re]).
  { destruct Ha as ([-> | ->] & _); [reflexivity|].
    apply sublist_skip, sublist_nil_l. }
  assert (Hsnap : List.filter U (List.filter (on_event s EvClose) (regs st)) = [rc]).
  { rewrite filter_filter_comm. unfold U. rewrite (unsafe_regs_owned k p st Ho).
    destruct Ha as ([-> | ->] & _); cbn [List.filter]; unfold rc, re;
      rewrite !on_event_Reg, Nat.eqb_refl; reflexivity. }
  destruct (filter_singleton_split U _ rc Hsnap) as (l1 & l2 & Esnap & Hl1 & Hl2).
  assert (Hev : forall r, In r (l1 ++ rc :: l2) -> event_of (r_fn r) = EvClose).
  { intros r Hr. rewrite <- Esnap in Hr. apply filter_In in Hr as [_ Hr].
    apply on_event_spec in Hr. tauto. }
  assert (Hsafe : forall (L : list nat) l, (l = l1 \/ l = l2) -> forall r, In r l ->
            unsafe_fn (Nat.eqb k) p (r_fn r) = false /\ (r_fn r = BoundOnReceive -> L = [])).
  { intros L l Hl r Hr. split.
    - destruct Hl as [-> | ->]; [apply Hl1|apply Hl2]; exact Hr.
    - intros Hfn. assert (Hin : In r (l1 ++ rc :: l2)).
      { apply in_or_app. destruct Hl as [-> | ->]; [left|right; right]; exact Hr. }
      specialize (Hev r Hin). rewrite Hfn in Hev. discriminate. }
  unfold turn. simpl perform. rewrite sock_emit_close, Esnap, for_each_app.
  unfold bind at 1.
  (* the listeners registered before [onClose] *)
  destruct (close_dispatch b l1 st) as [Hret1 _].
  { intros r Hr. apply Hev, in_or_app. left. exact Hr. }
  pose proof (Iso_for_each_fire _ _ _ _ _ _ (SClose b) l1 st (Hsafe [k] l1 (or_introl eq_refl)) HI)
    as HI1.
  pose proof (command_for_each_fire k _ (SClose b) l1 st Hc) as Hc1.
  destruct (for_each (fire (SClose b)) l1 st) as [[e|u] st_a]; [discriminate|].
  cbn [snd] in HI1, Hc1. cbn [for_each]. unfold bind at 1.
  (* [onClose] itself *)
  pose proof (fire_close_Iso k s p h b _ _ _ st_a HI1 HA Hc1) as HI2.
  pose proof (fire_close_returns b rc st_a eq_refl) as Hret2.
  fold rc in HI2.
  destruct (fire (SClose b) rc st_a) as [[e|u'] st_b]; [discriminate|].
  cbn [snd] in HI2.
  (* the listeners registered after it *)
  destruct (close_dispatch b l2 st_b) as [Hret3 _].
  { intros r Hr. apply Hev, in_or_app. right. right. exact Hr. }
  pose proof (Iso_for_each_fire _ _ _ _ _ _ (SClose b) l2 st_b (Hsafe [] l2 (or_intror eq_refl)) HI2)
    as HI3.
  destruct (for_each (fire (SClose b)) l2 st_b) as [[e|u''] st_c]; [discriminate|].
  cbn [snd] in HI3. apply Iso_run_microtasks, HI3.
Qed.

(** C5 (as stated) fails: the command armed by [write] in [sample_writing]
    has its three listeners installed and its promise pending; the close
    event of its socket rejects the promise and removes [onLine], but
    [_onClose], registered at connect time, has cleared [_socket] before the
    command's [onClose] runs, and [onError] stays registered. *)
Lemma C5_counterexample :
  cmd_regs 1 sample_writing = [Reg 0 (OnCloseCmd 1) true; Reg 0 (OnErrorCmd 1) true] /\
  cmd_lines 1 sample_writing = [1] /\
  promises sample_writing !! 1 = Some Pending /\
  promises (turn (SockEmit 0 (SClose false)) sample_writing) !! 1 =
    Some (Rejected closed_unexpectedly) /\
  cmd_lines 1 (turn (SockEmit 0 (SClose false)) sample_writing) = [] /\
  cmd_regs 1 (turn (SockEmit 0 (SClose false)) sample_writing) =
    [Reg 0 (OnErrorCmd 1) true] /\
  _socket (turn (SockEmit 0 (SClose false)) sample_writing) = None.
Proof. vm_compute. repeat split; reflexivity. Qed.

(** C5 (amended): let command [k] with promise [p] be armed on socket [s].
    The turn of the close event of [s] calls [reject] of [p] once, with the
    error [Socket has closed unexpectedly], and makes no other call on [p]; a
    pending promise is rejected with that error. After the turn [onLine] and
    [onClose] are detached, and of the command's registrations at most
    [onError] is left. [onClose] removes [onError] as well when it runs while
    [_socket] is set (to [s]), and leaves it when [_socket] is already
    cleared. *)
Theorem C5_close_before_terminal_line (k s p : nat) (h : option handler) (b : bool)
    (st : channel) :
  armed k s st -> owns k p st -> commands st !! k = Some (Command p h) ->
  (calls p (trace (turn (SockEmit s (SClose b)) st)) =
     calls p (trace st) ++ [CallReject p closed_unexpectedly] /\
   (promises st !! p = Some Pending ->
    promises (turn (SockEmit s (SClose b)) st) !! p = Some (Rejected closed_unexpectedly)) /\
   cmd_lines k (turn (SockEmit s (SClose b)) st) = [] /\
   sublist (cmd_regs k (turn (SockEmit s (SClose b)) st)) [Reg s (OnErrorCmd k) true]) /\
  (_socket st = Some s ->
   cmd_regs k (after (fire (SClose b) (Reg s (OnCloseCmd k) true)) st) = []) /\
  (_socket st = None ->
   cmd_regs k (after (fire (SClose b) (Reg s (OnCloseCmd k) true)) st) =
     List.tl (cmd_regs k st)).
Proof.
  intros Ha Ho Hc.
  pose proof (close_turn_Iso k s p h b st Ha Ho Hc) as HI.
  split; [|split].
  - split; [exact (iso_calls _ _ _ _ _ _ _ HI)|]. split; [|split].
    + intros Hp. rewrite (iso_state _ _ _ _ _ _ _ HI), Hp. reflexivity.
    + apply sublist_nil_r. exact (iso_lines _ _ _ _ _ _ _ HI).
    + destruct (Iso_cmd_regs k p _ _ _ _ _ HI) as [Hr _].
      cbn [List.filter of_cmd r_fn] in Hr. rewrite Nat.eqb_refl in Hr. exact Hr.
  - intros Hs. unfold after.
    destruct (fire_close_spec k s p h b st Hc) as (ps & E & _).
    rewrite E, Hs. cbn [snd]. destruct Ha as (Hr & _).
    apply (cmd_regs_removed k s (OnCloseCmd k) (OnErrorCmd k) (regs st)); auto.
  - intros Hs. unfold after.
    destruct (fire_close_spec k s p h b st Hc) as (ps & E & _).
    rewrite E, Hs. cbn [snd]. destruct Ha as (Hr & _).
    change (List.filter (fun r => of_cmd k (r_fn r))
              (remove_last (is_reg s (OnCloseCmd k)) (regs st)) = List.tl (cmd_regs k st)).
    rewrite filter_remove_last.
    + change (List.filter (fun r => of_cmd k (r_fn r)) (regs st)) with (cmd_regs k st).
      assert (Hne : is_reg s (OnCloseCmd k) (Reg s (OnErrorCmd k) true) = false)
        by (apply is_reg_other; discriminate).
      destruct Hr as [-> | ->]; cbn [remove_last existsb List.tl];
        rewrite ?is_reg_self, ?Hne; cbn [andb orb negb]; reflexivity.
    + intros r Hr'. apply (is_reg_of_cmd k s (OnCloseCmd k) r); [|exact Hr'].
      simpl. apply Nat.eqb_refl.
Qed.

Lemma C5_close_before_terminal_line_witness :
  promises sample_writing !! 1 = Some Pending /\
  promises (turn (SockEmit 0 (SClose false)) sample_writing) !! 1 =
    Some (Rejected closed_unexpectedly) /\
  cmd_lines 1 (turn (SockEmit 0 (SClose false)) sample_writing) = [].
Proof.
  pose proof (C5_close_before_terminal_line 1 0 1 None false sample_writing
                sample_writing_armed sample_writing_owns eq_refl) as H.
  split; [reflexivity|]. split.
  - exact (proj1 (proj2 (proj1 H)) eq_refl).
  - exact (proj1 (proj2 (proj2 (proj1 H)))).
Defined.

(** C2, the code on a reply that arrives in one chunk: the handler of the
    command written in [sample_handled] throws on the line [250-first], which
    is not terminal. Both lines are passed to the handler before anything is
    settled, but the reaction that resolves for the terminal line runs before
    the reaction that rejects for the first line: the promise is fulfilled
    with the code, and the later [reject] with the handler's failure has no
    effect. *)
Theorem C2_handler_failure_overtaken :
  commands sample_handled !! 1 = Some (Command 1 (Some failing_handler)) /\
  promises sample_handled !! 1 = Some Pending /\
  handler_result (Some failing_handler) "250-first" = Some (Error "handler failed") /\
  handler_result (Some failing_handler) "250 last" = None /\
  trace sample_both_lines =
    trace sample_handled ++
    [Emit (CReceive ("250-first" ++ CRLF ++ "250 last" ++ CRLF)%string);
     Emit (CReply "250-first"); Emit (CReply "250 last");
     CallHandler 1 "250-first" (ReplyArgs (JBool false) (JStr "250"));
     CallHandler 1 "250 last" (ReplyArgs (JBool true) (JStr "250"));
     CallResolve 1 (JStr "250");
     CallReject 1 (Error "handler failed")] /\
  promises sample_both_lines !! 1 = Some (Fulfilled (JStr "250")).
Proof. vm_compute. repeat split; reflexivity. Qed.

(** * Further properties of the code *)

(** ** Reply lines *)

Lemma substr_app_exact (c rest : string) :
  substr (c ++ rest)%string 0 (String.length c) = c.
Proof.
  unfold substr. induction c as [|a c IH].
  - destruct rest; reflexivity.
  - change (String a (String.substring 0 (String.length c) (c ++ rest)%string) = String a c).
    f_equal. exact IH.
Qed.

Lemma get_app_length (c : string) (a : ascii) (rest : string) :
  String.get (String.length c) (c ++ String a rest)%string = Some a.
Proof. induction c as [|b c IH]; [reflexivity|exact IH]. Qed.

Lemma eqb_single (a b : ascii) :
  String.eqb (String a EmptyString) (String b EmptyString) = Ascii.eqb a b.
Proof.
  destruct (Ascii.eqb a b) eqn:E.
  - apply Ascii.eqb_eq in E. subst. apply String.eqb_refl.
  - apply String.eqb_neq. intros [= H]. apply Ascii.eqb_neq in E. contradiction.
Qed.

(** A reply line as RFC 5321 writes it, a three-character code, one
    separator character and any text, is taken apart again by the two
    helpers: [parseReplyCode] gives the code back whatever follows it, and
    [isLastReply] is [true] exactly when the separator is a space (so a
    continuation line, with its hyphen, is not last). These are the [code]
    and [isLast] that [onLine] hands to the handler. *)
Theorem reply_line_round_trip (c : string) (sep : ascii) (text : string) :
  String.length c = 3 ->
  parseReplyCode (c ++ String sep text) = JStr c /\
  isLastReply (c ++ String sep text) = JBool (Ascii.eqb sep " ") /\
  truthy (isLastReply (c ++ String sep text)) = Ascii.eqb sep " ".
Proof.
  intros Hc.
  assert (Hne : truthy (JStr (c ++ String sep text)) = true).
  { destruct c; [discriminate Hc|reflexivity]. }
  assert (Hlast : isLastReply (c ++ String sep text) = JBool (Ascii.eqb sep " ")).
  { unfold isLastReply. rewrite Hne. unfold charAt.
    rewrite <- Hc, get_app_length. f_equal. apply eqb_single. }
  split; [|split].
  - unfold parseReplyCode. rewrite Hne, <- Hc. f_equal. apply substr_app_exact.
  - exact Hlast.
  - rewrite Hlast. reflexivity.
Qed.

Lemma reply_line_round_trip_witness :
  parseReplyCode "250-mail.example.org" = JStr "250" /\
  isLastReply "250-mail.example.org" = JBool false /\
  isLastReply "250 OK" = JBool true.
Proof.
  pose proof (reply_line_round_trip "250" "-" "mail.example.org" eq_refl) as H1.
  pose proof (reply_line_round_trip "250" " " "OK" eq_refl) as H2.
  split; [exact (proj1 H1)|]. split; [exact (proj1 (proj2 H1))|exact (proj1 (proj2 H2))].
Defined.

(** The guard for the empty line is the only difference between the public
    helpers and those of the earlier revision: on every line that is not
    empty they agree, and on the empty line the old ones give the empty code
    and [false] where the new ones give [null]. The old success test looks at
    the first character of the code only. *)
Theorem legacy_helpers_agree (line : string) :
  (line <> EmptyString ->
   parseReplyCode line = JStr (Legacy._parseReplyCode line) /\
   isLastReply line = JBool (Legacy._isLastReply line)) /\
  Legacy._parseReplyCode EmptyString = EmptyString /\
  Legacy._isLastReply EmptyString = false /\
  parseReplyCode EmptyString = JNull /\
  isLastReply EmptyString = JNull /\
  (Legacy._isSuccessReplyCode (Legacy._parseReplyCode line) = true <->
   String.get 0 line = Some "2"%char).
Proof.
  split; [|repeat split].
  - intros H. destruct line; [congruence|]. split; reflexivity.
  - unfold Legacy._isSuccessReplyCode, Legacy._parseReplyCode.
    destruct line as [|a line]; [intros H; apply String.eqb_eq in H; discriminate|].
    change (charAt (substr (String a line) 0 3) 0) with (String a EmptyString).
    rewrite eqb_single. intros H. apply Ascii.eqb_eq in H. subst. reflexivity.
  - unfold Legacy._isSuccessReplyCode, Legacy._parseReplyCode.
    destruct line as [|a line]; [discriminate|].
    change (charAt (substr (String a line) 0 3) 0) with (String a EmptyString).
    intros [= ->]. reflexivity.
Qed.

(** ** The send logger *)

Lemma for_each_fixed {A : Type} (f : A -> M unit) (l : list A) (st : channel) :
  (forall x, In x l -> f x st = (inr tt, st)) -> for_each f l st = (inr tt, st).
Proof.
  induction l as [|x l IH]; intros H; simpl; [reflexivity|].
  unfold bind. rewrite (H x) by (left; reflexivity). apply IH.
  intros y Hy. apply H. right. exact Hy.
Qed.

Lemma for_each_log {A : Type} (f : A -> effect) (l : list A) (st : channel) :
  for_each (fun x => log (f x)) l st = (inr tt, set_trace (trace st ++ map f l) st).
Proof.
  revert st. induction l as [|x l IH]; intros st; simpl.
  - rewrite app_nil_r. destruct st; reflexivity.
  - unfold bind. unfold log at 1, modify. rewrite IH. cbn [trace set_trace].
    rewrite <- app_assoc. destruct st; reflexivity.
Qed.

Lemma for_each_emit (f : string -> chan_event) (l : list string) (st : channel) :
  (forall x e, f x <> CError e) ->
  for_each (fun x => chan_emit (f x)) l st =
    (inr tt, set_trace (trace st ++ map (fun x => Emit (f x)) l) st).
Proof.
  intros Hf. rewrite <- (for_each_log (fun x => Emit (f x)) l st).
  revert st. induction l as [|x l IH]; intros st; simpl; [reflexivity|].
  unfold bind. replace (chan_emit (f x)) with (log (Emit (f x))).
  - destruct (log (Emit (f x)) st) as [[e|u] st1]; [reflexivity|apply IH].
  - specialize (Hf x). destruct (f x); try reflexivity. exfalso. eapply Hf. reflexivity.
Qed.

(** [feed] on a buffer without line listeners only splits. *)
Lemma feed_send_quiet (chunk : string) (st : channel) :
  lb_listeners (_sendBuffer st) = [] ->
  feed _sendBuffer set_sendBuffer chunk st =
    (inr (fst (lb_split (_sendBuffer st) (lb_tail (_sendBuffer st)) chunk)),
     set_sendBuffer
       (lb_with_tail (snd (lb_split (_sendBuffer st) (lb_tail (_sendBuffer st)) chunk))
          (_sendBuffer st)) st).
Proof.
  intros H. unfold feed. unfold bind at 1, gets at 1.
  destruct (lb_split (_sendBuffer st) (lb_tail (_sendBuffer st)) chunk) as [lines t].
  unfold bind at 1, modify at 1. unfold bind at 1.
  rewrite for_each_fixed; [reflexivity|].
  intros line _. unfold bind, gets. cbn. rewrite H. reflexivity.
Qed.

Lemma _onSend_quiet (chunk : string) (st : channel) :
  lb_listeners (_sendBuffer st) = [] ->
  _onSend chunk st =
    (inr tt,
     set_trace
       (trace st ++ Emit (CSend chunk) ::
          map (fun l => Emit (CCommand l))
              (fst (lb_split (_sendBuffer st) (lb_tail (_sendBuffer st)) chunk)))
       (set_sendBuffer
          (lb_with_tail (snd (lb_split (_sendBuffer st) (lb_tail (_sendBuffer st)) chunk))
             (_sendBuffer st)) st)).
Proof.
  intros H. unfold _onSend. unfold bind at 1. unfold chan_emit, log at 1, modify at 1.
  unfold bind at 1. rewrite feed_send_quiet by exact H.
  unfold _onCommand. rewrite (for_each_emit CCommand) by discriminate.
  cbn [trace set_trace set_sendBuffer]. rewrite <- app_assoc. destruct st; reflexivity.
Qed.

Lemma send_quiet_carried :
  carried (fun st => lb_listeners (_sendBuffer st) = [])
          (fun _ => True) (fun _ => True) (fun _ => False) True True.
Proof.
  constructor; try (intros; simpl; first [assumption|exact Logic.I]).
  - intros st HI. split; [exact HI|exact Logic.I].
  - intros q h st _ HI. split; [exact HI|exact Logic.I].
  - intros st r _ _. right. apply okl_trivial.
  - intros j q st _ HI. split; [exact HI|exact Logic.I].
Qed.

(** The logger stream of [_createOnSendStream] hands every chunk that goes
    to the server to [_onSend]: the chunk is reported by one send event, then
    one command event follows for each line the chunk completes, in order, and
    the unfinished rest is kept in the send buffer for the next chunk. Nothing
    else changes: no promise, no registration, not the transport. The send
    buffer never has a line listener, in whatever turn: the code registers
    [onLine] on the receive buffer only. *)
Theorem send_logger_events (chunk : string) (st : channel) :
  lb_listeners (_sendBuffer st) = [] -> microtasks st = [] ->
  turn (LoggerData chunk) st =
    set_trace
      (trace st ++ Emit (CSend chunk) ::
         map (fun l => Emit (CCommand l))
             (fst (lb_split (_sendBuffer st) (lb_tail (_sendBuffer st)) chunk)))
      (set_sendBuffer
         (lb_with_tail (snd (lb_split (_sendBuffer st) (lb_tail (_sendBuffer st)) chunk))
            (_sendBuffer st)) st) /\
  (forall inputs, lb_listeners (_sendBuffer (run inputs st)) = []).
Proof.
  intros H Hq. split.
  - apply (turn_returned (_onSend chunk) _ tt); [|exact Hq].
    simpl. apply _onSend_quiet, H.
  - intros inputs. revert st H Hq. induction inputs as [|i inputs IH]; intros st H Hq.
    + exact H.
    + simpl. apply IH; [|apply turn_queue_empty].
      exact (inv_turn _ _ _ _ _ _ send_quiet_carried i st (input_ok_trivial i) H).
Qed.

Lemma send_logger_events_witness :
  trace (turn (LoggerData ("EHLO client" ++ CRLF ++ "QU")%string) sample_connected) =
    trace sample_connected ++
    [Emit (CSend ("EHLO client" ++ CRLF ++ "QU")%string); Emit (CCommand "EHLO client")] /\
  lb_tail (_sendBuffer (turn (LoggerData ("EHLO client" ++ CRLF ++ "QU")%string)
                             sample_connected)) = "QU".
Proof.
  pose proof (send_logger_events ("EHLO client" ++ CRLF ++ "QU")%string sample_connected
                eq_refl eq_refl) as [H _].
  rewrite H. split; reflexivity.
Defined.

(** ** A channel that was never connected *)

Lemma negotiateTLS_disconnected_eq (st : channel) :
  _socket st = None ->
  negotiateTLS st =
    (inr (length (promises st)),
     set_trace (trace st ++ [CallReject (length (promises st))
                               (TypeError "Cannot read properties of null")])
       (set_promises (promises st ++ [Rejected (TypeError "Cannot read properties of null")])
          st)).
Proof.
  intros H. unfold negotiateTLS, _negotiateTLSAsPromised. exec_all. rewrite H. simpl.
  rewrite lookup_snoc_length, insert_snoc_length. reflexivity.
Qed.

Lemma sock_emit_unheard (s : nat) (ev : sevent) (st : channel) :
  List.filter (on_event s (name_of ev)) (regs st) = [] ->
  sock_emit s ev st =
    match ev with
    | SError e => (inl e, st)
    | _ => (inr tt, st)
    end.
Proof.
  intros H. unfold sock_emit, bind, gets. rewrite H. destruct ev; reflexivity.
Qed.

Lemma idle_turn (i : input) (st : channel) :
  is_connect i = false -> idle st -> idle (turn i st).
Proof.
  intros Hi (H1 & H2 & H3 & H4 & H5 & H6 & H7 & H8 & H9).
  assert (Hsnoc : forall x, x <> Pending -> Forall (fun y => y <> Pending) (promises st ++ [x])).
  { intros x Hx. apply Forall_app. split; [exact H9|]. constructor; [exact Hx|constructor]. }
  destruct i as [s ev|h| |data h| |chunk]; [| discriminate | | | |].
  - assert (E : sock_emit s ev st = match ev with SError e => (inl e, st) | _ => (inr tt, st) end).
    { apply sock_emit_unheard. rewrite H3. reflexivity. }
    unfold turn. simpl perform. rewrite E.
    destruct ev; cbn [snd log modify]; rewrite run_microtasks_empty by exact H7;
      cbn [snd]; repeat split; auto.
  - rewrite (turn_close st H7). unfold after. rewrite (close_disconnected st H1).
    cbn [snd]. repeat split; auto. apply Hsnoc. discriminate.
  - rewrite (turn_returned (write data h) (CallWrite data h) tt st
               (snd (write data h st))).
    + rewrite (write_disconnected data h st H1). cbn [snd]. repeat split; auto.
      apply Hsnoc. discriminate.
    + simpl. unfold bind. rewrite (write_disconnected data h st H1). reflexivity.
    + rewrite (write_disconnected data h st H1). exact H7.
  - rewrite (turn_returned negotiateTLS CallNegotiateTLS tt st (snd (negotiateTLS st))).
    + rewrite (negotiateTLS_disconnected_eq st H1). cbn [snd]. repeat split; auto.
      apply Hsnoc. discriminate.
    + simpl. unfold bind. rewrite (negotiateTLS_disconnected_eq st H1). reflexivity.
    + rewrite (negotiateTLS_disconnected_eq st H1). exact H7.
  - rewrite (turn_returned (_onSend chunk) (LoggerData chunk) tt st
               (snd (_onSend chunk st))).
    + rewrite (_onSend_quiet chunk st H6). cbn [snd]. repeat split; auto.
    + simpl. rewrite (_onSend_quiet chunk st H6). reflexivity.
    + rewrite (_onSend_quiet chunk st H6). exact H7.
Qed.

Lemma idle_run (inputs : list input) (st : channel) :
  forallb (fun i => negb (is_connect i)) inputs = true -> idle st -> idle (run inputs st).
Proof.
  revert st. induction inputs as [|i inputs IH]; intros st Hall H; simpl; [exact H|].
  simpl in Hall. apply andb_true_iff in Hall as [Hi Hall].
  apply IH; [exact Hall|]. apply idle_turn; [|exact H].
  destruct (is_connect i); [discriminate|reflexivity].
Qed.

(** Until [connect] is called nothing can be left hanging: whatever else
    happens to a new channel (calls of [write], [close] and [negotiateTLS],
    chunks from a logger, events of sockets it does not know), it has no
    transport, has created no socket and registered no listener, [isSecure()]
    is [false], and every promise it has returned is settled already: [close]
    fulfilled, [write] rejected with "Socket has closed", [negotiateTLS]
    rejected with the [TypeError] of dereferencing the missing socket. *)
Theorem never_connected (o : options) (observed : bool) (inputs : list input) :
  forallb (fun i => negb (is_connect i)) inputs = true ->
  idle (run inputs (SMTPChannel o observed)) /\
  (forall data h,
     promises (turn (CallWrite data h) (run inputs (SMTPChannel o observed))) =
       promises (run inputs (SMTPChannel o observed)) ++
       [Rejected (Error "Socket has closed")]) /\
  promises (turn CallClose (run inputs (SMTPChannel o observed))) =
    promises (run inputs (SMTPChannel o observed)) ++ [Fulfilled JUndefined] /\
  promises (turn CallNegotiateTLS (run inputs (SMTPChannel o observed))) =
    promises (run inputs (SMTPChannel o observed)) ++
    [Rejected (TypeError "Cannot read properties of null")].
Proof.
  intros Hall.
  assert (H : idle (run inputs (SMTPChannel o observed))).
  { apply idle_run; [exact Hall|]. unfold idle. simpl. repeat split; auto. }
  split; [exact H|].
  destruct H as (H1 & H2 & H3 & H4 & H5 & H6 & H7 & H8 & H9).
  set (st := run inputs (SMTPChannel o observed)) in *.
  split; [|split].
  - intros data h.
    rewrite (turn_returned (write data h) (CallWrite data h) tt st (snd (write data h st))).
    + rewrite (write_disconnected data h st H1). reflexivity.
    + simpl. unfold bind. rewrite (write_disconnected data h st H1). reflexivity.
    + rewrite (write_disconnected data h st H1). exact H7.
  - rewrite (turn_close st H7). unfold after. rewrite (close_disconnected st H1).
    reflexivity.
  - rewrite (turn_returned negotiateTLS CallNegotiateTLS tt st (snd (negotiateTLS st))).
    + rewrite (negotiateTLS_disconnected_eq st H1). reflexivity.
    + simpl. unfold bind. rewrite (negotiateTLS_disconnected_eq st H1). reflexivity.
    + rewrite (negotiateTLS_disconnected_eq st H1). exact H7.
Qed.

Lemma never_connected_witness :
  promises (run [CallWrite (PData "NOOP") None; SockEmit 0 (SClose false); CallClose;
                 LoggerData "NOOP"; CallNegotiateTLS]
              (SMTPChannel (Options None None None (Some (JBool true))) false)) =
    [Rejected (Error "Socket has closed"); Fulfilled JUndefined;
     Rejected (TypeError "Cannot read properties of null")] /\
  idle (run [CallWrite (PData "NOOP") None; SockEmit 0 (SClose false); CallClose;
             LoggerData "NOOP"; CallNegotiateTLS]
          (SMTPChannel (Options None None None (Some (JBool true))) false)).
Proof.
  split; [reflexivity|].
  exact (proj1 (never_connected (Options None None None (Some (JBool true))) false
                  [CallWrite (PData "NOOP") None; SockEmit 0 (SClose false); CallClose;
                   LoggerData "NOOP"; CallNegotiateTLS] eq_refl)).
Defined.

(** ** Reply lines reach a command *)

Lemma sock_emit_data (s : nat) (chunk : string) (st : channel) :
  List.filter (on_event s EvData) (regs st) = [Reg s BoundOnReceive false] ->
  sock_emit s (SData chunk) st = _onReceive chunk st.
Proof.
  intros H. unfold sock_emit, bind, gets. simpl. rewrite H.
  simpl. unfold fire, bind, ret. simpl.
  destruct (_onReceive chunk st) as [[e|[]] st1]; reflexivity.
Qed.

(** The lines that are not terminal only queue the handler's reaction. *)
Lemma deliver_continuations (k : nat) (ls : list string) (st : channel) :
  lb_listeners (_receiveBuffer st) = [k] ->
  Forall (fun l => truthy (isLastReply l) = false) ls ->
  for_each (fun line =>
              snapshot <- gets (fun st => lb_listeners (_receiveBuffer st)) ;;
              for_each (fun k => onLine k line) snapshot) ls st =
    (inr tt,
     set_microtasks (microtasks st ++ map (fun l => JHandler k l (reply_args_of l)) ls) st).
Proof.
  intros Hk Hls. revert st Hk. induction Hls as [|l ls Hl Hls IH]; intros st Hk.
  - simpl. rewrite app_nil_r. destruct st; reflexivity.
  - cbn [for_each]. unfold bind at 1. unfold bind at 1, gets at 1. rewrite Hk.
    cbn [for_each]. unfold bind at 1. rewrite (onLine_continuation k l st Hl).
    unfold ret at 1. rewrite IH by exact Hk.
    cbn [microtasks set_microtasks map]. rewrite <- app_assoc. destruct st; reflexivity.
Qed.

(** The synchronous part of a data event whose chunk completes the lines
    [ls], none of them terminal. *)
Lemma _onReceive_continuations (k : nat) (chunk : string) (ls : list string) (t : string)
    (st : channel) :
  lb_listeners (_receiveBuffer st) = [k] ->
  lb_split (_receiveBuffer st) (lb_tail (_receiveBuffer st)) chunk = (ls, t) ->
  Forall (fun l => truthy (isLastReply l) = false) ls ->
  _onReceive chunk st =
    (inr tt,
     set_trace (trace st ++ Emit (CReceive chunk) :: map (fun l => Emit (CReply l)) ls)
       (set_microtasks (microtasks st ++ map (fun l => JHandler k l (reply_args_of l)) ls)
          (set_receiveBuffer (lb_with_tail t (_receiveBuffer st)) st))).
Proof.
  intros Hk Hsplit Hls. unfold _onReceive. unfold bind at 1.
  unfold chan_emit, log at 1, modify at 1. unfold bind at 1.
  unfold feed. unfold bind at 1, gets at 1. cbn [_receiveBuffer set_trace].
  rewrite Hsplit. unfold bind at 1, modify at 1. unfold bind at 1.
  rewrite (deliver_continuations k ls) by (cbn; first [exact Hk|exact Hls]).
  unfold ret at 1. unfold _onReply. rewrite (for_each_emit CReply) by discriminate.
  cbn [trace set_trace set_microtasks set_receiveBuffer microtasks].
  rewrite <- app_assoc. destruct st; reflexivity.
Qed.

(** ** The reactions of several lines

    The lines of one chunk queue their first reactions together: all
    handler calls run before the first settling step, and all settling steps
    before the first catch. *)

Lemma drain_done (n : nat) (st : channel) :
  microtasks st = [] -> drain n st = (inr tt, st).
Proof. intros H. destruct n; [reflexivity|]. rewrite drain_step, H. reflexivity. Qed.

Lemma handler_weight (k : nat) (ls : list string) :
  list_sum (map job_weight (map (fun l => JHandler k l (reply_args_of l)) ls)) =
    3 * length ls.
Proof. induction ls as [|l ls IH]; simpl in *; lia. Qed.

Lemma handler_calls_cons (k : nat) (h : option handler) (l : string) (ls : list string) :
  handler_calls k h (l :: ls) = handler_calls k h [l] ++ handler_calls k h ls.
Proof. destruct h; reflexivity. Qed.

Lemma drain_handlers (k p : nat) (h : option handler) (ls : list string) (acc : list job)
    (n : nat) (st : channel) :
  commands st !! k = Some (Command p h) ->
  Forall (fun l => handler_result h l = None) ls ->
  microtasks st = map (fun l => JHandler k l (reply_args_of l)) ls ++ acc ->
  drain (length ls + n) st =
    drain n (set_microtasks (acc ++ map (fun l => JSettle k None (reply_args_of l)) ls)
               (set_trace (trace st ++ handler_calls k h ls) st)).
Proof.
  intros Hc Hls. revert st acc Hc. induction Hls as [|l ls Hl Hls IH]; intros st acc Hc Hq.
  - simpl in *. f_equal. replace (handler_calls k h []) with (@nil effect) by (destruct h; reflexivity).
    rewrite !app_nil_r. destruct st; simpl in *; subst; reflexivity.
  - cbn [length Nat.add]. rewrite drain_step, Hq. cbn [map app]. unfold bind at 1.
    rewrite (run_job_handler k p h) by (destruct st; exact Hc).
    match goal with |- drain _ ?x = _ => set (st1 := x) end.
    assert (Hst1 : st1 =
              set_microtasks
                (map (fun l => JHandler k l (reply_args_of l)) ls ++
                 (acc ++ [JSettle k None (reply_args_of l)]))
                (set_trace (trace st ++ handler_calls k h [l]) st)).
    { unfold st1. destruct h as [f|].
      - change (f l (reply_args_of l) = None) in Hl. rewrite Hl.
        cbn [microtasks set_microtasks handler_calls map]. rewrite <- app_assoc.
        destruct st; reflexivity.
      - cbn [microtasks set_microtasks handler_calls]. rewrite <- app_assoc, app_nil_r.
        destruct st; reflexivity. }
    rewrite Hst1. rewrite (IH _ (acc ++ [JSettle k None (reply_args_of l)])).
    + f_equal. cbn [trace set_trace set_microtasks map].
      rewrite (handler_calls_cons k h l ls), <- !app_assoc. destruct st; reflexivity.
    + destruct st; exact Hc.
    + reflexivity.
Qed.

Lemma drain_settles (k p : nat) (h : option handler) (ls : list string) (acc : list job)
    (n : nat) (st : channel) :
  commands st !! k = Some (Command p h) ->
  Forall (fun l => truthy (isLastReply l) = false) ls ->
  microtasks st = map (fun l => JSettle k None (reply_args_of l)) ls ++ acc ->
  drain (length ls + n) st =
    drain n (set_microtasks (acc ++ map (fun _ => JCatch k None) ls) st).
Proof.
  intros Hc Hls. revert st acc Hc. induction Hls as [|l ls Hl Hls IH]; intros st acc Hc Hq.
  - simpl in *. f_equal. rewrite app_nil_r. destruct st; simpl in *; subst; reflexivity.
  - cbn [length Nat.add]. rewrite drain_step, Hq. cbn [map app]. unfold bind at 1.
    rewrite (run_job_settle k p h) by (destruct st; exact Hc).
    cbn [isLast reply_args_of]. rewrite Hl. unfold bind at 1, ret at 1.
    unfold enqueue, modify. cbn [microtasks set_microtasks].
    rewrite (IH _ (acc ++ [JCatch k None])).
    + f_equal. cbn [map]. rewrite <- !app_assoc. destruct st; reflexivity.
    + destruct st; exact Hc.
    + cbn [microtasks set_microtasks]. rewrite <- app_assoc. reflexivity.
Qed.

Lemma drain_catches (k : nat) (ls : list string) (acc : list job) (n : nat) (st : channel) :
  microtasks st = map (fun _ => JCatch k None) ls ++ acc ->
  drain (length ls + n) st = drain n (set_microtasks acc st).
Proof.
  revert st. induction ls as [|l ls IH]; intros st Hq.
  - simpl in *. f_equal. destruct st; simpl in *; subst; reflexivity.
  - cbn [length Nat.add]. rewrite drain_step, Hq. cbn [map app]. unfold bind at 1.
    cbn [run_job]. unfold ret at 1. rewrite IH by reflexivity. reflexivity.
Qed.

(** The reactions of lines that are not terminal, with a handler that
    returns on each: the handler calls and nothing else. *)
Lemma continuation_chain (k p : nat) (h : option handler) (ls : list string) (st : channel) :
  commands st !! k = Some (Command p h) ->
  Forall (fun l => handler_result h l = None) ls ->
  Forall (fun l => truthy (isLastReply l) = false) ls ->
  microtasks st = map (fun l => JHandler k l (reply_args_of l)) ls ->
  run_microtasks st =
    (inr tt, set_microtasks [] (set_trace (trace st ++ handler_calls k h ls) st)).
Proof.
  intros Hc Hh Hls Hq. unfold run_microtasks, bind, gets. rewrite Hq, handler_weight.
  replace (3 * length ls) with (length ls + (length ls + (length ls + 0))) by lia.
  rewrite (drain_handlers k p h ls [] _ st Hc Hh) by (rewrite app_nil_r; exact Hq).
  rewrite (drain_settles k p h ls []);
    [|destruct st; exact Hc|exact Hls|cbn [microtasks set_microtasks app]; apply eq_sym, app_nil_r].
  rewrite (drain_catches k ls []);
    [|cbn [microtasks set_microtasks app]; apply eq_sym, app_nil_r].
  rewrite drain_done by reflexivity. reflexivity.
Qed.

(** The reactions of a reply whose last line is terminal, with a handler
    that returns on each line: the handler calls, then [resolve] with the
    code of the last line. *)
Lemma reply_chain (k p : nat) (h : option handler) (ls : list string) (last : string)
    (st : channel) :
  commands st !! k = Some (Command p h) ->
  promises st !! p = Some Pending ->
  Forall (fun l => handler_result h l = None) (ls ++ [last]) ->
  Forall (fun l => truthy (isLastReply l) = false) ls ->
  truthy (isLastReply last) = true ->
  microtasks st = map (fun l => JHandler k l (reply_args_of l)) (ls ++ [last]) ->
  run_microtasks st =
    (inr tt,
     set_promises (<[p := Fulfilled (parseReplyCode last)]> (promises st))
       (set_microtasks []
          (set_trace (trace st ++ handler_calls k h (ls ++ [last]) ++
                      [CallResolve p (parseReplyCode last)]) st))).
Proof.
  intros Hc Hp Hh Hls Hlast Hq. unfold run_microtasks, bind, gets.
  rewrite Hq, handler_weight.
  replace (3 * length (ls ++ [last]))
    with (length (ls ++ [last]) + (length ls + S (length (ls ++ [last]) + 0)))
    by (rewrite length_app; simpl; lia).
  rewrite (drain_handlers k p h (ls ++ [last]) [] _ st Hc Hh) by (rewrite app_nil_r; exact Hq).
  cbn [app]. rewrite map_app. cbn [map].
  rewrite (drain_settles k p h ls [JSettle k None (reply_args_of last)]);
    [|destruct st; exact Hc|exact Hls|reflexivity].
  rewrite drain_step. cbn [microtasks set_microtasks app]. unfold bind at 1.
  rewrite (run_job_settle k p h) by (destruct st; exact Hc).
  cbn [isLast code reply_args_of]. rewrite Hlast. unfold bind at 1.
  rewrite resolve_pending by (destruct st; exact Hp).
  unfold enqueue, modify.
  rewrite (drain_catches k (ls ++ [last]) []);
    [|cbn [microtasks set_microtasks set_promises set_trace]; rewrite map_app, app_nil_r;
      reflexivity].
  rewrite drain_done by reflexivity. f_equal.
  cbn [trace set_trace set_microtasks set_promises promises]. rewrite <- app_assoc.
  destruct st; reflexivity.
Qed.

(** The synchronous part of a data event whose chunk completes a reply:
    lines that are not terminal, then a terminal one. *)
Lemma _onReceive_reply (k s : nat) (chunk : string) (ls : list string) (last t : string)
    (st : channel) :
  _socket st = Some s ->
  lb_listeners (_receiveBuffer st) = [k] ->
  lb_split (_receiveBuffer st) (lb_tail (_receiveBuffer st)) chunk = (ls ++ [last], t) ->
  Forall (fun l => truthy (isLastReply l) = false) ls ->
  truthy (isLastReply last) = true ->
  _onReceive chunk st =
    (inr tt,
     set_trace (trace st ++ Emit (CReceive chunk) ::
                  map (fun l => Emit (CReply l)) (ls ++ [last]))
       (set_microtasks
          (microtasks st ++ map (fun l => JHandler k l (reply_args_of l)) (ls ++ [last]))
          (set_receiveBuffer
             (lb_with_listeners [] (lb_with_tail t (_receiveBuffer st)))
             (set_regs
                (remove_last (is_reg s (OnErrorCmd k))
                   (remove_last (is_reg s (OnCloseCmd k)) (regs st))) st)))).
Proof.
  intros Hs Hk Hsplit Hls Hlast. unfold _onReceive. unfold bind at 1.
  unfold chan_emit, log at 1, modify at 1. unfold bind at 1.
  unfold feed. unfold bind at 1, gets at 1. cbn [_receiveBuffer set_trace].
  rewrite Hsplit. unfold bind at 1, modify at 1. unfold bind at 1.
  rewrite for_each_app. unfold bind at 1.
  rewrite (deliver_continuations k ls) by (cbn; first [exact Hk|exact Hls]).
  cbn [for_each]. unfold bind at 1. unfold bind at 1, gets at 1.
  cbn [_receiveBuffer set_microtasks set_receiveBuffer set_trace lb_listeners lb_with_tail].
  rewrite Hk. cbn [for_each]. unfold bind at 1.
  rewrite (onLine_terminal k s last) by (first [exact Hlast|destruct st; exact Hs]).
  unfold ret at 1. unfold ret at 1. unfold ret at 1.
  unfold _onReply. rewrite (for_each_emit CReply) by discriminate.
  cbn [trace set_trace set_microtasks set_receiveBuffer set_regs microtasks regs
       _receiveBuffer lb_listeners lb_with_tail lb_with_listeners lb_split lb_tail].
  rewrite Hk. cbn [remove_last existsb]. rewrite Nat.eqb_refl. cbn [andb negb].
  rewrite !map_app. cbn [map app]. rewrite <- !app_assoc. destruct st; reflexivity.
Qed.

(** A data event that brings lines of a reply, none terminal, to the one
    command that is armed. *)
Lemma data_turn_continuations (k s p : nat) (h : option handler) (chunk : string)
    (ls : list string) (t : string) (st : channel) :
  List.filter (on_event s EvData) (regs st) = [Reg s BoundOnReceive false] ->
  lb_listeners (_receiveBuffer st) = [k] ->
  commands st !! k = Some (Command p h) ->
  microtasks st = [] ->
  lb_split (_receiveBuffer st) (lb_tail (_receiveBuffer st)) chunk = (ls, t) ->
  Forall (fun l => truthy (isLastReply l) = false) ls ->
  Forall (fun l => handler_result h l = None) ls ->
  turn (SockEmit s (SData chunk)) st =
    set_trace (trace st ++ Emit (CReceive chunk) :: map (fun l => Emit (CReply l)) ls ++
               handler_calls k h ls)
      (set_receiveBuffer (lb_with_tail t (_receiveBuffer st)) st).
Proof.
  intros Hsnap Hk Hc Hq Hsplit Hls Hh. unfold turn. simpl perform.
  rewrite (sock_emit_data s chunk st Hsnap).
  rewrite (_onReceive_continuations k chunk ls t st Hk Hsplit Hls).
  rewrite (continuation_chain k p h ls); [|destruct st; exact Hc|exact Hh|exact Hls|].
  - cbn [snd trace set_trace]. rewrite Hq, <- app_assoc. destruct st; simpl in *; subst.
    reflexivity.
  - cbn [microtasks set_trace set_microtasks]. rewrite Hq. reflexivity.
Qed.

(** A data event that brings the rest of a reply, up to its terminal line,
    to the one command that is armed. *)
Lemma data_turn_reply (k s p : nat) (h : option handler) (chunk : string)
    (ls : list string) (last t : string) (st : channel) :
  List.filter (on_event s EvData) (regs st) = [Reg s BoundOnReceive false] ->
  _socket st = Some s ->
  lb_listeners (_receiveBuffer st) = [k] ->
  commands st !! k = Some (Command p h) ->
  promises st !! p = Some Pending ->
  microtasks st = [] ->
  lb_split (_receiveBuffer st) (lb_tail (_receiveBuffer st)) chunk = (ls ++ [last], t) ->
  Forall (fun l => truthy (isLastReply l) = false) ls ->
  truthy (isLastReply last) = true ->
  Forall (fun l => handler_result h l = None) (ls ++ [last]) ->
  turn (SockEmit s (SData chunk)) st =
    set_promises (<[p := Fulfilled (parseReplyCode last)]> (promises st))
      (set_trace (trace st ++ Emit (CReceive chunk) ::
                    map (fun l => Emit (CReply l)) (ls ++ [last]) ++
                    handler_calls k h (ls ++ [last]) ++
                    [CallResolve p (parseReplyCode last)])
         (set_receiveBuffer
            (lb_with_listeners [] (lb_with_tail t (_receiveBuffer st)))
            (set_regs
               (remove_last (is_reg s (OnErrorCmd k))
                  (remove_last (is_reg s (OnCloseCmd k)) (regs st))) st))).
Proof.
  intros Hsnap Hs Hk Hc Hp Hq Hsplit Hls Hlast Hh. unfold turn. simpl perform.
  rewrite (sock_emit_data s chunk st Hsnap).
  rewrite (_onReceive_reply k s chunk ls last t st Hs Hk Hsplit Hls Hlast).
  rewrite (reply_chain k p h ls last);
    [|destruct st; exact Hc|destruct st; exact Hp|exact Hh|exact Hls|exact Hlast|].
  - cbn [snd trace set_trace promises]. rewrite Hq, <- !app_assoc.
    destruct st; simpl in *; subst. reflexivity.
  - cbn [microtasks set_trace set_microtasks]. rewrite Hq. reflexivity.
Qed.

(** ** Wiring a socket *)

Lemma wire_socket_eq (s : nat) (st : channel) :
  _socket st = Some s ->
  wire_socket st =
    (inr tt,
     set_trace (trace st ++ [SockSetEncoding s; SockSetTimeout s (timeout (_config st))])
       (set_regs (List.filter (fun r => negb (on_event s EvError r)) (regs st) ++ wired_regs s)
          st)).
Proof.
  intros H. destruct st. simpl in H. subst. unfold wire_socket, wired_regs.
  unfold bind, the_socket, sock_removeAllListeners, sock_on, log, gets, modify.
  cbn [_socket set_regs set_trace regs trace _config fst snd].
  rewrite <- !app_assoc. reflexivity.
Qed.

Lemma connect_callback_eq (b : bool) (s : nat) (st : channel) :
  _socket st = Some s ->
  connect_callback b st =
    (inr tt,
     set_trace (trace st ++ [SockSetEncoding s; SockSetTimeout s (timeout (_config st));
                             Emit CConnect])
       (set_regs (List.filter (fun r => negb (on_event s EvError r)) (regs st) ++ wired_regs s)
          (set_isSecure b st))).
Proof.
  intros H. unfold connect_callback. unfold bind at 1, modify at 1. unfold bind at 1.
  rewrite (wire_socket_eq s) by (destruct st; exact H).
  unfold _onConnect, chan_emit, log, modify.
  cbn [trace set_trace set_regs set_isSecure regs _config]. rewrite <- app_assoc.
  destruct st; reflexivity.
Qed.

Lemma upgrade_callback_eq (p s : nat) (st : channel) :
  _socket st = Some s -> promises st !! p = Some Pending ->
  upgrade_callback p st =
    (inr tt,
     set_promises (<[p := Fulfilled JUndefined]> (promises st))
       (set_trace (trace st ++ [SockSetEncoding s; SockSetTimeout s (timeout (_config st));
                               CallResolve p JUndefined])
          (set_regs (List.filter (fun r => negb (on_event s EvError r)) (regs st) ++
                     wired_regs s)
             (set_isSecure true st)))).
Proof.
  intros H Hp. unfold upgrade_callback. unfold bind at 1, modify at 1. unfold bind at 1.
  rewrite (wire_socket_eq s) by (destruct st; exact H).
  rewrite resolve_pending by (destruct st; exact Hp).
  cbn [trace set_trace set_regs set_isSecure regs _config promises]. rewrite <- app_assoc.
  destruct st; reflexivity.
Qed.

Lemma remove_last_app_r {A : Type} (P : A -> bool) (l1 l2 : list A) :
  existsb P l2 = true -> remove_last P (l1 ++ l2) = l1 ++ remove_last P l2.
Proof.
  intros H. induction l1 as [|x l1 IH]; [reflexivity|].
  cbn [app remove_last]. rewrite existsb_app, H, orb_true_r, andb_false_r, IH.
  reflexivity.
Qed.

Lemma filter_fresh_sock (st : channel) (s : nat) (n : evname) :
  well_formed st -> length (sockets st) <= s ->
  List.filter (fun r => negb (on_event s n r)) (regs st) = regs st.
Proof.
  intros Hwf Hs. apply filter_all_true. intros r Hr.
  rewrite (filter_nil_false _ _ r (fresh_sock_no_regs st s n Hwf Hs) Hr). reflexivity.
Qed.

Lemma snapshot_socket_regs (s : nat) (n : evname) (st : channel) :
  List.filter (on_event s n) (regs st) =
    List.filter (fun r => bool_decide (event_of (r_fn r) = n)) (socket_regs s st).
Proof.
  unfold socket_regs. induction (regs st) as [|r rs IH]; [reflexivity|].
  cbn [List.filter]. unfold on_event at 1. destruct (Nat.eqb (r_sock r) s).
  - cbn [andb List.filter]. rewrite IH. reflexivity.
  - cbn [andb]. exact IH.
Qed.

Lemma connect_event_regs (st : channel) (s k : nat) (b : bool) :
  well_formed st -> length (sockets st) <= s ->
  List.filter (fun r => negb (on_event s EvError r))
    (remove_last (is_reg s (ConnectCb b))
       (regs st ++ [Reg s (ConnectCb b) true; Reg s (OnCloseCmd k) true;
                    Reg s (OnErrorCmd k) true])) =
    regs st ++ [Reg s (OnCloseCmd k) true].
Proof.
  intros Hwf Hs.
  assert (H1 : is_reg s (ConnectCb b) (Reg s (OnCloseCmd k) true) = false)
    by (apply is_reg_other; discriminate).
  assert (H2 : is_reg s (ConnectCb b) (Reg s (OnErrorCmd k) true) = false)
    by (apply is_reg_other; discriminate).
  rewrite remove_last_app_r
    by (cbn [existsb]; rewrite is_reg_self; reflexivity).
  cbn [remove_last existsb]. rewrite is_reg_self, H1, H2. cbn [orb negb andb].
  rewrite List.filter_app, (filter_fresh_sock st s EvError Hwf Hs).
  cbn [List.filter]. rewrite !on_event_Reg, Nat.eqb_refl. reflexivity.
Qed.

(** The connect event of the socket that [connect] created. *)
Lemma connect_event_turn (h : option handler) (st : channel) :
  well_formed st -> microtasks st = [] -> _socket st = None ->
  turn (SockEmit (length (sockets st)) SConnect) (turn (CallConnect h) st) =
    set_trace
      (trace st ++
       [SockCreate (length (sockets st)) (if truthy (secure (_config st)) then Tls else Net);
        SockSetEncoding (length (sockets st));
        SockSetTimeout (length (sockets st)) (timeout (_config st));
        Emit CConnect])
      (set_regs
         (regs st ++ Reg (length (sockets st)) (OnCloseCmd (length (commands st))) true ::
          wired_regs (length (sockets st)))
         (set_isSecure (truthy (secure (_config st)))
            (set_receiveBuffer
               (lb_with_listeners (lb_listeners (_receiveBuffer st) ++ [length (commands st)])
                  (_receiveBuffer st))
               (set_commands (commands st ++ [Command (length (promises st)) h])
                  (set_socket (Some (length (sockets st)))
                     (set_sockets
                        (sockets st ++
                         [SockInfo (if truthy (secure (_config st)) then Tls else Net)
                            None false])
                        (set_promises (promises st ++ [Pending]) st))))))).
Proof.
  intros Hwf Hq Hs. rewrite (turn_connect h st Hq Hs).
  unfold after. rewrite (connect_disconnected h st Hs). cbn [snd].
  set (s := length (sockets st)). set (b := truthy (secure (_config st))).
  set (k := length (commands st)).
  match goal with |- turn _ ?x = _ => set (st1 := x) end.
  assert (Hsnap : List.filter (on_event s EvConnect) (regs st1) = [Reg s (ConnectCb b) true]).
  { unfold st1. cbn [regs set_regs set_receiveBuffer]. rewrite List.filter_app.
    rewrite (fresh_sock_no_regs st s EvConnect Hwf (Nat.le_refl _)).
    cbn [List.filter app]. rewrite !on_event_Reg, Nat.eqb_refl. reflexivity. }
  unfold turn. simpl perform. rewrite sock_emit_connect, Hsnap. cbn [for_each].
  unfold bind at 1. unfold fire at 1. cbn [r_once r_fn r_sock invoke].
  unfold bind at 1, sock_removeListener at 1, modify at 1.
  rewrite (connect_callback_eq b s) by reflexivity.
  unfold ret at 1. cbn [snd]. rewrite run_microtasks_empty by exact Hq.
  cbn [snd]. unfold st1.
  cbn [regs set_regs set_receiveBuffer set_commands set_socket set_trace set_sockets
       set_promises set_isSecure trace _config].
  rewrite (connect_event_regs st s k b Hwf (Nat.le_refl _)).
  rewrite <- !app_assoc. destruct st; reflexivity.
Qed.

(** ** Events of a socket that only the channel listens to *)

Lemma turn_threw (i : input) (e : exn) (st st1 : channel) :
  perform i st = (inl e, st1) -> microtasks st1 = [] ->
  turn i st = set_trace (trace st1 ++ [Uncaught e]) st1.
Proof.
  intros Hp Hq. unfold turn. rewrite Hp. unfold log, modify. cbn [snd].
  rewrite run_microtasks_empty by exact Hq. reflexivity.
Qed.

Lemma sock_emit_single (s : nat) (ev : sevent) (r : reg) (st : channel) :
  List.filter (on_event s (name_of ev)) (regs st) = [r] -> r_once r = false ->
  sock_emit s ev st = invoke (r_fn r) ev st.
Proof.
  intros H Ho. unfold sock_emit, bind, gets. rewrite H.
  assert (E : for_each (fire ev) [r] st = invoke (r_fn r) ev st).
  { cbn [for_each]. unfold fire, bind. rewrite Ho. unfold ret.
    destruct (invoke (r_fn r) ev st) as [[e|[]] st1]; reflexivity. }
  destruct ev; exact E.
Qed.

Lemma error_relay (s : nat) (e : exn) (st : channel) :
  List.filter (on_event s EvError) (regs st) = [Reg s BoundOnError false] ->
  microtasks st = [] ->
  turn (SockEmit s (SError e)) st =
    set_trace (trace st ++ [if errorObserved st then Emit (CError e) else Uncaught e]) st.
Proof.
  intros H Hq.
  assert (E : perform (SockEmit s (SError e)) st = _onError e st).
  { simpl perform. rewrite (sock_emit_single s (SError e) _ st H eq_refl). reflexivity. }
  unfold _onError, chan_emit, bind, gets in E.
  destruct (errorObserved st) eqn:Ho.
  - apply (turn_returned (_onError e) _ tt); [exact E|exact Hq].
  - apply (turn_threw _ e st st); [exact E|exact Hq].
Qed.

Lemma close_relay (s : nat) (b : bool) (st : channel) :
  List.filter (on_event s EvClose) (regs st) = [Reg s BoundOnClose false] ->
  microtasks st = [] ->
  turn (SockEmit s (SClose b)) st = set_trace (trace st ++ [Emit CClose]) (set_socket None st).
Proof.
  intros H Hq. apply (turn_returned _onClose _ tt); [|exact Hq].
  simpl perform. rewrite (sock_emit_single s (SClose b) _ st H eq_refl). reflexivity.
Qed.

Lemma end_relay (s : nat) (st : channel) :
  List.filter (on_event s EvEnd) (regs st) = [Reg s BoundOnEnd false] ->
  microtasks st = [] ->
  turn (SockEmit s SEnd) st = set_trace (trace st ++ [Emit CEnd]) st.
Proof.
  intros H Hq. apply (turn_returned _onEnd _ tt); [|exact Hq].
  simpl perform. rewrite (sock_emit_single s SEnd _ st H eq_refl). reflexivity.
Qed.

Lemma unheard_turn (s : nat) (ev : sevent) (st : channel) :
  List.filter (on_event s (name_of ev)) (regs st) = [] ->
  microtasks st = [] ->
  turn (SockEmit s ev) st =
    match ev with
    | SError e => set_trace (trace st ++ [Uncaught e]) st
    | _ => st
    end.
Proof.
  intros H Hq. pose proof (sock_emit_unheard s ev st H) as E.
  destruct ev;
    first [apply (turn_returned (ret tt) _ tt); [exact E|exact Hq]
          |apply (turn_threw _ _ st st); [exact E|exact Hq]].
Qed.

(** A data event while no command is armed. *)
Lemma data_turn_unsolicited (s : nat) (chunk : string) (st : channel) :
  List.filter (on_event s EvData) (regs st) = [Reg s BoundOnReceive false] ->
  lb_listeners (_receiveBuffer st) = [] ->
  microtasks st = [] ->
  turn (SockEmit s (SData chunk)) st =
    set_trace
      (trace st ++ Emit (CReceive chunk) ::
         map (fun l => Emit (CReply l))
             (fst (lb_split (_receiveBuffer st) (lb_tail (_receiveBuffer st)) chunk)))
      (set_receiveBuffer
         (lb_with_tail (snd (lb_split (_receiveBuffer st) (lb_tail (_receiveBuffer st)) chunk))
            (_receiveBuffer st)) st).
Proof.
  intros Hsnap Hk Hq. apply (turn_returned (_onReceive chunk) _ tt); [|exact Hq].
  simpl perform. rewrite (sock_emit_data s chunk st Hsnap).
  unfold _onReceive. unfold bind at 1. unfold chan_emit, log at 1, modify at 1.
  unfold bind at 1. unfold feed. unfold bind at 1, gets at 1. cbn [_receiveBuffer set_trace].
  destruct (lb_split (_receiveBuffer st) (lb_tail (_receiveBuffer st)) chunk) as [lines t].
  unfold bind at 1, modify at 1. unfold bind at 1.
  rewrite for_each_fixed.
  - unfold ret at 1. unfold _onReply. rewrite (for_each_emit CReply) by discriminate.
    cbn [trace set_trace set_receiveBuffer fst snd]. rewrite <- app_assoc.
    destruct st; reflexivity.
  - intros line _. unfold bind, gets. cbn. rewrite Hk. reflexivity.
Qed.

Lemma remove_last_absent {A : Type} (P : A -> bool) (l : list A) :
  existsb P l = false -> remove_last P l = l.
Proof.
  induction l as [|x l IH]; [reflexivity|]. cbn [existsb remove_last]. intros H.
  apply orb_false_iff in H as [Hx Hl]. rewrite Hx, (IH Hl). reflexivity.
Qed.

Lemma is_reg_fresh (st : channel) (s : nat) (l : listener) :
  well_formed st -> length (sockets st) <= s -> existsb (is_reg s l) (regs st) = false.
Proof.
  intros (_ & Hr & _) Hs. rewrite Forall_forall in Hr.
  induction (regs st) as [|r rs IH]; [reflexivity|]. cbn [existsb].
  rewrite IH by (intros x Hx; apply Hr; right; exact Hx).
  assert (Hlt : r_sock r < length (sockets st)) by (apply Hr; left).
  unfold is_reg. destruct (Nat.eqb (r_sock r) s) eqn:E; [|reflexivity].
  apply Nat.eqb_eq in E. lia.
Qed.

Lemma socket_regs_fresh (st : channel) (s : nat) :
  well_formed st -> length (sockets st) <= s -> socket_regs s st = [].
Proof.
  intros (_ & Hr & _) Hs. unfold socket_regs. apply filter_false_nil. intros r Hin.
  rewrite Forall_forall in Hr. apply list_elem_of_In in Hin. specialize (Hr r Hin).
  simpl in Hr. apply Nat.eqb_neq. lia.
Qed.

(** [connect], then the socket's connect event: the channel emits its
    connect event after the socket is wired. On the new socket the listeners
    are then the [onClose] of the connect command and the five handlers of
    the channel; the command's [onError] was taken away again by
    [removeAllListeners('error')]. The promise of [connect] is still
    pending: it waits for the greeting. The socket was given the utf8
    encoding and the configured inactivity timeout, and [isSecure()] is
    [!!config.secure]. *)
Theorem connect_event_wires (h : option handler) (st : channel) :
  well_formed st -> microtasks st = [] -> _socket st = None ->
  let s := length (sockets st) in
  let k := length (commands st) in
  let st2 := run [CallConnect h; SockEmit s SConnect] st in
  _socket st2 = Some s /\
  socket_regs s st2 = Reg s (OnCloseCmd k) true :: wired_regs s /\
  List.filter (on_event s EvError) (regs st2) = [Reg s BoundOnError false] /\
  promises st2 = promises st ++ [Pending] /\
  commands st2 = commands st ++ [Command (length (promises st)) h] /\
  lb_listeners (_receiveBuffer st2) = lb_listeners (_receiveBuffer st) ++ [k] /\
  isSecure st2 = truthy (secure (_config st)) /\
  trace st2 =
    trace st ++
    [SockCreate s (if truthy (secure (_config st)) then Tls else Net);
     SockSetEncoding s; SockSetTimeout s (timeout (_config st)); Emit CConnect].
Proof.
  intros Hwf Hq Hs. cbv zeta. cbn [run fold_left].
  rewrite (connect_event_turn h st Hwf Hq Hs).
  assert (Hsr : socket_regs (length (sockets st))
                  (set_regs (regs st ++ Reg (length (sockets st))
                                          (OnCloseCmd (length (commands st))) true ::
                             wired_regs (length (sockets st))) st) =
                Reg (length (sockets st)) (OnCloseCmd (length (commands st))) true ::
                wired_regs (length (sockets st))).
  { unfold socket_regs. cbn [regs set_regs]. rewrite List.filter_app.
    fold (socket_regs (length (sockets st)) st).
    rewrite (socket_regs_fresh st _ Hwf (Nat.le_refl _)).
    unfold wired_regs. cbn [List.filter r_sock app]. rewrite Nat.eqb_refl. reflexivity. }
  split; [reflexivity|]. split; [exact Hsr|]. split; [|repeat split].
  rewrite snapshot_socket_regs.
  change (socket_regs (length (sockets st)) _)
    with (socket_regs (length (sockets st))
            (set_regs (regs st ++ Reg (length (sockets st))
                                    (OnCloseCmd (length (commands st))) true ::
                       wired_regs (length (sockets st))) st)).
  rewrite Hsr. reflexivity.
Qed.

Lemma connect_event_wires_witness :
  socket_regs 0 (run [CallConnect None; SockEmit 0 SConnect] sample_new) =
    Reg 0 (OnCloseCmd 0) true :: wired_regs 0 /\
  promises (run [CallConnect None; SockEmit 0 SConnect] sample_new) = [Pending].
Proof.
  pose proof (connect_event_wires None sample_new sample_new_wf eq_refl eq_refl) as H.
  split; [exact (proj1 (proj2 H))|exact (proj1 (proj2 (proj2 (proj2 H))))].
Defined.

Lemma wired_snapshot (s : nat) (n : evname) (st : channel) :
  socket_regs s st = wired_regs s ->
  List.filter (on_event s n) (regs st) =
    List.filter (fun r => bool_decide (event_of (r_fn r) = n)) (wired_regs s).
Proof. intros H. rewrite snapshot_socket_regs, H. reflexivity. Qed.

(** A connected channel on which no command is pending (on its socket only
    the five handlers of the channel are registered) relays the socket's
    events to its observers. The close event clears the transport and is
    emitted as close; the end event is only emitted, the transport is kept
    until the socket closes; an error is emitted as the channel's error event
    when the application listens to it and is thrown otherwise, and in both
    cases leaves the transport and every promise as they are; a second connect
    event is ignored; lines that arrive while no command is armed are reported
    by the receive and reply events and otherwise dropped. The registrations
    and [isSecure()] do not change by any of these. *)
Theorem wired_socket_relays (s : nat) (st : channel) :
  socket_regs s st = wired_regs s -> microtasks st = [] ->
  (forall b, turn (SockEmit s (SClose b)) st =
             set_trace (trace st ++ [Emit CClose]) (set_socket None st)) /\
  turn (SockEmit s SEnd) st = set_trace (trace st ++ [Emit CEnd]) st /\
  (forall e, turn (SockEmit s (SError e)) st =
             set_trace (trace st ++ [if errorObserved st then Emit (CError e)
                                     else Uncaught e]) st) /\
  turn (SockEmit s SConnect) st = st /\
  (lb_listeners (_receiveBuffer st) = [] ->
   forall chunk,
     turn (SockEmit s (SData chunk)) st =
       set_trace
         (trace st ++ Emit (CReceive chunk) ::
            map (fun l => Emit (CReply l))
                (fst (lb_split (_receiveBuffer st) (lb_tail (_receiveBuffer st)) chunk)))
         (set_receiveBuffer
            (lb_with_tail
               (snd (lb_split (_receiveBuffer st) (lb_tail (_receiveBuffer st)) chunk))
               (_receiveBuffer st)) st)).
Proof.
  intros H Hq. split; [|split; [|split; [|split]]].
  - intros b. apply close_relay; [|exact Hq]. rewrite (wired_snapshot s EvClose st H).
    reflexivity.
  - apply end_relay; [|exact Hq]. rewrite (wired_snapshot s EvEnd st H). reflexivity.
  - intros e. apply error_relay; [|exact Hq]. rewrite (wired_snapshot s EvError st H).
    reflexivity.
  - apply (unheard_turn s SConnect st); [|exact Hq].
    cbn [name_of]. rewrite (wired_snapshot s EvConnect st H). reflexivity.
  - intros Hk chunk. apply data_turn_unsolicited; [|exact Hk|exact Hq].
    rewrite (wired_snapshot s EvData st H). reflexivity.
Qed.

Lemma wired_socket_relays_witness :
  turn (SockEmit 0 (SClose true)) sample_connected =
    set_trace (trace sample_connected ++ [Emit CClose]) (set_socket None sample_connected) /\
  turn (SockEmit 0 (SError (Error "reset"))) sample_connected =
    set_trace (trace sample_connected ++ [Emit (CError (Error "reset"))]) sample_connected.
Proof.
  pose proof (wired_socket_relays 0 sample_connected eq_refl eq_refl) as H.
  split; [exact (proj1 H true)|exact (proj1 (proj2 (proj2 H)) (Error "reset"))].
Defined.

(** Lines of a reply that is not finished yet. The chunk of a data event
    completes the lines [ls], none of them terminal (there may be none at
    all, when the chunk ends inside a line), while command [k] is the one
    armed command; its handler, if there is one, returns on each of them. The
    channel emits its receive event with the chunk and a reply event for each
    line, then the handler is called with each line in order; the rest of the
    chunk is kept in the receive buffer. The command stays armed and its
    promise is not touched: registrations, line listeners and promises do
    not change. *)
Theorem unfinished_reply_keeps_waiting (k s p : nat) (h : option handler) (chunk : string)
    (ls : list string) (t : string) (st : channel) :
  List.filter (on_event s EvData) (regs st) = [Reg s BoundOnReceive false] ->
  lb_listeners (_receiveBuffer st) = [k] ->
  commands st !! k = Some (Command p h) ->
  microtasks st = [] ->
  lb_split (_receiveBuffer st) (lb_tail (_receiveBuffer st)) chunk = (ls, t) ->
  Forall (fun l => truthy (isLastReply l) = false) ls ->
  Forall (fun l => handler_result h l = None) ls ->
  turn (SockEmit s (SData chunk)) st =
    set_trace (trace st ++ Emit (CReceive chunk) :: map (fun l => Emit (CReply l)) ls ++
               handler_calls k h ls)
      (set_receiveBuffer (lb_with_tail t (_receiveBuffer st)) st) /\
  promises (turn (SockEmit s (SData chunk)) st) = promises st /\
  regs (turn (SockEmit s (SData chunk)) st) = regs st /\
  lb_listeners (_receiveBuffer (turn (SockEmit s (SData chunk)) st)) = [k] /\
  lb_tail (_receiveBuffer (turn (SockEmit s (SData chunk)) st)) = t.
Proof.
  intros Hsnap Hk Hc Hq Hsplit Hls Hh.
  rewrite (data_turn_continuations k s p h chunk ls t st Hsnap Hk Hc Hq Hsplit Hls Hh).
  repeat split; auto.
Qed.

Lemma unfinished_reply_keeps_waiting_witness :
  trace (turn (SockEmit 0 (SData ("250-first" ++ CRLF ++ "250-second" ++ CRLF ++ "250 la")%string))
           sample_writing) =
    trace sample_writing ++
    [Emit (CReceive ("250-first" ++ CRLF ++ "250-second" ++ CRLF ++ "250 la")%string);
     Emit (CReply "250-first"); Emit (CReply "250-second")] /\
  promises (turn (SockEmit 0 (SData ("250-first" ++ CRLF ++ "250-second" ++ CRLF ++ "250 la")%string))
              sample_writing) !! 1 = Some Pending.
Proof.
  pose proof (unfinished_reply_keeps_waiting 1 0 1 None
                ("250-first" ++ CRLF ++ "250-second" ++ CRLF ++ "250 la")%string
                ["250-first"; "250-second"] "250 la" sample_writing
                eq_refl eq_refl eq_refl eq_refl eq_refl) as H.
  assert (H1 : Forall (fun l => truthy (isLastReply l) = false) ["250-first"; "250-second"])
    by (repeat constructor).
  assert (H2 : Forall (fun l => handler_result None l = None) ["250-first"; "250-second"])
    by (repeat constructor).
  specialize (H H1 H2). destruct H as (E & Hp & _). split.
  - rewrite E. reflexivity.
  - rewrite Hp. reflexivity.
Defined.

(** The reply to a command. The chunk of a data event completes the lines
    [ls], none of them terminal, and then the terminal line [last], while
    command [k] is the one armed command, its promise is pending and its
    handler, if there is one, returns on every line. The channel emits the
    receive event and a reply event for each line, calls the handler with
    each line in order, and then resolves the promise with the code of the
    terminal line; [resolve] is the only call on the promise. The command's
    [onLine] is removed from the receive buffer and its [onClose] and
    [onError] from the socket. *)
Theorem reply_resolves_command (k s p : nat) (h : option handler) (chunk : string)
    (ls : list string) (last t : string) (st : channel) :
  List.filter (on_event s EvData) (regs st) = [Reg s BoundOnReceive false] ->
  _socket st = Some s ->
  lb_listeners (_receiveBuffer st) = [k] ->
  commands st !! k = Some (Command p h) ->
  promises st !! p = Some Pending ->
  microtasks st = [] ->
  lb_split (_receiveBuffer st) (lb_tail (_receiveBuffer st)) chunk = (ls ++ [last], t) ->
  Forall (fun l => truthy (isLastReply l) = false) ls ->
  truthy (isLastReply last) = true ->
  Forall (fun l => handler_result h l = None) (ls ++ [last]) ->
  promises (turn (SockEmit s (SData chunk)) st) =
    <[p := Fulfilled (parseReplyCode last)]> (promises st) /\
  trace (turn (SockEmit s (SData chunk)) st) =
    trace st ++ Emit (CReceive chunk) :: map (fun l => Emit (CReply l)) (ls ++ [last]) ++
    handler_calls k h (ls ++ [last]) ++ [CallResolve p (parseReplyCode last)] /\
  lb_listeners (_receiveBuffer (turn (SockEmit s (SData chunk)) st)) = [] /\
  lb_tail (_receiveBuffer (turn (SockEmit s (SData chunk)) st)) = t /\
  regs (turn (SockEmit s (SData chunk)) st) =
    remove_last (is_reg s (OnErrorCmd k)) (remove_last (is_reg s (OnCloseCmd k)) (regs st)) /\
  (armed k s st -> cmd_regs k (turn (SockEmit s (SData chunk)) st) = []) /\
  _socket (turn (SockEmit s (SData chunk)) st) = Some s.
Proof.
  intros Hsnap Hs Hk Hc Hp Hq Hsplit Hls Hlast Hh.
  rewrite (data_turn_reply k s p h chunk ls last t st Hsnap Hs Hk Hc Hp Hq Hsplit Hls
             Hlast Hh).
  repeat split; auto.
  intros (Hr & _). unfold cmd_regs. cbn [regs set_regs set_promises set_trace set_receiveBuffer].
  apply (cmd_regs_removed k s (OnCloseCmd k) (OnErrorCmd k) (regs st)); auto.
Qed.

Lemma reply_resolves_command_witness :
  promises (turn (SockEmit 0 (SData ("250-first" ++ CRLF ++ "250 last" ++ CRLF)%string))
              sample_writing) !! 1 = Some (Fulfilled (JStr "250")) /\
  cmd_regs 1 (turn (SockEmit 0 (SData ("250-first" ++ CRLF ++ "250 last" ++ CRLF)%string))
                sample_writing) = [].
Proof.
  assert (H1 : Forall (fun l => truthy (isLastReply l) = false) ["250-first"])
    by (repeat constructor).
  assert (H2 : Forall (fun l => handler_result None l = None) (["250-first"] ++ ["250 last"]))
    by (repeat constructor).
  pose proof (reply_resolves_command 1 0 1 None
                ("250-first" ++ CRLF ++ "250 last" ++ CRLF)%string
                ["250-first"] "250 last" EmptyString sample_writing
                eq_refl eq_refl eq_refl eq_refl eq_refl eq_refl eq_refl H1 eq_refl H2) as H.
  destruct H as (Hp & _ & _ & _ & _ & Hr & _). split.
  - rewrite Hp. reflexivity.
  - apply Hr. exact sample_writing_armed.
Defined.

(** ** From [connect] to the greeting *)

(** Prove the first premise of [H], then go on with its conclusion. *)
Ltac premise H :=
  match type of H with
  | ?A -> _ => let HA := fresh in assert (HA : A); [|specialize (H HA); clear HA]
  end.

Lemma wired_no_command (s k : nat) (l : listener) :
  of_cmd k l = true -> existsb (is_reg s l) (wired_regs s) = false.
Proof.
  intros H. unfold wired_regs. cbn [existsb].
  rewrite !is_reg_other by (intros <-; discriminate H). reflexivity.
Qed.

Lemma greeting_regs (st : channel) (s k : nat) :
  well_formed st -> length (sockets st) <= s ->
  remove_last (is_reg s (OnErrorCmd k))
    (remove_last (is_reg s (OnCloseCmd k))
       (regs st ++ Reg s (OnCloseCmd k) true :: wired_regs s)) =
    regs st ++ wired_regs s.
Proof.
  intros Hwf Hs.
  assert (H1 : existsb (is_reg s (OnCloseCmd k)) (wired_regs s) = false)
    by (apply (wired_no_command s k); simpl; apply Nat.eqb_refl).
  assert (H2 : existsb (is_reg s (OnErrorCmd k)) (wired_regs s) = false)
    by (apply (wired_no_command s k); simpl; apply Nat.eqb_refl).
  rewrite remove_last_app_r by (cbn [existsb]; rewrite is_reg_self; reflexivity).
  cbn [remove_last]. rewrite is_reg_self, H1. cbn [andb negb].
  apply remove_last_absent. rewrite existsb_app, H2, (is_reg_fresh st s _ Hwf Hs).
  reflexivity.
Qed.

(** A session is established: [connect] on a channel without transport
    and without a pending command (no [onLine] is registered on the receive
    buffer), the connect event of the new socket, and then a data event whose
    chunk completes the greeting (lines that are not terminal, then a
    terminal one), with a handler that returns on each line. The promise of
    [connect]
    is fulfilled with the code of the terminal line; the handler was called
    once per line, in order, after the channel's connect, receive and reply
    events; the new socket is the transport and carries the five handlers of
    the channel and nothing else; no line listener is left. *)
Theorem greeting_completes_connect (h : option handler) (chunk : string)
    (ls : list string) (last t : string) (st : channel) :
  well_formed st -> microtasks st = [] -> _socket st = None ->
  lb_listeners (_receiveBuffer st) = [] ->
  lb_split (_receiveBuffer st) (lb_tail (_receiveBuffer st)) chunk = (ls ++ [last], t) ->
  Forall (fun l => truthy (isLastReply l) = false) ls ->
  truthy (isLastReply last) = true ->
  Forall (fun l => handler_result h l = None) (ls ++ [last]) ->
  let s := length (sockets st) in
  let st3 := run [CallConnect h; SockEmit s SConnect; SockEmit s (SData chunk)] st in
  promises st3 = promises st ++ [Fulfilled (parseReplyCode last)] /\
  _socket st3 = Some s /\
  socket_regs s st3 = wired_regs s /\
  regs st3 = regs st ++ wired_regs s /\
  lb_listeners (_receiveBuffer st3) = [] /\
  microtasks st3 = [] /\
  trace st3 =
    trace st ++
    [SockCreate s (if truthy (secure (_config st)) then Tls else Net);
     SockSetEncoding s; SockSetTimeout s (timeout (_config st)); Emit CConnect;
     Emit (CReceive chunk)] ++
    map (fun l => Emit (CReply l)) (ls ++ [last]) ++
    handler_calls (length (commands st)) h (ls ++ [last]) ++
    [CallResolve (length (promises st)) (parseReplyCode last)].
Proof.
  intros Hwf Hq Hs Hk Hsplit Hls Hlast Hh. cbv zeta. cbn [run fold_left].
  rewrite (connect_event_turn h st Hwf Hq Hs).
  match goal with |- context [turn _ ?x] => set (st2 := x) end.
  pose proof (data_turn_reply (length (commands st)) (length (sockets st))
                (length (promises st)) h chunk ls last t st2) as E.
  premise E.
  { unfold st2. cbn [regs set_regs set_trace]. rewrite List.filter_app.
    rewrite (fresh_sock_no_regs st _ EvData Hwf (Nat.le_refl _)).
    unfold wired_regs. cbn [List.filter app]. rewrite !on_event_Reg, Nat.eqb_refl.
    reflexivity. }
  premise E. { reflexivity. }
  premise E. { unfold st2. cbn. rewrite Hk. reflexivity. }
  premise E. { unfold st2. cbn. apply lookup_snoc_length. }
  premise E. { unfold st2. cbn. apply lookup_snoc_length. }
  premise E. { exact Hq. }
  premise E. { unfold st2. cbn. exact Hsplit. }
  specialize (E Hls Hlast Hh).
  rewrite E. unfold st2.
  cbn [promises regs _socket _receiveBuffer microtasks trace set_promises set_trace
       set_receiveBuffer set_regs set_isSecure set_commands set_socket set_sockets
       lb_listeners lb_with_listeners lb_with_tail].
  rewrite (greeting_regs st _ _ Hwf (Nat.le_refl _)).
  split; [apply insert_snoc_length|]. split; [reflexivity|]. split; [|split; [reflexivity|]].
  - unfold socket_regs. cbn [regs set_promises set_trace set_receiveBuffer set_regs].
    rewrite List.filter_app. fold (socket_regs (length (sockets st)) st).
    rewrite (socket_regs_fresh st _ Hwf (Nat.le_refl _)).
    unfold wired_regs. cbn [List.filter r_sock app]. rewrite Nat.eqb_refl. reflexivity.
  - split; [reflexivity|]. split; [exact Hq|]. rewrite <- !app_assoc. reflexivity.
Qed.

Lemma greeting_completes_connect_witness :
  promises (run [CallConnect None; SockEmit 0 SConnect;
                 SockEmit 0 (SData ("220-hello" ++ CRLF ++ "220 ready" ++ CRLF)%string)]
              sample_new) = [Fulfilled (JStr "220")] /\
  socket_regs 0 (run [CallConnect None; SockEmit 0 SConnect;
                      SockEmit 0 (SData ("220-hello" ++ CRLF ++ "220 ready" ++ CRLF)%string)]
                   sample_new) = wired_regs 0.
Proof.
  assert (H1 : Forall (fun l => truthy (isLastReply l) = false) ["220-hello"])
    by (repeat constructor).
  assert (H2 : Forall (fun l => handler_result None l = None) (["220-hello"] ++ ["220 ready"]))
    by (repeat constructor).
  pose proof (greeting_completes_connect None
                ("220-hello" ++ CRLF ++ "220 ready" ++ CRLF)%string
                ["220-hello"] "220 ready" EmptyString sample_new
                sample_new_wf eq_refl eq_refl eq_refl eq_refl H1 eq_refl H2) as H.
  split; [exact (proj1 H)|exact (proj1 (proj2 (proj2 H)))].
Defined.

(** ** A connection attempt that fails *)

Lemma reject_pending (p : nat) (e : exn) (st : channel) :
  promises st !! p = Some Pending ->
  reject p e st =
    (inr tt, set_promises (<[p := Rejected e]> (promises st))
               (set_trace (trace st ++ [CallReject p e]) st)).
Proof.
  intros H. unfold reject, log, settle, bind, modify. simpl. rewrite H. reflexivity.
Qed.

Lemma fire_error_eq (k s s' p : nat) (h : option handler) (e : exn) (st : channel) :
  commands st !! k = Some (Command p h) -> _socket st = Some s' ->
  promises st !! p = Some Pending ->
  fire (SError e) (Reg s (OnErrorCmd k) true) st =
    (inr tt,
     set_promises (<[p := Rejected e]> (promises st))
       (set_trace (trace st ++ [CallReject p e])
          (set_receiveBuffer
             (lb_with_listeners
                (remove_last (Nat.eqb k) (lb_listeners (_receiveBuffer st)))
                (_receiveBuffer st))
             (set_regs
                (remove_last (is_reg s' (OnCloseCmd k))
                   (remove_last (is_reg s (OnErrorCmd k)) (regs st))) st)))).
Proof.
  intros Hc Hs Hp.
  set (st1 := set_receiveBuffer
               (lb_with_listeners
                  (remove_last (Nat.eqb k) (lb_listeners (_receiveBuffer st)))
                  (_receiveBuffer st))
               (set_regs
                  (remove_last (is_reg s' (OnCloseCmd k))
                     (remove_last (is_reg s (OnErrorCmd k)) (regs st))) st)).
  assert (E : fire (SError e) (Reg s (OnErrorCmd k) true) st = reject p e st1).
  { rewrite <- (cmd_reject_spec k p h) by (destruct st; exact Hc).
    unfold st1. destruct st. simpl in Hs. subst. reflexivity. }
  rewrite E, (reject_pending p e st1) by (destruct st; exact Hp). reflexivity.
Qed.

Lemma sock_emit_once (s : nat) (ev : sevent) (r : reg) (st : channel) :
  List.filter (on_event s (name_of ev)) (regs st) = [r] ->
  sock_emit s ev st = fire ev r st.
Proof.
  intros H. unfold sock_emit, bind, gets. rewrite H.
  assert (E : for_each (fire ev) [r] st = fire ev r st).
  { cbn [for_each]. unfold bind, ret. destruct (fire ev r st) as [[e|[]] st1]; reflexivity. }
  destruct ev; exact E.
Qed.

Lemma remove_last_snoc {A : Type} (P : A -> bool) (l : list A) (x : A) :
  P x = true -> remove_last P (l ++ [x]) = l.
Proof.
  intros H. rewrite remove_last_app_r by (cbn [existsb]; rewrite H; reflexivity).
  cbn [remove_last existsb]. rewrite H. cbn [andb negb]. apply app_nil_r.
Qed.

Lemma failed_connect_regs (st : channel) (s k : nat) (b : bool) :
  remove_last (is_reg s (OnCloseCmd k))
    (remove_last (is_reg s (OnErrorCmd k))
       (regs st ++ [Reg s (ConnectCb b) true; Reg s (OnCloseCmd k) true;
                    Reg s (OnErrorCmd k) true])) =
    regs st ++ [Reg s (ConnectCb b) true].
Proof.
  change (regs st ++ [Reg s (ConnectCb b) true; Reg s (OnCloseCmd k) true;
                      Reg s (OnErrorCmd k) true])
    with (regs st ++ [Reg s (ConnectCb b) true; Reg s (OnCloseCmd k) true] ++
          [Reg s (OnErrorCmd k) true]).
  rewrite app_assoc, remove_last_snoc by apply is_reg_self.
  change (regs st ++ [Reg s (ConnectCb b) true; Reg s (OnCloseCmd k) true])
    with (regs st ++ [Reg s (ConnectCb b) true] ++ [Reg s (OnCloseCmd k) true]).
  rewrite app_assoc, remove_last_snoc by apply is_reg_self. reflexivity.
Qed.

(** The error event of the socket that [connect] created, before it
    connected. *)
Lemma failed_connect_turn (h : option handler) (e : exn) (st : channel) :
  well_formed st -> microtasks st = [] -> _socket st = None ->
  turn (SockEmit (length (sockets st)) (SError e)) (turn (CallConnect h) st) =
    set_promises (promises st ++ [Rejected e])
      (set_trace
         (trace st ++
          [SockCreate (length (sockets st)) (if truthy (secure (_config st)) then Tls else Net);
           CallReject (length (promises st)) e])
         (set_regs
            (regs st ++ [Reg (length (sockets st)) (ConnectCb (truthy (secure (_config st))))
                           true])
            (set_commands (commands st ++ [Command (length (promises st)) h])
               (set_socket (Some (length (sockets st)))
                  (set_sockets
                     (sockets st ++
                      [SockInfo (if truthy (secure (_config st)) then Tls else Net)
                         None false]) st))))).
Proof.
  intros Hwf Hq Hs. rewrite (turn_connect h st Hq Hs).
  unfold after. rewrite (connect_disconnected h st Hs). cbn [snd].
  set (s := length (sockets st)). set (b := truthy (secure (_config st))).
  set (k := length (commands st)). set (p := length (promises st)).
  match goal with |- turn _ ?x = _ => set (st1 := x) end.
  assert (Hsnap : List.filter (on_event s (name_of (SError e))) (regs st1) =
                    [Reg s (OnErrorCmd k) true]).
  { unfold st1. cbn [regs set_regs set_receiveBuffer name_of]. rewrite List.filter_app.
    rewrite (fresh_sock_no_regs st s EvError Hwf (Nat.le_refl _)).
    cbn [List.filter app]. rewrite !on_event_Reg, Nat.eqb_refl. reflexivity. }
  apply (turn_returned (fire (SError e) (Reg s (OnErrorCmd k) true)) _ tt); [|exact Hq].
  simpl perform. rewrite (sock_emit_once s (SError e) _ st1 Hsnap).
  rewrite (fire_error_eq k s s p h e st1);
    [|unfold st1; cbn; apply lookup_snoc_length|reflexivity
     |unfold st1; cbn; apply lookup_snoc_length].
  unfold st1, s, b, k, p.
  cbn [promises regs trace _receiveBuffer set_promises set_trace set_receiveBuffer set_regs
       set_commands set_socket set_sockets lb_listeners lb_with_listeners].
  rewrite failed_connect_regs, insert_snoc_length, <- app_assoc.
  rewrite remove_last_snoc by apply Nat.eqb_refl.
  destruct st as [? ? [? ? ?] ? ? ? ? ? ? ? ? ?]; reflexivity.
Qed.

Lemma turn_connect_connected (h : option handler) (s : nat) (st : channel) :
  microtasks st = [] -> _socket st = Some s ->
  turn (CallConnect h) st =
    set_trace (trace st ++ [CallResolve (length (promises st)) JUndefined])
      (set_promises (promises st ++ [Fulfilled JUndefined]) st).
Proof.
  intros Hq Hs. apply (turn_returned (connect h) _ tt); [|exact Hq].
  simpl. unfold bind. rewrite (connect_connected h s st Hs). reflexivity.
Qed.

(** A connection attempt that fails. When the socket created by [connect]
    emits an error before it connects, the promise of [connect] is rejected
    with that error and the listeners of the connect command are removed;
    the channel emits no error event of its own. The dead socket stays the
    channel's transport: nothing is registered for its close event, so the
    close that follows changes nothing, and a second [connect] finds a
    transport and resolves at once without creating a socket. *)
Theorem failed_connect_leaves_transport (h : option handler) (e : exn) (st : channel) :
  well_formed st -> microtasks st = [] -> _socket st = None ->
  let s := length (sockets st) in
  let st2 := run [CallConnect h; SockEmit s (SError e)] st in
  promises st2 = promises st ++ [Rejected e] /\
  trace st2 =
    trace st ++ [SockCreate s (if truthy (secure (_config st)) then Tls else Net);
                 CallReject (length (promises st)) e] /\
  _socket st2 = Some s /\
  socket_regs s st2 = [Reg s (ConnectCb (truthy (secure (_config st)))) true] /\
  lb_listeners (_receiveBuffer st2) = lb_listeners (_receiveBuffer st) /\
  (forall b, turn (SockEmit s (SClose b)) st2 = st2) /\
  (forall h',
     promises (turn (CallConnect h') st2) = promises st2 ++ [Fulfilled JUndefined] /\
     sockets (turn (CallConnect h') st2) = sockets st2 /\
     _socket (turn (CallConnect h') st2) = Some s).
Proof.
  intros Hwf Hq Hs. cbv zeta. cbn [run fold_left].
  rewrite (failed_connect_turn h e st Hwf Hq Hs).
  match goal with |- context [socket_regs _ ?x] => set (st2 := x) end.
  assert (Hsr : socket_regs (length (sockets st)) st2 =
                  [Reg (length (sockets st)) (ConnectCb (truthy (secure (_config st)))) true]).
  { unfold socket_regs, st2.
    cbn [regs set_promises set_trace set_regs]. rewrite List.filter_app.
    fold (socket_regs (length (sockets st)) st).
    rewrite (socket_regs_fresh st _ Hwf (Nat.le_refl _)).
    cbn [List.filter r_sock app]. rewrite Nat.eqb_refl. reflexivity. }
  split; [reflexivity|]. split; [reflexivity|]. split; [reflexivity|].
  split; [exact Hsr|]. split; [reflexivity|]. split.
  - intros b. apply (unheard_turn _ (SClose b) st2); [|exact Hq].
    cbn [name_of]. rewrite snapshot_socket_regs, Hsr. reflexivity.
  - intros h'.
    rewrite (turn_connect_connected h' (length (sockets st)) st2 Hq eq_refl).
    repeat split.
Qed.

Lemma failed_connect_leaves_transport_witness :
  promises (run [CallConnect None; SockEmit 0 (SError (Error "ECONNREFUSED"))] sample_new) =
    [Rejected (Error "ECONNREFUSED")] /\
  _socket (run [CallConnect None; SockEmit 0 (SError (Error "ECONNREFUSED"))] sample_new) =
    Some 0.
Proof.
  pose proof (failed_connect_leaves_transport None (Error "ECONNREFUSED") sample_new
                sample_new_wf eq_refl eq_refl) as H.
  split; [exact (proj1 H)|exact (proj1 (proj2 (proj2 H)))].
Defined.

(** ** Upgrading to TLS *)

Lemma stripped_In (s0 : nat) (rs : list reg) (r : reg) :
  In r (stripped s0 rs) <->
  In r rs /\ (r_sock r = s0 -> event_of (r_fn r) = EvConnect).
Proof.
  unfold stripped. rewrite !filter_In, !negb_true_iff. unfold on_event.
  destruct (Nat.eqb (r_sock r) s0) eqn:E; cbn [andb].
  - apply Nat.eqb_eq in E. rewrite !bool_decide_eq_false. split.
    + intros (((((Hin & H1) & H2) & H3) & H4) & H5). split; [exact Hin|]. intros _.
      destruct (event_of (r_fn r)); congruence.
    + intros [Hin H]. specialize (H E). rewrite H. repeat split; auto; discriminate.
  - apply Nat.eqb_neq in E. split.
    + intros (((((Hin & _) & _) & _) & _) & _). split; [exact Hin|]. intros H. contradiction.
    + intros [Hin _]. repeat split; auto.
Qed.

Lemma stripped_snapshot (s0 : nat) (n : evname) (rs : list reg) :
  n <> EvConnect -> List.filter (on_event s0 n) (stripped s0 rs) = [].
Proof.
  intros Hn. apply filter_false_nil. intros r Hr. apply stripped_In in Hr as [_ Hr].
  destruct (on_event s0 n r) eqn:E; [|reflexivity].
  apply on_event_spec in E as [Hs He]. rewrite (Hr Hs) in He. congruence.
Qed.

Lemma stripped_fresh (st : channel) (s0 s : nat) (n : evname) :
  well_formed st -> length (sockets st) <= s ->
  List.filter (on_event s n) (stripped s0 (regs st)) = [].
Proof.
  intros Hwf Hs. apply filter_false_nil. intros r Hr. apply stripped_In in Hr as [Hr _].
  exact (filter_nil_false _ _ r (fresh_sock_no_regs st s n Hwf Hs) Hr).
Qed.

Lemma stripped_commands (s0 k : nat) (rs : list reg) :
  Forall (fun r => r_sock r = s0) (List.filter (fun r => of_cmd k (r_fn r)) rs) ->
  List.filter (fun r => of_cmd k (r_fn r)) (stripped s0 rs) = [].
Proof.
  intros H. apply filter_false_nil. intros r Hr. apply stripped_In in Hr as [Hin He].
  destruct (of_cmd k (r_fn r)) eqn:E; [|reflexivity].
  rewrite Forall_forall in H.
  assert (Hs : r_sock r = s0).
  { apply H. apply list_elem_of_In. apply filter_In. auto. }
  specialize (He Hs). destruct (r_fn r); simpl in *; discriminate.
Qed.

Lemma negotiateTLS_turn (s0 : nat) (st : channel) :
  microtasks st = [] -> _socket st = Some s0 ->
  turn CallNegotiateTLS st =
    set_regs
      (stripped s0 (regs st) ++
       [Reg (length (sockets st)) (UpgradeCb (length (promises st))) true;
        Reg (length (sockets st)) (RejectFn (length (promises st))) false])
      (set_socket (Some (length (sockets st)))
         (set_trace (trace st ++ [SockCreate (length (sockets st)) Tls])
            (set_sockets (sockets st ++ [SockInfo Tls (Some s0) false])
               (set_promises (promises st ++ [Pending]) st)))).
Proof.
  intros Hq Hs. rewrite (turn_negotiateTLS s0 st Hq Hs). unfold after.
  rewrite (negotiateTLS_connected s0 st Hs). reflexivity.
Qed.

(** [negotiateTLS] takes every listener for close, data, end, error and
    timeout off the socket it upgrades, those of a pending command
    included, and makes the new TLS socket the transport at once, before
    the handshake has finished. The old socket's close, data, end and
    timeout events no longer reach the channel. A command that was armed on
    the old socket keeps its [onLine] only: it can still be settled by a
    reply, but no close or error will reject it. [isSecure()] does not
    change yet. *)
Theorem negotiateTLS_strips_old_socket (s0 : nat) (st : channel) :
  well_formed st -> microtasks st = [] -> _socket st = Some s0 ->
  let s := length (sockets st) in
  let st1 := turn CallNegotiateTLS st in
  _socket st1 = Some s /\
  sockets st1 = sockets st ++ [SockInfo Tls (Some s0) false] /\
  promises st1 = promises st ++ [Pending] /\
  trace st1 = trace st ++ [SockCreate s Tls] /\
  isSecure st1 = isSecure st /\
  socket_regs s st1 =
    [Reg s (UpgradeCb (length (promises st))) true;
     Reg s (RejectFn (length (promises st))) false] /\
  (forall n, n <> EvConnect -> List.filter (on_event s0 n) (regs st1) = []) /\
  (forall ev, name_of ev <> EvConnect -> name_of ev <> EvError ->
              turn (SockEmit s0 ev) st1 = st1) /\
  (forall k, armed k s0 st -> cmd_regs k st1 = [] /\ cmd_lines k st1 = [k]).
Proof.
  intros Hwf Hq Hs. cbv zeta. rewrite (negotiateTLS_turn s0 st Hq Hs).
  assert (Hlt : s0 < length (sockets st)) by (destruct Hwf as (H & _); apply H, Hs).
  assert (Hne : Nat.eqb (length (sockets st)) s0 = false) by (apply Nat.eqb_neq; lia).
  match goal with |- context [socket_regs _ ?x] => set (st1 := x) end.
  assert (Hold : forall n, n <> EvConnect -> List.filter (on_event s0 n) (regs st1) = []).
  { intros n Hn. unfold st1. cbn [regs set_regs]. rewrite List.filter_app.
    rewrite (stripped_snapshot s0 n _ Hn). cbn [List.filter app].
    rewrite !on_event_Reg, Hne. reflexivity. }
  split; [reflexivity|]. split; [reflexivity|]. split; [reflexivity|].
  split; [reflexivity|]. split; [reflexivity|]. split; [|split; [exact Hold|split]].
  - unfold socket_regs, st1. cbn [regs set_regs]. rewrite List.filter_app.
    rewrite (filter_false_nil _ (stripped s0 (regs st))).
    + cbn [List.filter r_sock app]. rewrite Nat.eqb_refl. reflexivity.
    + intros r Hr. apply stripped_In in Hr as [Hr _].
      destruct Hwf as (_ & Hreg & _). rewrite Forall_forall in Hreg.
      apply list_elem_of_In in Hr. specialize (Hreg r Hr). simpl in Hreg.
      apply Nat.eqb_neq. lia.
  - intros ev H1 H2. rewrite (unheard_turn s0 ev st1 (Hold _ H1) Hq).
    destruct ev; try reflexivity. contradiction H2. reflexivity.
  - intros k (Hr & Hl & _). split; [|exact Hl].
    unfold cmd_regs, st1. cbn [regs set_regs]. rewrite List.filter_app.
    rewrite stripped_commands; [reflexivity|].
    fold (cmd_regs k st). destruct Hr as [-> | ->]; repeat constructor.
Qed.

Lemma sample_writing_wf : well_formed sample_writing.
Proof.
  repeat split.
  - intros s H. vm_compute in H. injection H as <-. vm_compute. lia.
  - vm_compute. repeat constructor.
  - vm_compute. repeat constructor.
  - apply Forall_forall. intros r Hr p Hp. apply list_elem_of_In in Hr.
    vm_compute in Hr.
    repeat (destruct Hr as [<-|Hr]; [discriminate Hp|]). destruct Hr.
Qed.

Lemma negotiateTLS_strips_old_socket_witness :
  _socket (turn CallNegotiateTLS sample_writing) = Some 1 /\
  cmd_regs 1 (turn CallNegotiateTLS sample_writing) = [] /\
  cmd_lines 1 (turn CallNegotiateTLS sample_writing) = [1].
Proof.
  pose proof (negotiateTLS_strips_old_socket 0 sample_writing sample_writing_wf
                eq_refl eq_refl) as H.
  split; [exact (proj1 H)|].
  exact (proj2 (proj2 (proj2 (proj2 (proj2 (proj2 (proj2 (proj2 H))))))) 1
           sample_writing_armed).
Defined.

(** The TLS handshake fails. When the socket made by [negotiateTLS] emits
    an error before its connect event, the promise of [negotiateTLS] is
    rejected with that error by the [reject] registered with [on]. The
    channel does not go back: the failed TLS socket stays its transport
    and keeps both listeners, the old socket stays stripped, [isSecure()]
    is unchanged, and no error event is emitted by the channel. *)
Theorem failed_upgrade_keeps_new_socket (s0 : nat) (e : exn) (st : channel) :
  well_formed st -> microtasks st = [] -> _socket st = Some s0 ->
  let s := length (sockets st) in
  let p := length (promises st) in
  let st2 := run [CallNegotiateTLS; SockEmit s (SError e)] st in
  promises st2 = promises st ++ [Rejected e] /\
  trace st2 = trace st ++ [SockCreate s Tls; CallReject p e] /\
  _socket st2 = Some s /\
  isSecure st2 = isSecure st /\
  regs st2 = stripped s0 (regs st) ++ [Reg s (UpgradeCb p) true; Reg s (RejectFn p) false].
Proof.
  intros Hwf Hq Hs. cbv zeta. cbn [run fold_left].
  rewrite (negotiateTLS_turn s0 st Hq Hs).
  match goal with |- context [turn _ ?x] => set (st1 := x) end.
  assert (Hsnap : List.filter (on_event (length (sockets st)) (name_of (SError e)))
                    (regs st1) =
                  [Reg (length (sockets st)) (RejectFn (length (promises st))) false]).
  { unfold st1. cbn [regs set_regs name_of]. rewrite List.filter_app.
    rewrite (stripped_fresh st s0 _ EvError Hwf (Nat.le_refl _)).
    cbn [List.filter app]. rewrite !on_event_Reg, Nat.eqb_refl. reflexivity. }
  assert (E : turn (SockEmit (length (sockets st)) (SError e)) st1 =
              set_promises (<[length (promises st) := Rejected e]> (promises st1))
                (set_trace (trace st1 ++ [CallReject (length (promises st)) e]) st1)).
  { apply (turn_returned (reject (length (promises st)) e) _ tt); [|exact Hq].
    simpl perform. rewrite (sock_emit_single _ (SError e) _ st1 Hsnap eq_refl).
    cbn [r_fn invoke]. apply reject_pending. unfold st1. cbn. apply lookup_snoc_length. }
  rewrite E. unfold st1.
  cbn [promises regs trace _socket isSecure _isSecure set_promises set_trace set_regs
       set_socket set_sockets].
  rewrite insert_snoc_length, <- app_assoc. repeat split.
Qed.

Lemma failed_upgrade_keeps_new_socket_witness :
  promises (run [CallNegotiateTLS; SockEmit 1 (SError (Error "handshake"))] sample_connected)
    !! 1 = Some (Rejected (Error "handshake")) /\
  _socket (run [CallNegotiateTLS; SockEmit 1 (SError (Error "handshake"))] sample_connected) =
    Some 1.
Proof.
  pose proof (failed_upgrade_keeps_new_socket 0 (Error "handshake") sample_connected
                sample_connected_wf eq_refl eq_refl) as H.
  split; [exact (f_equal (fun l => l !! 1) (proj1 H))|exact (proj1 (proj2 (proj2 H)))].
Defined.

Lemma upgrade_event_regs (st : channel) (s0 s p : nat) :
  well_formed st -> length (sockets st) <= s ->
  List.filter (fun r => negb (on_event s EvError r))
    (remove_last (is_reg s (UpgradeCb p))
       (stripped s0 (regs st) ++ [Reg s (UpgradeCb p) true; Reg s (RejectFn p) false])) =
    stripped s0 (regs st).
Proof.
  intros Hwf Hs.
  assert (H1 : is_reg s (UpgradeCb p) (Reg s (RejectFn p) false) = false)
    by (apply is_reg_other; discriminate).
  rewrite remove_last_app_r by (cbn [existsb]; rewrite is_reg_self; reflexivity).
  cbn [remove_last existsb]. rewrite is_reg_self, H1. cbn [orb negb andb].
  rewrite List.filter_app. cbn [List.filter]. rewrite on_event_Reg, Nat.eqb_refl.
  cbn [andb negb event_of]. rewrite app_nil_r.
  apply filter_all_true. intros r Hr.
  rewrite (filter_nil_false _ _ r (stripped_fresh st s0 s EvError Hwf Hs) Hr). reflexivity.
Qed.

(** The TLS handshake succeeds. At the connect event of the socket made
    by [negotiateTLS] the promise is fulfilled (with [undefined]),
    [isSecure()] becomes [true], and the new socket carries the five
    handlers of the channel and nothing else: the [reject] registered for
    the handshake is removed again. The socket is given the encoding and the
    configured timeout. Unlike [connect], the upgrade emits no connect event
    on the channel. *)
Theorem upgrade_event_wires (s0 : nat) (st : channel) :
  well_formed st -> microtasks st = [] -> _socket st = Some s0 ->
  let s := length (sockets st) in
  let p := length (promises st) in
  let st2 := run [CallNegotiateTLS; SockEmit s SConnect] st in
  promises st2 = promises st ++ [Fulfilled JUndefined] /\
  trace st2 =
    trace st ++ [SockCreate s Tls; SockSetEncoding s; SockSetTimeout s (timeout (_config st));
                 CallResolve p JUndefined] /\
  _socket st2 = Some s /\
  isSecure st2 = true /\
  regs st2 = stripped s0 (regs st) ++ wired_regs s /\
  socket_regs s st2 = wired_regs s.
Proof.
  intros Hwf Hq Hs. cbv zeta. cbn [run fold_left].
  rewrite (negotiateTLS_turn s0 st Hq Hs).
  match goal with |- context [turn _ ?x] => set (st1 := x) end.
  assert (Hsnap : List.filter (on_event (length (sockets st)) (name_of SConnect))
                    (regs st1) =
                  [Reg (length (sockets st)) (UpgradeCb (length (promises st))) true]).
  { unfold st1. cbn [regs set_regs name_of]. rewrite List.filter_app.
    rewrite (stripped_fresh st s0 _ EvConnect Hwf (Nat.le_refl _)).
    cbn [List.filter app]. rewrite !on_event_Reg, Nat.eqb_refl. reflexivity. }
  assert (E : exists st2, turn (SockEmit (length (sockets st)) SConnect) st1 = st2 /\
                promises st2 = promises st ++ [Fulfilled JUndefined] /\
                trace st2 = trace st ++ [SockCreate (length (sockets st)) Tls;
                                         SockSetEncoding (length (sockets st));
                                         SockSetTimeout (length (sockets st))
                                           (timeout (_config st));
                                         CallResolve (length (promises st)) JUndefined] /\
                _socket st2 = Some (length (sockets st)) /\
                _isSecure st2 = true /\
                regs st2 = stripped s0 (regs st) ++ wired_regs (length (sockets st))).
  { eexists. split.
    - apply (turn_returned (fire SConnect (Reg (length (sockets st))
                                             (UpgradeCb (length (promises st))) true)) _ tt).
      + simpl perform. rewrite (sock_emit_once _ SConnect _ st1 Hsnap).
        unfold fire. cbn [r_once r_fn r_sock invoke].
        unfold bind at 1, sock_removeListener at 1, modify at 1.
        apply (upgrade_callback_eq _ (length (sockets st))); [reflexivity|].
        unfold st1. cbn. apply lookup_snoc_length.
      + exact Hq.
    - unfold st1.
      cbn [promises regs trace _socket _isSecure _config set_promises set_trace set_regs
           set_socket set_sockets set_isSecure].
      rewrite insert_snoc_length, <- app_assoc.
      rewrite (upgrade_event_regs st s0 _ _ Hwf (Nat.le_refl _)). repeat split. }
  destruct E as (st2 & -> & H1 & H2 & H3 & H4 & H5).
  split; [exact H1|]. split; [exact H2|]. split; [exact H3|]. split; [exact H4|].
  split; [exact H5|]. unfold socket_regs. rewrite H5, List.filter_app.
  rewrite (filter_false_nil _ (stripped s0 (regs st))).
  - unfold wired_regs. cbn [List.filter r_sock app]. rewrite Nat.eqb_refl. reflexivity.
  - intros r Hr. apply stripped_In in Hr as [Hr _].
    destruct Hwf as (_ & Hreg & _). rewrite Forall_forall in Hreg.
    apply list_elem_of_In in Hr. specialize (Hreg r Hr). simpl in Hreg.
    apply Nat.eqb_neq. lia.
Qed.

Lemma upgrade_event_wires_witness :
  isSecure (run [CallNegotiateTLS; SockEmit 1 SConnect] sample_connected) = true /\
  socket_regs 1 (run [CallNegotiateTLS; SockEmit 1 SConnect] sample_connected) =
    wired_regs 1.
Proof.
  pose proof (upgrade_event_wires 0 sample_connected sample_connected_wf eq_refl eq_refl)
    as H.
  split; [exact (proj1 (proj2 (proj2 (proj2 H))))|
          exact (proj2 (proj2 (proj2 (proj2 (proj2 H)))))].
Defined.

(** ** Closing while a command is pending *)

Lemma close_keeps_armed (k s p : nat) (st : channel) :
  _socket st = Some s -> armed k s st -> owns k p st ->
  armed k s (after close st) /\ owns k p (after close st).
Proof.
  intros Hs (Hr & Hl & Hsend & Hj) ((h & Hc) & Hp & Hu & Hf).
  unfold after. rewrite (close_connected s st Hs). cbn [snd]. split.
  - split; [|split; [exact Hl|split; [exact Hsend|exact Hj]]].
    unfold cmd_regs. cbn [regs set_socket set_trace set_sockets set_regs].
    rewrite List.filter_app. cbn [List.filter r_fn of_cmd]. rewrite app_nil_r. exact Hr.
  - split; [exists h; exact Hc|]. split; [|split; [exact Hu|]].
    + cbn. rewrite length_app. simpl. lia.
    + cbn [regs set_socket set_trace set_sockets set_regs].
      rewrite List.filter_app, Hf. cbn [List.filter r_fn of_promise app].
      replace (Nat.eqb (length (promises st)) p) with false; [reflexivity|].
      symmetry. apply Nat.eqb_neq. lia.
Qed.

(** [close()] while a command is pending. The command's promise stays
    pending until the socket closes; at the socket's close event it is
    rejected with "Socket has closed unexpectedly" and its [onLine] is
    removed, and the promise of [close()] is fulfilled (with the event's
    [hadError] flag). The transport reference is cleared throughout. *)
Theorem close_rejects_pending_command (k s p : nat) (h : option handler) (b : bool)
    (st : channel) :
  well_formed st -> armed k s st -> owns k p st ->
  commands st !! k = Some (Command p h) -> promises st !! p = Some Pending ->
  _socket st = Some s -> microtasks st = [] ->
  let st1 := turn CallClose st in
  let st2 := turn (SockEmit s (SClose b)) st1 in
  promises st1 !! p = Some Pending /\
  _socket st1 = None /\
  promises st2 !! p = Some (Rejected closed_unexpectedly) /\
  promises st2 !! length (promises st) = Some (Fulfilled (JBool b)) /\
  calls p (trace st2) = calls p (trace st) ++ [CallReject p closed_unexpectedly] /\
  cmd_lines k st2 = [] /\
  _socket st2 = None.
Proof.
  intros Hwf Ha Ho Hc Hp Hs Hq. cbv zeta. rewrite (turn_close st Hq).
  destruct (close_keeps_armed k s p st Hs Ha Ho) as [Ha1 Ho1].
  assert (Hc1 : commands (after close st) !! k = Some (Command p h)).
  { unfold after. rewrite (close_connected s st Hs). exact Hc. }
  assert (Hp1 : promises (after close st) !! p = Some Pending).
  { unfold after. rewrite (close_connected s st Hs). cbn.
    apply lookup_app_l_Some. exact Hp. }
  assert (Hs1 : _socket (after close st) = None).
  { unfold after. rewrite (close_connected s st Hs). reflexivity. }
  assert (Ht1 : calls p (trace (after close st)) = calls p (trace st)).
  { unfold after. rewrite (close_connected s st Hs).
    cbn [snd trace set_socket set_trace]. rewrite calls_snoc.
    cbn [is_call]. apply app_nil_r. }
  pose proof (close_turn_Iso k s p h b (after close st) Ha1 Ho1 Hc1) as HI.
  split; [exact Hp1|]. split; [exact Hs1|]. split; [|split; [|split; [|split]]].
  - rewrite (iso_state _ _ _ _ _ _ _ HI), Hp1. reflexivity.
  - apply close_event_resolves; assumption.
  - rewrite (iso_calls _ _ _ _ _ _ _ HI), Ht1. reflexivity.
  - apply sublist_nil_r. exact (iso_lines _ _ _ _ _ _ _ HI).
  - apply no_transport_turn; [reflexivity|exact Hs1].
Qed.

Lemma close_rejects_pending_command_witness :
  promises (turn (SockEmit 0 (SClose false)) (turn CallClose sample_writing)) !! 1 =
    Some (Rejected closed_unexpectedly) /\
  promises (turn (SockEmit 0 (SClose false)) (turn CallClose sample_writing)) !! 2 =
    Some (Fulfilled (JBool false)).
Proof.
  pose proof (close_rejects_pending_command 1 0 1 None false sample_writing
                sample_writing_wf sample_writing_armed sample_writing_owns
                eq_refl eq_refl eq_refl eq_refl) as H.
  split; [exact (proj1 (proj2 (proj2 H)))|exact (proj1 (proj2 (proj2 (proj2 H))))].
Defined.

(** ** Writing a command *)

Lemma write_turn (data : payload) (h : option handler) (s : nat) (st : channel) :
  microtasks st = [] -> _socket st = Some s ->
  turn (CallWrite data h) st =
    set_trace (trace st ++ [SockPipe s (_convertToStream data)])
      (set_receiveBuffer
         (lb_with_listeners (lb_listeners (_receiveBuffer st) ++ [length (commands st)])
            (_receiveBuffer st))
         (set_regs (regs st ++ [Reg s (OnCloseCmd (length (commands st))) true;
                                Reg s (OnErrorCmd (length (commands st))) true])
            (set_commands (commands st ++ [Command (length (promises st)) h])
               (set_promises (promises st ++ [Pending]) st)))).
Proof.
  intros Hq Hs. apply (turn_returned (write data h) _ tt); [|exact Hq].
  simpl. unfold bind. rewrite (write_connected data h s st Hs). reflexivity.
Qed.

Lemma known_no_fresh_command (st : channel) :
  commands_known st ->
  List.filter (fun r => of_cmd (length (commands st)) (r_fn r)) (regs st) = [] /\
  List.filter (Nat.eqb (length (commands st))) (lb_listeners (_receiveBuffer st)) = [].
Proof.
  intros (Hr & Hl & _). split; apply filter_false_nil.
  - intros r Hin. rewrite Forall_forall in Hr. apply list_elem_of_In in Hin.
    specialize (Hr r Hin (length (commands st))).
    destruct (of_cmd (length (commands st)) (r_fn r)); [|reflexivity].
    specialize (Hr eq_refl). lia.
  - intros k Hin. rewrite Forall_forall in Hl. apply list_elem_of_In in Hin.
    specialize (Hl k Hin). apply Nat.eqb_neq. lia.
Qed.

Lemma wf_no_fresh_promise (st : channel) :
  well_formed st ->
  List.filter (fun r => of_promise (length (promises st)) (r_fn r)) (regs st) = [].
Proof.
  intros (_ & _ & _ & H). apply filter_false_nil. intros r Hin.
  rewrite Forall_forall in H. apply list_elem_of_In in Hin.
  specialize (H r Hin (length (promises st))).
  destruct (of_promise (length (promises st)) (r_fn r)); [|reflexivity].
  specialize (H eq_refl). lia.
Qed.

(** [write] on a connected channel arms a command. With a transport [s],
    [write] returns a pending promise, hands the data to the socket as a
    stream (a string becomes a stream of that one chunk, a stream is passed
    on as it is), and registers, for a new command that owns the promise,
    [onClose] and [onError] once on [s] and [onLine] on the receive buffer,
    each a single time. Nothing else changes, and the state stays well
    formed. *)
Theorem write_arms_command (data : payload) (h : option handler) (s : nat) (st : channel) :
  well_formed st -> commands_known st -> _socket st = Some s -> microtasks st = [] ->
  let k := length (commands st) in
  let p := length (promises st) in
  let st' := turn (CallWrite data h) st in
  armed k s st' /\ owns k p st' /\
  commands st' = commands st ++ [Command p h] /\
  promises st' = promises st ++ [Pending] /\
  regs st' = regs st ++ [Reg s (OnCloseCmd k) true; Reg s (OnErrorCmd k) true] /\
  trace st' = trace st ++ [SockPipe s (_convertToStream data)] /\
  _convertToStream data =
    match data with PData text => Readable [text] | PStream r => r end /\
  _socket st' = Some s /\ sockets st' = sockets st /\
  well_formed st' /\ commands_known st'.
Proof.
  intros Hwf Hk Hs Hq. cbv zeta. rewrite (write_turn data h s st Hq Hs).
  destruct (known_no_fresh_command st Hk) as [Hnr Hnl].
  pose proof (wf_no_fresh_promise st Hwf) as Hnp.
  destruct Hwf as (W1 & W2 & W3 & W4). destruct Hk as (K1 & K2 & K3).
  split; [|split; [|repeat split]].
  - split; [|split; [|split; [cbn; rewrite K3; reflexivity|cbn; rewrite Hq; constructor]]].
    + left. unfold cmd_regs. cbn [regs set_trace set_receiveBuffer set_regs].
      rewrite List.filter_app, Hnr. cbn [List.filter r_fn of_cmd app].
      rewrite Nat.eqb_refl. reflexivity.
    + unfold cmd_lines. cbn [_receiveBuffer set_trace set_receiveBuffer lb_listeners
                             lb_with_listeners].
      rewrite List.filter_app, Hnl. cbn [List.filter app]. rewrite Nat.eqb_refl.
      reflexivity.
  - split; [exists h; cbn; apply lookup_snoc_length|]. split; [|split].
    + cbn. rewrite length_app. simpl. lia.
    + cbn [commands set_trace set_receiveBuffer set_regs set_commands].
      intros k' c Hc Hp.
      destruct (decide (k' < length (commands st))) as [Hlt|Hge].
      * rewrite lookup_app_l in Hc by exact Hlt.
        rewrite Forall_forall in W3. apply list_elem_of_lookup_2 in Hc.
        specialize (W3 c Hc). simpl in W3. lia.
      * apply lookup_lt_Some in Hc. rewrite length_app in Hc. simpl in Hc. lia.
    + cbn [regs set_trace set_receiveBuffer set_regs].
      rewrite List.filter_app, Hnp. reflexivity.
  - exact Hs.
  - intros s' H. cbn in H. cbn. apply W1, H.
  - cbn [regs sockets set_trace set_receiveBuffer set_regs set_commands set_promises].
    apply Forall_app. split; [exact W2|].
    repeat constructor; simpl; apply W1, Hs.
  - cbn [commands promises set_trace set_receiveBuffer set_regs set_commands set_promises].
    apply Forall_app. split.
    + eapply Forall_impl; [exact W3|]. intros c Hc. simpl in *. rewrite length_app. simpl. lia.
    + repeat constructor. simpl. rewrite length_app. simpl. lia.
  - cbn [regs promises set_trace set_receiveBuffer set_regs set_commands set_promises].
    apply Forall_app. split.
    + eapply Forall_impl; [exact W4|]. intros r Hr q Hq'. simpl in *.
      specialize (Hr q Hq'). rewrite length_app. simpl. lia.
    + repeat constructor; intros q Hq'; discriminate Hq'.
  - cbn [regs commands set_trace set_receiveBuffer set_regs set_commands].
    apply Forall_app. split.
    + eapply Forall_impl; [exact K1|]. intros r Hr q Hq'. simpl in *.
      specialize (Hr q Hq'). rewrite length_app. simpl. lia.
    + repeat constructor; intros q Hq'; simpl in Hq'; apply Nat.eqb_eq in Hq'; subst;
        rewrite length_app; simpl; lia.
  - cbn [_receiveBuffer commands set_trace set_receiveBuffer set_regs set_commands
         lb_listeners lb_with_listeners].
    apply Forall_app. split.
    + eapply Forall_impl; [exact K2|]. intros q Hq'. simpl in *. rewrite length_app.
      simpl. lia.
    + repeat constructor. rewrite length_app. simpl. lia.
  - exact K3.
Qed.

Lemma sample_connected_known : commands_known sample_connected.
Proof.
  split; [|split].
  - apply Forall_forall. intros r Hr k Hk. apply list_elem_of_In in Hr.
    vm_compute in Hr.
    repeat (destruct Hr as [<-|Hr]; [discriminate Hk|]). destruct Hr.
  - vm_compute. constructor.
  - vm_compute. reflexivity.
Qed.

Lemma write_arms_command_witness :
  armed 1 0 (turn (CallWrite (PData "NOOP") None) sample_connected) /\
  trace (turn (CallWrite (PData "NOOP") None) sample_connected) =
    trace sample_connected ++ [SockPipe 0 (Readable ["NOOP"])].
Proof.
  pose proof (write_arms_command (PData "NOOP") None 0 sample_connected
                sample_connected_wf sample_connected_known eq_refl eq_refl) as H.
  split; [exact (proj1 H)|exact (proj1 (proj2 (proj2 (proj2 (proj2 (proj2 H))))))].
Defined.

(** ** Two commands pending at once *)

Lemma step_handler (k p : nat) (h : option handler) (l : string) (q : list job) (n : nat)
    (st : channel) :
  microtasks st = JHandler k l (reply_args_of l) :: q ->
  commands st !! k = Some (Command p h) ->
  handler_result h l = None ->
  drain (S n) st =
    drain n (set_microtasks (q ++ [JSettle k None (reply_args_of l)])
               (set_trace (trace st ++ handler_calls k h [l]) st)).
Proof.
  intros Hq Hc Hh.
  pose proof (drain_handlers k p h [l] q n st Hc) as H.
  cbn [length Nat.add map app] in H. rewrite H; [reflexivity| |exact Hq].
  constructor; [exact Hh|constructor].
Qed.

Lemma step_settle_terminal (k p : nat) (h : option handler) (args : reply_args)
    (q : list job) (n : nat) (st : channel) :
  microtasks st = JSettle k None args :: q ->
  commands st !! k = Some (Command p h) ->
  truthy (isLast args) = true ->
  promises st !! p = Some Pending ->
  drain (S n) st =
    drain n (set_microtasks (q ++ [JCatch k None])
               (set_promises (<[p := Fulfilled (code args)]> (promises st))
                  (set_trace (trace st ++ [CallResolve p (code args)]) st))).
Proof.
  intros Hq Hc Hl Hp. rewrite drain_step, Hq. unfold bind at 1.
  rewrite (run_job_settle k p h) by (destruct st; exact Hc).
  rewrite Hl. unfold bind at 1. rewrite resolve_pending by (destruct st; exact Hp).
  unfold enqueue, modify. f_equal.
Qed.

Lemma step_catch (k : nat) (q : list job) (n : nat) (st : channel) :
  microtasks st = JCatch k None :: q ->
  drain (S n) st = drain n (set_microtasks q st).
Proof.
  intros Hq. rewrite drain_step, Hq. unfold bind at 1. cbn [run_job]. reflexivity.
Qed.

(** The reactions of one terminal line that reached the [onLine] of two
    commands. *)
Lemma shared_chain (k1 k2 p1 p2 : nat) (h1 h2 : option handler) (line : string)
    (st : channel) :
  commands st !! k1 = Some (Command p1 h1) ->
  commands st !! k2 = Some (Command p2 h2) ->
  p1 <> p2 ->
  promises st !! p1 = Some Pending -> promises st !! p2 = Some Pending ->
  truthy (isLastReply line) = true ->
  handler_result h1 line = None -> handler_result h2 line = None ->
  microtasks st = [JHandler k1 line (reply_args_of line);
                   JHandler k2 line (reply_args_of line)] ->
  run_microtasks st =
    (inr tt,
     set_microtasks []
       (set_promises
          (<[p2 := Fulfilled (parseReplyCode line)]>
             (<[p1 := Fulfilled (parseReplyCode line)]> (promises st)))
          (set_trace
             (trace st ++ handler_calls k1 h1 [line] ++ handler_calls k2 h2 [line] ++
              [CallResolve p1 (parseReplyCode line); CallResolve p2 (parseReplyCode line)])
             st))).
Proof.
  intros Hc1 Hc2 Hne Hp1 Hp2 Hl Hh1 Hh2 Hq. unfold run_microtasks, bind, gets.
  rewrite Hq. change (list_sum _) with 6.
  rewrite (step_handler k1 p1 h1 line _ _ st Hq Hc1 Hh1).
  rewrite (step_handler k2 p2 h2 line [JSettle k1 None (reply_args_of line)]);
    [|reflexivity|destruct st; exact Hc2|exact Hh2].
  rewrite (step_settle_terminal k1 p1 h1 (reply_args_of line)
             [JSettle k2 None (reply_args_of line)]);
    [|reflexivity|destruct st; exact Hc1|exact Hl|destruct st; exact Hp1].
  rewrite (step_settle_terminal k2 p2 h2 (reply_args_of line) [JCatch k1 None]);
    [|reflexivity|destruct st; exact Hc2|exact Hl|].
  - rewrite (step_catch k1 [JCatch k2 None]) by reflexivity.
    rewrite (step_catch k2 []) by reflexivity.
    rewrite drain_done by reflexivity.
    cbn [trace promises set_trace set_promises set_microtasks code reply_args_of].
    rewrite <- !app_assoc. destruct st; reflexivity.
  - cbn [promises set_promises set_trace set_microtasks].
    rewrite list_lookup_insert_ne by exact Hne. destruct st; exact Hp2.
Qed.

Lemma deliver_two (k1 k2 s : nat) (line : string) (st : channel) :
  k1 <> k2 -> _socket st = Some s ->
  lb_listeners (_receiveBuffer st) = [k1; k2] ->
  truthy (isLastReply line) = true ->
  for_each (fun k => onLine k line) [k1; k2] st =
    (inr tt,
     set_receiveBuffer (lb_with_listeners [] (_receiveBuffer st))
       (set_regs
          (remove_last (is_reg s (OnErrorCmd k2))
             (remove_last (is_reg s (OnCloseCmd k2))
                (remove_last (is_reg s (OnErrorCmd k1))
                   (remove_last (is_reg s (OnCloseCmd k1)) (regs st)))))
          (set_microtasks
             (microtasks st ++ [JHandler k1 line (reply_args_of line);
                                JHandler k2 line (reply_args_of line)]) st))).
Proof.
  intros Hne Hs Hk Hl. cbn [for_each]. unfold bind at 1.
  rewrite (onLine_terminal k1 s line st Hl Hs). unfold bind at 1.
  rewrite (onLine_terminal k2 s line) by (first [exact Hl|destruct st; exact Hs]).
  unfold ret.
  cbn [regs microtasks _receiveBuffer set_receiveBuffer set_regs set_microtasks
       lb_listeners lb_with_listeners lb_split lb_tail].
  rewrite Hk. cbn [remove_last existsb].
  rewrite Nat.eqb_refl. replace (Nat.eqb k1 k2) with false by (symmetry; apply Nat.eqb_neq; exact Hne).
  cbn [andb orb negb remove_last existsb]. rewrite Nat.eqb_refl. cbn [andb negb].
  rewrite <- app_assoc. destruct st as [? ? [? ? ?] ? ? ? ? ? ? ? ? ?]; reflexivity.
Qed.

Lemma _onReceive_shared (k1 k2 s : nat) (chunk line t : string) (st : channel) :
  k1 <> k2 -> _socket st = Some s ->
  lb_listeners (_receiveBuffer st) = [k1; k2] ->
  lb_split (_receiveBuffer st) (lb_tail (_receiveBuffer st)) chunk = ([line], t) ->
  truthy (isLastReply line) = true ->
  _onReceive chunk st =
    (inr tt,
     set_trace (trace st ++ [Emit (CReceive chunk); Emit (CReply line)])
       (set_receiveBuffer (lb_with_listeners [] (lb_with_tail t (_receiveBuffer st)))
          (set_regs
             (remove_last (is_reg s (OnErrorCmd k2))
                (remove_last (is_reg s (OnCloseCmd k2))
                   (remove_last (is_reg s (OnErrorCmd k1))
                      (remove_last (is_reg s (OnCloseCmd k1)) (regs st)))))
             (set_microtasks
                (microtasks st ++ [JHandler k1 line (reply_args_of line);
                                   JHandler k2 line (reply_args_of line)]) st)))).
Proof.
  intros Hne Hs Hk Hsplit Hl. unfold _onReceive. unfold bind at 1.
  unfold chan_emit, log at 1, modify at 1. unfold bind at 1.
  unfold feed. unfold bind at 1, gets at 1. cbn [_receiveBuffer set_trace].
  rewrite Hsplit. unfold bind at 1, modify at 1. unfold bind at 1.
  cbn [for_each]. unfold bind at 1. unfold bind at 1, gets at 1.
  cbn [_receiveBuffer set_receiveBuffer set_trace lb_listeners lb_with_tail].
  rewrite Hk.
  rewrite (deliver_two k1 k2 s line) by
    (first [exact Hne | exact Hl | destruct st; exact Hs | destruct st; exact Hk]).
  unfold ret. cbn [for_each]. unfold _onReply, chan_emit, bind, log, modify, ret.
  cbn [trace set_trace set_receiveBuffer set_regs set_microtasks _receiveBuffer
       lb_with_listeners lb_with_tail lb_split lb_tail lb_listeners regs microtasks].
  rewrite <- ?app_assoc. destruct st; reflexivity.
Qed.

(** Replies are not matched to commands: every armed command has its own
    [onLine] on the one receive buffer. When two commands with different
    promises are pending on a connected channel and a chunk completes a
    single terminal line, that line reaches both: the handler of each is
    called with it and, when both handlers return, both promises are
    fulfilled with its code, in the order the commands were armed, and both
    commands lose their listeners. *)
Theorem shared_reply_settles_both (k1 k2 s p1 p2 : nat) (h1 h2 : option handler)
    (chunk line t : string) (st : channel) :
  List.filter (on_event s EvData) (regs st) = [Reg s BoundOnReceive false] ->
  _socket st = Some s ->
  lb_listeners (_receiveBuffer st) = [k1; k2] -> k1 <> k2 ->
  commands st !! k1 = Some (Command p1 h1) ->
  commands st !! k2 = Some (Command p2 h2) -> p1 <> p2 ->
  promises st !! p1 = Some Pending -> promises st !! p2 = Some Pending ->
  microtasks st = [] ->
  lb_split (_receiveBuffer st) (lb_tail (_receiveBuffer st)) chunk = ([line], t) ->
  truthy (isLastReply line) = true ->
  handler_result h1 line = None -> handler_result h2 line = None ->
  promises (turn (SockEmit s (SData chunk)) st) =
    <[p2 := Fulfilled (parseReplyCode line)]>
      (<[p1 := Fulfilled (parseReplyCode line)]> (promises st)) /\
  trace (turn (SockEmit s (SData chunk)) st) =
    trace st ++ [Emit (CReceive chunk); Emit (CReply line)] ++
    handler_calls k1 h1 [line] ++ handler_calls k2 h2 [line] ++
    [CallResolve p1 (parseReplyCode line); CallResolve p2 (parseReplyCode line)] /\
  lb_listeners (_receiveBuffer (turn (SockEmit s (SData chunk)) st)) = [] /\
  regs (turn (SockEmit s (SData chunk)) st) =
    remove_last (is_reg s (OnErrorCmd k2))
      (remove_last (is_reg s (OnCloseCmd k2))
         (remove_last (is_reg s (OnErrorCmd k1))
            (remove_last (is_reg s (OnCloseCmd k1)) (regs st)))).
Proof.
  intros Hsnap Hs Hk Hne Hc1 Hc2 Hnp Hp1 Hp2 Hq Hsplit Hl Hh1 Hh2.
  unfold turn. simpl perform. rewrite (sock_emit_data s chunk st Hsnap).
  rewrite (_onReceive_shared k1 k2 s chunk line t st Hne Hs Hk Hsplit Hl).
  rewrite (shared_chain k1 k2 p1 p2 h1 h2 line);
    [|destruct st; exact Hc1|destruct st; exact Hc2|exact Hnp|destruct st; exact Hp1
     |destruct st; exact Hp2|exact Hl|exact Hh1|exact Hh2
     |cbn [microtasks set_trace set_receiveBuffer set_regs set_microtasks];
      rewrite Hq; reflexivity].
  cbn [snd promises trace regs _receiveBuffer lb_listeners lb_with_listeners
       set_trace set_promises set_microtasks set_receiveBuffer set_regs].
  rewrite <- !app_assoc. repeat split.
Qed.

Lemma shared_reply_settles_both_witness :
  promises (turn (SockEmit 0 (SData ("250 ok" ++ CRLF)%string))
              (turn (CallWrite (PData ("NOOP" ++ CRLF)%string) None) sample_writing)) =
    [Fulfilled (JStr "220"); Fulfilled (JStr "250"); Fulfilled (JStr "250")].
Proof.
  pose proof (shared_reply_settles_both 1 2 0 1 2 None None ("250 ok" ++ CRLF)%string
                "250 ok" EmptyString
                (turn (CallWrite (PData ("NOOP" ++ CRLF)%string) None) sample_writing)
                eq_refl eq_refl eq_refl) as H.
  premise H. { discriminate. }
  specialize (H eq_refl eq_refl).
  premise H. { discriminate. }
  specialize (H eq_refl eq_refl eq_refl eq_refl eq_refl eq_refl eq_refl).
  exact (proj1 H).
Defined.

(** ** A handler that throws *)

Lemma step_handler_throws (k p : nat) (f : handler) (l : string) (e : exn) (q : list job)
    (n : nat) (st : channel) :
  microtasks st = JHandler k l (reply_args_of l) :: q ->
  commands st !! k = Some (Command p (Some f)) ->
  f l (reply_args_of l) = Some e ->
  drain (S n) st =
    drain n (set_microtasks (q ++ [JSettle k (Some e) (reply_args_of l)])
               (set_trace (trace st ++ [CallHandler k l (reply_args_of l)]) st)).
Proof.
  intros Hq Hc Hf. rewrite drain_step, Hq. unfold bind at 1.
  rewrite (run_job_handler k p (Some f)) by (destruct st; exact Hc).
  rewrite Hf. f_equal.
Qed.

Lemma step_settle_skipped (k : nat) (e : exn) (args : reply_args) (q : list job) (n : nat)
    (st : channel) :
  microtasks st = JSettle k (Some e) args :: q ->
  drain (S n) st = drain n (set_microtasks (q ++ [JCatch k (Some e)]) st).
Proof.
  intros Hq. rewrite drain_step, Hq. unfold bind at 1. cbn [run_job].
  unfold enqueue, modify. reflexivity.
Qed.

Lemma step_catch_rejects (k p : nat) (h : option handler) (e : exn) (q : list job) (n : nat)
    (st : channel) :
  microtasks st = JCatch k (Some e) :: q ->
  commands st !! k = Some (Command p h) ->
  promises st !! p = Some Pending ->
  drain (S n) st =
    drain n (set_promises (<[p := Rejected e]> (promises st))
               (set_trace (trace st ++ [CallReject p e]) (set_microtasks q st))).
Proof.
  intros Hq Hc Hp. rewrite drain_step, Hq. unfold bind at 1.
  rewrite (run_job_catch k p h) by (destruct st; exact Hc).
  rewrite reject_pending by (destruct st; exact Hp). reflexivity.
Qed.

(** The reactions of one line on which the handler throws. *)
Lemma throwing_chain (k p : nat) (f : handler) (line : string) (e : exn) (st : channel) :
  commands st !! k = Some (Command p (Some f)) ->
  promises st !! p = Some Pending ->
  f line (reply_args_of line) = Some e ->
  microtasks st = [JHandler k line (reply_args_of line)] ->
  run_microtasks st =
    (inr tt,
     set_promises (<[p := Rejected e]> (promises st))
       (set_trace (trace st ++ [CallHandler k line (reply_args_of line); CallReject p e])
          (set_microtasks [] st))).
Proof.
  intros Hc Hp Hf Hq. unfold run_microtasks, bind, gets. rewrite Hq.
  change (list_sum _) with 3.
  rewrite (step_handler_throws k p f line e [] _ st Hq Hc Hf).
  rewrite (step_settle_skipped k e (reply_args_of line) []) by reflexivity.
  rewrite (step_catch_rejects k p (Some f) e []);
    [|reflexivity|destruct st; exact Hc|destruct st; exact Hp].
  rewrite drain_done by reflexivity.
  cbn [trace promises set_trace set_promises set_microtasks]. rewrite <- app_assoc.
  destruct st; reflexivity.
Qed.

(** A failure of the handler rejects the command, when the line is the
    only one its chunk completes. The handler is called with the line and
    throws; the promise, pending until then, is rejected with what the
    handler threw, and [reject] is the only call on it. On a terminal line
    the command's listeners are removed as for a reply; on a line that is
    not terminal they all stay registered, although the promise is now
    settled. *)
Theorem handler_failure_rejects (k s p : nat) (f : handler) (chunk line t : string)
    (e : exn) (st : channel) :
  List.filter (on_event s EvData) (regs st) = [Reg s BoundOnReceive false] ->
  _socket st = Some s ->
  lb_listeners (_receiveBuffer st) = [k] ->
  commands st !! k = Some (Command p (Some f)) ->
  promises st !! p = Some Pending ->
  microtasks st = [] ->
  lb_split (_receiveBuffer st) (lb_tail (_receiveBuffer st)) chunk = ([line], t) ->
  f line (reply_args_of line) = Some e ->
  promises (turn (SockEmit s (SData chunk)) st) = <[p := Rejected e]> (promises st) /\
  trace (turn (SockEmit s (SData chunk)) st) =
    trace st ++ [Emit (CReceive chunk); Emit (CReply line);
                 CallHandler k line (reply_args_of line); CallReject p e] /\
  (truthy (isLastReply line) = true ->
   lb_listeners (_receiveBuffer (turn (SockEmit s (SData chunk)) st)) = [] /\
   regs (turn (SockEmit s (SData chunk)) st) =
     remove_last (is_reg s (OnErrorCmd k)) (remove_last (is_reg s (OnCloseCmd k)) (regs st))) /\
  (truthy (isLastReply line) = false ->
   lb_listeners (_receiveBuffer (turn (SockEmit s (SData chunk)) st)) = [k] /\
   regs (turn (SockEmit s (SData chunk)) st) = regs st).
Proof.
  intros Hsnap Hs Hk Hc Hp Hq Hsplit Hf.
  unfold turn. simpl perform. rewrite (sock_emit_data s chunk st Hsnap).
  destruct (truthy (isLastReply line)) eqn:Hl.
  - rewrite (_onReceive_reply k s chunk [] line t st Hs Hk Hsplit (List.Forall_nil _) Hl).
    rewrite (throwing_chain k p f line e);
      [|destruct st; exact Hc|destruct st; exact Hp|exact Hf
       |cbn [microtasks set_trace set_microtasks app map]; rewrite Hq; reflexivity].
    cbn [snd promises trace regs _receiveBuffer lb_listeners lb_with_listeners
         set_trace set_promises set_microtasks set_receiveBuffer set_regs app map].
    rewrite <- !app_assoc. repeat split; discriminate.
  - rewrite (_onReceive_continuations k chunk [line] t st Hk Hsplit)
      by (constructor; [exact Hl|constructor]).
    rewrite (throwing_chain k p f line e);
      [|destruct st; exact Hc|destruct st; exact Hp|exact Hf
       |cbn [microtasks set_trace set_microtasks app map]; rewrite Hq; reflexivity].
    cbn [snd promises trace regs _receiveBuffer lb_listeners lb_with_tail
         set_trace set_promises set_microtasks set_receiveBuffer set_regs app map].
    rewrite <- !app_assoc. repeat split; first [discriminate|exact Hk|idtac].
Qed.

Lemma handler_failure_rejects_witness :
  promises (turn (SockEmit 0 (SData ("250-first" ++ CRLF)%string)) sample_handled) !! 1 =
    Some (Rejected (Error "handler failed")) /\
  lb_listeners (_receiveBuffer
                  (turn (SockEmit 0 (SData ("250-first" ++ CRLF)%string)) sample_handled)) =
    [1].
Proof.
  pose proof (handler_failure_rejects 1 0 1 failing_handler ("250-first" ++ CRLF)%string
                "250-first" EmptyString (Error "handler failed") sample_handled
                eq_refl eq_refl eq_refl eq_refl eq_refl eq_refl eq_refl eq_refl) as H.
  destruct H as (Hp & _ & _ & Hn). split.
  - rewrite Hp. reflexivity.
  - exact (proj1 (Hn eq_refl)).
Defined.

(** ** A socket error while a command is pending *)

Lemma error_dispatch_pending (k s : nat) (e : exn) (st : channel) :
  List.filter (on_event s EvError) (regs st) =
    [Reg s BoundOnError false; Reg s (OnErrorCmd k) true] ->
  sock_emit s (SError e) st =
    if errorObserved st
    then fire (SError e) (Reg s (OnErrorCmd k) true)
           (set_trace (trace st ++ [Emit (CError e)]) st)
    else (inl e, st).
Proof.
  intros H. unfold sock_emit, bind, gets. simpl. rewrite H. cbn [for_each].
  unfold bind at 1. unfold fire at 1. cbn [r_once r_fn invoke]. unfold bind at 1, ret at 1.
  unfold _onError, chan_emit, bind, gets. destruct (errorObserved st); [|reflexivity].
  unfold log at 1, modify at 1.
  destruct (fire (SError e) (Reg s (OnErrorCmd k) true) _) as [[x|[]] st1]; reflexivity.
Qed.

(** A socket error while a command is pending on a connected channel.
    The channel's [_onError] was registered at connect time, before the
    command's [onError], and runs first. When the application listens to the
    channel's error event, the error is emitted, and then the command is
    rejected with it and loses its three listeners. When it does not, the
    emit throws: the exception ends the dispatch of the socket's event, the
    command's [onError] is not called, and the command stays armed with its
    promise pending. The transport is not cleared in either case. *)
Theorem error_with_pending_command (k s p : nat) (h : option handler) (e : exn)
    (st : channel) :
  List.filter (on_event s EvError) (regs st) =
    [Reg s BoundOnError false; Reg s (OnErrorCmd k) true] ->
  _socket st = Some s ->
  commands st !! k = Some (Command p h) ->
  promises st !! p = Some Pending ->
  microtasks st = [] ->
  (errorObserved st = true ->
   turn (SockEmit s (SError e)) st =
     set_promises (<[p := Rejected e]> (promises st))
       (set_trace (trace st ++ [Emit (CError e); CallReject p e])
          (set_receiveBuffer
             (lb_with_listeners
                (remove_last (Nat.eqb k) (lb_listeners (_receiveBuffer st)))
                (_receiveBuffer st))
             (set_regs
                (remove_last (is_reg s (OnCloseCmd k))
                   (remove_last (is_reg s (OnErrorCmd k)) (regs st))) st)))) /\
  (errorObserved st = false ->
   turn (SockEmit s (SError e)) st = set_trace (trace st ++ [Uncaught e]) st).
Proof.
  intros Hsnap Hs Hc Hp Hq. split; intros Ho.
  - apply (turn_returned (sock_emit s (SError e)) _ tt); [|exact Hq].
    simpl perform. rewrite (error_dispatch_pending k s e st Hsnap), Ho.
    rewrite (fire_error_eq k s s p h e);
      [|destruct st; exact Hc|destruct st; exact Hs|destruct st; exact Hp].
    cbn [trace promises regs _receiveBuffer set_trace]. rewrite <- app_assoc.
    destruct st; reflexivity.
  - apply (turn_threw _ e st st); [|exact Hq].
    simpl perform. rewrite (error_dispatch_pending k s e st Hsnap), Ho. reflexivity.
Qed.

Lemma error_with_pending_command_witness :
  promises (turn (SockEmit 0 (SError (Error "reset"))) sample_writing) !! 1 =
    Some (Rejected (Error "reset")) /\
  cmd_regs 1 (turn (SockEmit 0 (SError (Error "reset"))) sample_writing) = [].
Proof.
  pose proof (error_with_pending_command 1 0 1 None (Error "reset") sample_writing
                eq_refl eq_refl eq_refl eq_refl eq_refl) as [H _].
  rewrite (H eq_refl). split; reflexivity.
Defined.

(** ** C1: the three paths of settlement *)

Lemma own_continuations (k : nat) (ls : list string) (st : channel) :
  Forall (fun l => truthy (isLastReply l) = false) ls ->
  for_each (fun l => onLine k l) ls st =
    (inr tt,
     set_microtasks (microtasks st ++ map (fun l => JHandler k l (reply_args_of l)) ls) st).
Proof.
  intros Hls. revert st. induction Hls as [|l ls Hl Hls IH]; intros st.
  - simpl. rewrite app_nil_r. destruct st; reflexivity.
  - cbn [for_each]. unfold bind at 1. rewrite (onLine_continuation k l st Hl).
    rewrite IH. cbn [microtasks set_microtasks map]. rewrite <- app_assoc.
    destruct st; reflexivity.
Qed.

(** The lines of one turn reach [onLine]: lines that are not terminal, then
    a terminal one. *)
Lemma own_reply (k s : nat) (ls : list string) (last : string) (st : channel) :
  _socket st = Some s ->
  Forall (fun l => truthy (isLastReply l) = false) ls ->
  truthy (isLastReply last) = true ->
  for_each (fun l => onLine k l) (ls ++ [last]) st =
    (inr tt,
     set_receiveBuffer
       (lb_with_listeners
          (remove_last (Nat.eqb k) (lb_listeners (_receiveBuffer st)))
          (_receiveBuffer st))
       (set_regs
          (remove_last (is_reg s (OnErrorCmd k))
             (remove_last (is_reg s (OnCloseCmd k)) (regs st)))
          (set_microtasks
             (microtasks st ++ map (fun l => JHandler k l (reply_args_of l)) (ls ++ [last]))
             st))).
Proof.
  intros Hs Hls Hlast. rewrite for_each_app. unfold bind at 1.
  rewrite (own_continuations k ls st Hls). cbn [for_each]. unfold bind at 1.
  rewrite (onLine_terminal k s last) by (first [exact Hlast|destruct st; exact Hs]).
  unfold ret.
  cbn [regs microtasks _receiveBuffer set_microtasks]. rewrite map_app. cbn [map].
  rewrite <- app_assoc. destruct st; reflexivity.
Qed.

Lemma calls_handler_calls (p k : nat) (h : option handler) (ls : list string)
    (tr : list effect) :
  calls p (tr ++ handler_calls k h ls) = calls p tr.
Proof.
  unfold calls. rewrite List.filter_app.
  replace (List.filter (is_call p) (handler_calls k h ls)) with (@nil effect);
    [apply app_nil_r|].
  destruct h; [|reflexivity]. simpl. induction ls as [|l ls IH]; [reflexivity|exact IH].
Qed.

(** The reactions of the lines of one turn: the handler returns on the
    lines that are not terminal; on the terminal line it returns or throws.
    One call is made on the promise. *)
Lemma settling_chain (k p : nat) (h : option handler) (ls : list string) (last : string)
    (st : channel) :
  commands st !! k = Some (Command p h) ->
  Forall (fun l => handler_result h l = None) ls ->
  Forall (fun l => truthy (isLastReply l) = false) ls ->
  truthy (isLastReply last) = true ->
  microtasks st = map (fun l => JHandler k l (reply_args_of l)) (ls ++ [last]) ->
  exists ps tr,
    run_microtasks st = (inr tt, set_promises ps (set_trace tr (set_microtasks [] st))) /\
    length ps = length (promises st) /\
    calls p tr = calls p (trace st) ++ [terminal_call p h last].
Proof.
  intros Hc Hh Hls Hlast Hq. unfold run_microtasks, bind, gets.
  rewrite Hq, handler_weight.
  replace (3 * length (ls ++ [last]))
    with (length ls + S (length ls + S (length ls + S 0)))
    by (rewrite length_app; simpl; lia).
  rewrite map_app in Hq. cbn [map] in Hq.
  rewrite (drain_handlers k p h ls [JHandler k last (reply_args_of last)] _ st Hc Hh Hq).
  cbn [app].
  (* the handler on the terminal line *)
  rewrite drain_step. cbn [microtasks set_microtasks]. unfold bind at 1.
  rewrite (run_job_handler k p h) by (destruct st; exact Hc).
  unfold terminal_call.
  destruct (handler_result h last) as [e|] eqn:Hres.
  - (* it throws *)
    destruct h as [f|]; [|discriminate Hres].
    change (f last (reply_args_of last) = Some e) in Hres. rewrite Hres.
    rewrite (drain_settles k p (Some f) ls [JSettle k (Some e) (reply_args_of last)]);
      [|destruct st; exact Hc|exact Hls|reflexivity].
    rewrite (step_settle_skipped k e (reply_args_of last)
               (map (fun _ => JCatch k None) ls)) by reflexivity.
    rewrite (drain_catches k ls [JCatch k (Some e)]) by reflexivity.
    rewrite drain_step. cbn [microtasks set_microtasks]. unfold bind at 1.
    match goal with |- context [run_job (JCatch k (Some e)) ?x] =>
      rewrite (run_job_catch k p (Some f) e x) by (destruct st; exact Hc);
      destruct (reject_spec p e x) as (ps & E & H1 & _); rewrite E
    end.
    rewrite drain_done by reflexivity.
    exists ps. eexists. split; [destruct st; reflexivity|]. split.
    + rewrite H1. destruct st; reflexivity.
    + cbn [trace set_trace set_microtasks]. rewrite calls_snoc. cbn [is_call].
      rewrite Nat.eqb_refl, calls_snoc. cbn [is_call]. rewrite app_nil_r.
      rewrite calls_handler_calls. reflexivity.
  - (* it returns, or there is none *)
    assert (E1 : forall x : channel,
              match h with
              | Some f =>
                  set_microtasks
                    (microtasks x ++ [JSettle k (f last (reply_args_of last))
                                        (reply_args_of last)])
                    (set_trace (trace x ++ [CallHandler k last (reply_args_of last)]) x)
              | None => set_microtasks (microtasks x ++ [JSettle k None (reply_args_of last)]) x
              end =
              set_microtasks (microtasks x ++ [JSettle k None (reply_args_of last)])
                (set_trace (trace x ++ handler_calls k h [last]) x)).
    { intros x. destruct h as [f|].
      - change (f last (reply_args_of last) = None) in Hres. rewrite Hres. reflexivity.
      - cbn [handler_calls]. rewrite app_nil_r. destruct x; reflexivity. }
    rewrite E1.
    rewrite (drain_settles k p h ls [JSettle k None (reply_args_of last)]);
      [|destruct st; exact Hc|exact Hls|reflexivity].
    rewrite drain_step. cbn [microtasks set_microtasks app]. unfold bind at 1.
    match goal with |- context [run_job (JSettle k None ?a) ?x] =>
      rewrite (run_job_settle k p h a x) by (destruct st; exact Hc);
      cbn [isLast code reply_args_of]; rewrite Hlast; unfold bind at 1;
      destruct (resolve_spec p (parseReplyCode last) x) as (ps & E & H1 & _); rewrite E
    end.
    unfold enqueue at 1, modify at 1.
    rewrite (drain_catches k ls [JCatch k None]) by reflexivity.
    rewrite (step_catch k []) by reflexivity.
    rewrite drain_done by reflexivity.
    exists ps. eexists. split; [destruct st; reflexivity|]. split.
    + rewrite H1. destruct st; reflexivity.
    + cbn [trace set_trace set_microtasks set_promises]. rewrite calls_snoc. cbn [is_call].
      rewrite Nat.eqb_refl, !calls_handler_calls. reflexivity.
Qed.

(** C1 (amended): let command [k] be armed on socket [s] (its [onClose]
    and [onLine] registered, its [onError] too unless the connect callback
    removed it, and none of its reactions queued), let [p] be its promise,
    used by no other command or listener, and let [s] be the transport the
    channel holds.

    The line path: a turn starts with an empty queue of reactions, as every
    turn does, and the lines of its chunk reach [onLine]: lines that are not
    terminal, on which the handler returns, and then a terminal line. The
    three listeners are removed before the [onLine] of the terminal line
    returns, and the reactions make exactly one call on the promise:
    [resolve(code)], or [reject] with what the handler threw on the terminal
    line. The error path: when the error event reaches [onError], the
    listeners are removed and [reject(error)] is the one call. The close path:
    when the close event reaches [onClose], the listeners are removed and
    [reject] with "Socket has closed unexpectedly" is the one call.

    After each of the three the command is detached, and for a detached
    command no later turn, whatever its input, calls [resolve] or [reject] of
    its promise or registers or queues anything of it. Whatever calls are
    made, a promise that is settled never changes its state. What follows a
    handler that threw on a line that is not terminal is left out. *)
Theorem C1_settlement_paths (k s p : nat) (h : option handler) (st : channel) :
  armed k s st -> owns k p st -> commands st !! k = Some (Command p h) ->
  _socket st = Some s ->
  (forall ls last,
     microtasks st = [] ->
     Forall (fun l => truthy (isLastReply l) = false) ls ->
     Forall (fun l => handler_result h l = None) ls ->
     truthy (isLastReply last) = true ->
     let st1 := after (for_each (fun l => onLine k l) (ls ++ [last])) st in
     let st2 := after run_microtasks st1 in
     cmd_regs k st1 = [] /\ cmd_lines k st1 = [] /\
     detached k st2 /\ owns k p st2 /\
     calls p (trace st2) = calls p (trace st) ++ [terminal_call p h last]) /\
  (forall e,
     let st1 := after (fire (SError e) (Reg s (OnErrorCmd k) true)) st in
     detached k st1 /\ owns k p st1 /\
     calls p (trace st1) = calls p (trace st) ++ [CallReject p e]) /\
  (forall b,
     let st1 := after (fire (SClose b) (Reg s (OnCloseCmd k) true)) st in
     detached k st1 /\ owns k p st1 /\
     calls p (trace st1) = calls p (trace st) ++ [CallReject p closed_unexpectedly]) /\
  (forall st', detached k st' -> owns k p st' ->
     forall i, detached k (turn i st') /\ owns k p (turn i st') /\
               calls p (trace (turn i st')) = calls p (trace st')) /\
  (forall st' i q v, v <> Pending -> promises st' !! q = Some v ->
                     promises (turn i st') !! q = Some v) /\
  (forall st' i, microtasks (turn i st') = []).
Proof.
  intros Ha Ho Hc Hs. split; [|split; [|split; [|split; [|split]]]].
  - intros ls last Hq Hls Hh Hlast. cbv zeta. unfold after.
    rewrite (own_reply k s ls last st Hs Hls Hlast). cbn [snd].
    match goal with |- context [run_microtasks ?x] => set (st1 := x) end.
    destruct (settling_chain k p h ls last st1) as (ps & tr & E & Hlen & Hcalls).
    { exact Hc. } { exact Hh. } { exact Hls. } { exact Hlast. }
    { unfold st1. cbn. rewrite Hq. reflexivity. }
    rewrite E. cbn [snd].
    pose proof Ha as (Hr & Hln & Hsend & Hj).
    split; [apply (cmd_regs_removed k s (OnCloseCmd k) (OnErrorCmd k)); auto|].
    split; [apply cmd_lines_removed, Hln|].
    assert (Hd : detached k (set_promises ps (set_trace tr (set_microtasks [] st1))) /\
                 owns k p (set_promises ps (set_trace tr (set_microtasks [] st1)))).
    { apply (detach_result k s p (OnCloseCmd k) (OnErrorCmd k) st); auto. }
    destruct Hd as [Hd1 Hd2]. split; [exact Hd1|]. split; [exact Hd2|]. exact Hcalls.
  - intros e. cbv zeta. unfold after.
    destruct (fire_error_spec k s s p h e st Hc Hs) as (ps & E & Hlen & _).
    rewrite E. cbn [snd].
    assert (Hd : forall st', st' = set_promises ps
                   (set_trace (trace st ++ [CallReject p e])
                      (set_receiveBuffer
                         (lb_with_listeners
                            (remove_last (Nat.eqb k) (lb_listeners (_receiveBuffer st)))
                            (_receiveBuffer st))
                         (set_regs
                            (remove_last (is_reg s (OnCloseCmd k))
                               (remove_last (is_reg s (OnErrorCmd k)) (regs st))) st))) ->
                 detached k st' /\ owns k p st').
    { intros st' ->. apply (detach_result k s p (OnErrorCmd k) (OnCloseCmd k) st); auto.
      exact (proj2 (proj2 (proj2 Ha))). }
    destruct (Hd _ eq_refl) as [Hd1 Hd2]. split; [exact Hd1|]. split; [exact Hd2|].
    cbn [trace set_promises set_trace]. rewrite calls_snoc. simpl.
    rewrite Nat.eqb_refl. reflexivity.
  - intros b. cbv zeta. unfold after.
    destruct (fire_close_spec k s p h b st Hc) as (ps & E & Hlen & _).
    rewrite E, Hs. cbn [snd].
    assert (Hd : forall st', st' = set_promises ps
                   (set_trace (trace st ++ [CallReject p closed_unexpectedly])
                      (set_receiveBuffer
                         (lb_with_listeners
                            (remove_last (Nat.eqb k) (lb_listeners (_receiveBuffer st)))
                            (_receiveBuffer st))
                         (set_regs
                            (remove_last (is_reg s (OnErrorCmd k))
                               (remove_last (is_reg s (OnCloseCmd k)) (regs st))) st))) ->
                 detached k st' /\ owns k p st').
    { intros st' ->. apply (detach_result k s p (OnCloseCmd k) (OnErrorCmd k) st); auto.
      exact (proj2 (proj2 (proj2 Ha))). }
    destruct (Hd _ eq_refl) as [Hd1 Hd2]. split; [exact Hd1|]. split; [exact Hd2|].
    cbn [trace set_promises set_trace]. rewrite calls_snoc. simpl.
    rewrite Nat.eqb_refl. reflexivity.
  - intros st' Hd Ho' i. destruct (detached_turn k p i st' Hd Ho') as (H1 & H2 & H3 & _).
    auto.
  - intros st' i q v Hv H. apply settled_turn; assumption.
  - intros st' i. apply turn_queue_empty.
Qed.

Lemma sample_wired_armed : armed 0 0 sample_wired.
Proof.
  split; [right; vm_compute; reflexivity|]. split; [vm_compute; reflexivity|].
  split; [vm_compute; reflexivity|]. vm_compute. constructor.
Qed.

Lemma sample_wired_owns : owns 0 0 sample_wired.
Proof.
  split; [exists None; vm_compute; reflexivity|]. split; [vm_compute; lia|]. split.
  - intros [|k'] c H Hp; vm_compute in H; [reflexivity|discriminate H].
  - vm_compute. reflexivity.
Qed.

Lemma sample_connecting_armed : armed 0 0 sample_connecting.
Proof.
  split; [left; vm_compute; reflexivity|]. split; [vm_compute; reflexivity|].
  split; [vm_compute; reflexivity|]. vm_compute. constructor.
Qed.

Lemma sample_connecting_owns : owns 0 0 sample_connecting.
Proof.
  split; [exists None; vm_compute; reflexivity|]. split; [vm_compute; lia|]. split.
  - intros [|k'] c H Hp; vm_compute in H; [reflexivity|discriminate H].
  - vm_compute. reflexivity.
Qed.

(** The witness takes the command of [connect]. After the connect event a
    chunk of two lines reaches its [onLine], and the close event reaches its
    [onClose] before [_onClose]; before the connect event the error event
    reaches its [onError], the only error listener. *)
Lemma C1_settlement_paths_witness :
  (List.filter (on_event 0 EvClose) (regs sample_wired) =
     [Reg 0 (OnCloseCmd 0) true; Reg 0 BoundOnClose false] /\
   _socket sample_wired = Some 0 /\
   detached 0 (after (fire (SClose false) (Reg 0 (OnCloseCmd 0) true)) sample_wired) /\
   calls 0 (trace (after run_microtasks
                     (after (for_each (fun l => onLine 0 l) (["220-hello"] ++ ["220 ready"]))
                        sample_wired))) =
     calls 0 (trace sample_wired) ++ [CallResolve 0 (JStr "220")]) /\
  (List.filter (on_event 0 EvError) (regs sample_connecting) =
     [Reg 0 (OnErrorCmd 0) true] /\
   _socket sample_connecting = Some 0 /\
   calls 0 (trace (after (fire (SError (Error "reset")) (Reg 0 (OnErrorCmd 0) true))
                     sample_connecting)) =
     calls 0 (trace sample_connecting) ++ [CallReject 0 (Error "reset")]).
Proof.
  pose proof (C1_settlement_paths 0 0 0 None sample_wired sample_wired_armed
                sample_wired_owns eq_refl eq_refl) as H1.
  pose proof (C1_settlement_paths 0 0 0 None sample_connecting sample_connecting_armed
                sample_connecting_owns eq_refl eq_refl) as H2.
  assert (Hl : Forall (fun l => truthy (isLastReply l) = false) ["220-hello"])
    by (repeat constructor).
  assert (Hh : Forall (fun l => handler_result None l = None) ["220-hello"])
    by (repeat constructor).
  split.
  - split; [reflexivity|]. split; [reflexivity|]. split.
    + exact (proj1 (proj1 (proj2 (proj2 H1)) false)).
    + exact (proj2 (proj2 (proj2 (proj2
               (proj1 H1 ["220-hello"] "220 ready" eq_refl Hl Hh eq_refl))))).
  - split; [reflexivity|]. split; [reflexivity|].
    exact (proj2 (proj2 (proj1 (proj2 H2) (Error "reset")))).
Defined.
